(** * A shallow embedding of the BPE tokenizer (tokenizer-bpe.js)

    The development follows the class [BPE_Tokenizer]: strings are sequences
    of UTF-16 code units, the two [Map] fields are insertion-ordered
    association tables, the tokenizer object is a record that every method
    takes and returns. *)

From Stdlib Require Import String Ascii.
From Stdlib Require Import List ZArith Lia Bool Arith Permutation.
Import ListNotations.
Local Open Scope Z_scope.

(** ** JavaScript strings *)

(** A JS string is a sequence of 16-bit code units. *)
Definition str := list Z.

Fixpoint str_eqb (a b : str) : bool :=
  match a, b with
  | [], [] => true
  | x :: a', y :: b' => (x =? y) && str_eqb a' b'
  | _, _ => false
  end.

(** Literals: the code units of an ASCII text. *)
Fixpoint js (s : string) : str :=
  match s with
  | EmptyString => []
  | String c s' => Z.of_N (N_of_ascii c) :: js s'
  end.

(** U+2581, the word-start marker; one code unit. *)
Definition MARK : Z := 9601.
Definition SP : Z := 32.
Definition LF : Z := 10.
Definition CR : Z := 13.

(** The class [\s] of JS regular expressions. *)
Definition is_ws (c : Z) : bool :=
  ((9 <=? c) && (c <=? 13)) || (c =? 32) || (c =? 160) || (c =? 5760)
  || ((8192 <=? c) && (c <=? 8202)) || (c =? 8232) || (c =? 8233)
  || (c =? 8239) || (c =? 8287) || (c =? 12288) || (c =? 65279).

(** [/^\s+$/.test(p)] *)
Definition is_ws_run (p : str) : bool :=
  match p with
  | [] => false
  | _ => forallb is_ws p
  end.

Definition is_high_surrogate (c : Z) : bool := (55296 <=? c) && (c <=? 56319).
Definition is_low_surrogate (c : Z) : bool := (56320 <=? c) && (c <=? 57343).

(** [Array.from(word)]: the string cut into code points; a high surrogate
    followed by a low one is a single element. *)
Fixpoint Array_from (s : str) : list str :=
  match s with
  | [] => []
  | c :: s' =>
      match s' with
      | d :: s'' =>
          if is_high_surrogate c && is_low_surrogate d
          then [c; d] :: Array_from s''
          else [c] :: Array_from s'
      | [] => [[c]]
      end
  end.

(** [pieces.join(' ')] *)
Fixpoint join_sp (ps : list str) : str :=
  match ps with
  | [] => []
  | [p] => p
  | p :: ps' => p ++ SP :: join_sp ps'
  end.

(** [s.split(' ')] *)
Fixpoint split_sp (s : str) : list str :=
  match s with
  | [] => [[]]
  | c :: s' =>
      if c =? SP then [] :: split_sp s'
      else match split_sp s' with
           | h :: t => (c :: h) :: t
           | [] => [[c]]
           end
  end.

(** [s.split(/\r?\n/)] *)
Fixpoint split_lines (s : str) : list str :=
  match s with
  | [] => [[]]
  | c :: s' =>
      if c =? LF then [] :: split_lines s'
      else
        match s' with
        | d :: s'' =>
            if (c =? CR) && (d =? LF) then [] :: split_lines s''
            else match split_lines s' with
                 | h :: t => (c :: h) :: t
                 | [] => [[c]]
                 end
        | [] => [[c]]
        end
  end.

(** [s.split(/\s+/)]: a whitespace run is one separator. *)
Fixpoint split_ws (s : str) : list str :=
  match s with
  | [] => [[]]
  | c :: s' =>
      if is_ws c then
        match s' with
        | d :: _ => if is_ws d then split_ws s' else [] :: split_ws s'
        | [] => [] :: split_ws s'
        end
      else match split_ws s' with
           | h :: t => (c :: h) :: t
           | [] => [[c]]
           end
  end.

(** [s.split(/(\s+)/)]: as [split_ws], with every separator kept between the
    two fields it separates. *)
Fixpoint split_ws_keep (s : str) : list str :=
  match s with
  | [] => [[]]
  | c :: s' =>
      if is_ws c then
        match s' with
        | d :: _ =>
            if is_ws d then
              match split_ws_keep s' with
              | w :: run :: rest => w :: (c :: run) :: rest
              | r => r
              end
            else [] :: [c] :: split_ws_keep s'
        | [] => [] :: [c] :: split_ws_keep s'
        end
      else match split_ws_keep s' with
           | h :: t => (c :: h) :: t
           | [] => [[c]]
           end
  end.

(** [.filter(Boolean)] on an array of strings *)
Definition filter_Boolean (l : list str) : list str :=
  filter (fun w => negb (str_eqb w [])) l.

(** [p.startsWith('▁')] and [p.slice(1)] *)
Definition startsWith_MARK (p : str) : bool :=
  match p with
  | c :: _ => c =? MARK
  | [] => false
  end.

Definition slice1 (p : str) : str := tl p.

(** ** JavaScript numbers and JSON values *)

(** Ids and counts are integers; the other numbers the code can meet are
    [NaN] (from [Number] of a malformed id) and [-Infinity] (from [Math.max]
    of nothing). *)
Inductive jsnum : Type :=
| Num (z : Z)
| NaN
| NegInf.

Definition jsnum_eqb (a b : jsnum) : bool :=
  match a, b with
  | Num x, Num y => x =? y
  | NaN, NaN => true
  | NegInf, NegInf => true
  | _, _ => false
  end.

(** What an entry of the [vocab] object, or an element of an id array, can
    hold. *)
Inductive jsval : Type :=
| JNum (n : jsnum)
| JStr (s : str)
| JBool (b : bool)
| JNull.

(** ** [Map]: insertion-ordered tables

    [set] on a present key replaces the value where it stands; on an absent
    key it appends.  Iteration follows the list. *)

Class EqKey (K : Type) : Type := {
  keqb : K -> K -> bool;
  keqb_eq : forall a b, keqb a b = true <-> a = b
}.

Module Map.
Section Defs.
Context {K V : Type} `{EqKey K}.

Definition t := list (K * V).

Fixpoint get (m : t) (k : K) : option V :=
  match m with
  | [] => None
  | (k', v) :: m' => if keqb k' k then Some v else get m' k
  end.

Definition has (m : t) (k : K) : bool :=
  match get m k with Some _ => true | None => false end.

Fixpoint set (m : t) (k : K) (v : V) : t :=
  match m with
  | [] => [(k, v)]
  | (k', v') :: m' =>
      if keqb k' k then (k', v) :: m' else (k', v') :: set m' k v
  end.

Definition keys (m : t) : list K := map fst m.

(** [new Map(entries)] *)
Definition of_entries (l : list (K * V)) : t :=
  fold_left (fun m e => set m (fst e) (snd e)) l [].
End Defs.
Arguments t : clear implicits.
End Map.

(** [Set]: insertion-ordered, without repetition. *)
Module JSet.
Section Defs.
Context {K : Type} `{EqKey K}.

Definition has (s : list K) (k : K) : bool := existsb (fun x => keqb x k) s.

Definition add (s : list K) (k : K) : list K :=
  if has s k then s else s ++ [k].

(** [new Set(iterable)] *)
Definition of_list (l : list K) : list K := fold_left add l [].
End Defs.
End JSet.

Lemma str_eqb_eq : forall a b : str, str_eqb a b = true <-> a = b.
Proof.
  induction a as [|x a IH]; destruct b as [|y b]; simpl; split;
    try discriminate; try reflexivity.
  - rewrite andb_true_iff, Z.eqb_eq, IH. intros [-> ->]. reflexivity.
  - intros E. injection E as -> ->. rewrite Z.eqb_refl. simpl.
    apply IH. reflexivity.
Qed.

Lemma jsnum_eqb_eq : forall a b : jsnum, jsnum_eqb a b = true <-> a = b.
Proof.
  intros [x| |] [y| |]; simpl; split; try discriminate; try reflexivity.
  - rewrite Z.eqb_eq. intros ->. reflexivity.
  - intros E. injection E as ->. apply Z.eqb_refl.
Qed.

#[export] Instance str_key : EqKey str :=
  {| keqb := str_eqb; keqb_eq := str_eqb_eq |}.

#[export] Instance jsnum_key : EqKey jsnum :=
  {| keqb := jsnum_eqb; keqb_eq := jsnum_eqb_eq |}.

(** ** Plain objects and the saved artifact *)

(** A property key that is a canonical array index ("0", "17", ... below
    2^32 - 1) is enumerated before every other key, in ascending order. *)
Definition digit (c : Z) : option Z :=
  if (48 <=? c) && (c <=? 57) then Some (c - 48) else None.

Fixpoint digits_value (acc : Z) (s : str) : option Z :=
  match s with
  | [] => Some acc
  | c :: s' =>
      match digit c with
      | Some d => digits_value (acc * 10 + d) s'
      | None => None
      end
  end.

Definition array_index (k : str) : option Z :=
  match k with
  | [] => None
  | c :: k' =>
      if (c =? 48) && negb (str_eqb k' []) then None
      else match digits_value 0 k with
           | Some v => if v <? 4294967295 then Some v else None
           | None => None
           end
  end.

Module Obj.
(** An object is its properties in creation order. *)
Definition t := Map.t str jsval.

Fixpoint insert_index (e : Z * (str * jsval)) (l : list (Z * (str * jsval)))
  : list (Z * (str * jsval)) :=
  match l with
  | [] => [e]
  | e' :: l' => if fst e <=? fst e' then e :: l else e' :: insert_index e l'
  end.

Definition sort_index (l : list (Z * (str * jsval))) : list (Z * (str * jsval)) :=
  fold_right insert_index [] l.

Fixpoint index_props (o : t) : list (Z * (str * jsval)) :=
  match o with
  | [] => []
  | (k, v) :: o' =>
      match array_index k with
      | Some i => (i, (k, v)) :: index_props o'
      | None => index_props o'
      end
  end.

Definition is_index (k : str) : bool :=
  match array_index k with Some _ => true | None => false end.

(** [Object.entries(o)] *)
Definition entries (o : t) : list (str * jsval) :=
  map snd (sort_index (index_props o))
  ++ filter (fun e => negb (is_index (fst e))) o.

(** [Object.fromEntries(iterable)] *)
Definition fromEntries (l : list (str * jsval)) : t := Map.of_entries l.
End Obj.

Record artifact : Type := {
  meta_lower : bool;
  meta_specialTokens : list str;
  vocab : Obj.t;
  art_merges : list (str * str)
}.

(** What [JSON.parse(JSON.stringify(v))] gives back for a value: the numbers
    that are not finite are written as [null]. *)
Definition json_value (v : jsval) : jsval :=
  match v with
  | JNum (Num z) => JNum (Num z)
  | JNum _ => JNull
  | _ => v
  end.

(** [JSON.parse(JSON.stringify(obj, null, 2))] on the saved structure, which
    is what reading back the written file amounts to. *)
Definition json_roundtrip (a : artifact) : artifact :=
  {| meta_lower := meta_lower a;
     meta_specialTokens := meta_specialTokens a;
     vocab := Obj.fromEntries
                (map (fun e => (fst e, json_value (snd e))) (Obj.entries (vocab a)));
     art_merges := art_merges a |}.

(** ** The tokenizer object *)

Record tokenizer : Type := {
  lower : bool;
  specialTokens : list str;
  tokenToId : Map.t str jsval;
  idToToken : Map.t jsnum str;
  merges : list (str * str);
  counts : Map.t str nat;
  nextId : jsnum
}.

Record options : Type := {
  opt_lower : bool;
  opt_specialTokens : list str;
  opt_merges : list (str * str);
  opt_vocab : Obj.t
}.

Definition PAD : str := js "<PAD>".
Definition UNK : str := js "<UNK>".
Definition BOS : str := js "<BOS>".
Definition EOS : str := js "<EOS>".
Definition SEP : str := js "<SEP>".

(** The constructor's defaults. *)
Definition default_options : options :=
  {| opt_lower := true;
     opt_specialTokens := [PAD; UNK; BOS; EOS; SEP];
     opt_merges := [];
     opt_vocab := [] |}.

(** [this.nextId++] in the loop that hands out the ids (line 162): [nextId]
    counts there the tokens that have an id, from the number of special
    tokens on, and the addition is exact on such counts. *)
Definition jsnum_succ (n : jsnum) : jsnum :=
  match n with
  | Num z => Num (z + 1)
  | _ => n
  end.

(** The double nearest to the integer [x], ties going to the even
    significand: what an addition of doubles returns when its exact result
    is [x].  Every integer up to 2^53 in absolute value is a double; beyond,
    only the multiples of the last place [2^e] are. *)
Definition round_double (x : Z) : Z :=
  let a := Z.abs x in
  if a <? 9007199254740992 then x
  else
    let e := Z.log2 a - 52 in
    let q := a / 2 ^ e in
    let r := a mod 2 ^ e in
    let half := 2 ^ (e - 1) in
    let q' := if r <? half then q
              else if half <? r then q + 1
              else if Z.even q then q else q + 1 in
    Z.sgn x * (q' * 2 ^ e).

(** [x + 1] on any number, as in [Math.max(...) + 1] (line 187), where the
    number comes from a file: an addition of doubles. *)
Definition jsnum_add1 (n : jsnum) : jsnum :=
  match n with
  | Num z => Num (round_double (z + 1))
  | _ => n
  end.

(** One turn of the loop of [_initSpecials]: the two tables and [idx]. *)
Definition init_step (acc : Map.t str jsval * Map.t jsnum str * Z) (st : str)
  : Map.t str jsval * Map.t jsnum str * Z :=
  let '(t2i, i2t, idx) := acc in
  (Map.set t2i st (JNum (Num idx)), Map.set i2t (Num idx) st, idx + 1).

(** [_initSpecials()] *)
Definition _initSpecials (T : tokenizer) : tokenizer :=
  let '(t2i, i2t, idx) := fold_left init_step (specialTokens T) ([], [], 0) in
  {| lower := lower T;
     specialTokens := specialTokens T;
     tokenToId := t2i;
     idToToken := i2t;
     merges := merges T;
     counts := counts T;
     nextId := Num idx |}.

(** [_wordToChars(word)] *)
Definition _wordToChars (word : str) : list str :=
  match Array_from word with
  | [] => []
  | c0 :: chars => (MARK :: c0) :: chars
  end.

(** [_piecesToWord(pieces)] *)
Definition _piecesToWord (pieces : list str) : str :=
  fold_left
    (fun s p => if startsWith_MARK p then s ++ slice1 p else s ++ p)
    pieces [].

(** ** Applying the merges to a word *)

Definition pair_key (a b : str) : str := a ++ SP :: b.

(** The table [mergeMap] built at the start of [_applyBPEToWord]. *)
Definition build_mergeMap (ms : list (str * str)) : Map.t str nat :=
  fst (fold_left
         (fun (acc : Map.t str nat * nat) ab =>
            (Map.set (fst acc) (pair_key (fst ab) (snd ab)) (snd acc), S (snd acc)))
         ms ([], 0%nat)).

(** [rank < bestRank], where no best yet stands for [Infinity]. *)
Definition better (rank : nat) (best : option (nat * nat)) : bool :=
  match best with
  | None => true
  | Some (_, bestRank) => (rank <? bestRank)%nat
  end.

(** The [for] loop over the adjacent pairs: [i] is the index of the head of
    [pieces], [best] holds [(bestPos, bestRank)] once a pair was found. *)
Fixpoint scan_pairs (mergeMap : Map.t str nat) (i : nat) (pieces : list str)
  (best : option (nat * nat)) : option (nat * nat) :=
  match pieces with
  | [] => best
  | p :: rest =>
      match rest with
      | [] => best
      | q :: _ =>
          let best' :=
            match Map.get mergeMap (pair_key p q) with
            | Some rank => if better rank best then Some (i, rank) else best
            | None => best
            end in
          scan_pairs mergeMap (S i) rest best'
      end
  end.

Definition find_best (mergeMap : Map.t str nat) (pieces : list str)
  : option (nat * nat) :=
  scan_pairs mergeMap 0 pieces None.

(** [pieces.splice(pos, 2, pieces[pos] + pieces[pos + 1])] *)
Fixpoint splice_merged (pos : nat) (pieces : list str) : list str :=
  match pos, pieces with
  | O, p :: q :: rest => (p ++ q) :: rest
  | S pos', p :: rest => p :: splice_merged pos' rest
  | _, _ => pieces
  end.

(** The [while (!done)] loop; [fuel] bounds the number of iterations. *)
Fixpoint bpe_loop (fuel : nat) (mergeMap : Map.t str nat) (pieces : list str)
  : list str :=
  match fuel with
  | O => pieces
  | S fuel' =>
      match find_best mergeMap pieces with
      | None => pieces
      | Some (bestPos, _) => bpe_loop fuel' mergeMap (splice_merged bestPos pieces)
      end
  end.

(** [_applyBPEToWord(word)], given [this.merges].  A merge shortens the
    piece list, so as many iterations as there are pieces reach the exit of
    the loop (lemma [bpe_loop_exits]). *)
Definition _applyBPEToWord (ms : list (str * str)) (word : str) : list str :=
  let pieces := _wordToChars word in
  match pieces with
  | [] => []
  | _ => bpe_loop (length pieces) (build_mergeMap ms) pieces
  end.

(** ** Training *)

Definition get0 (m : Map.t str nat) (k : str) : nat :=
  match Map.get m k with Some n => n | None => 0%nat end.

(** The pair-count loop over one word. *)
Fixpoint add_pairs (pieces : list str) (cnt : nat) (pairCounts : Map.t str nat)
  : Map.t str nat :=
  match pieces with
  | [] => pairCounts
  | p :: rest =>
      match rest with
      | [] => pairCounts
      | q :: _ =>
          let pair := pair_key p q in
          add_pairs rest cnt (Map.set pairCounts pair (get0 pairCounts pair + cnt)%nat)
      end
  end.

Definition build_pairCounts (minFrequency : nat) (cs : Map.t str nat)
  : Map.t str nat :=
  fold_left
    (fun pc e => if (snd e <? minFrequency)%nat then pc
                 else add_pairs (split_sp (fst e)) (snd e) pc)
    cs [].

(** The search for the highest count; [None] is [null]. *)
Definition find_bestPair (pairCounts : Map.t str nat) : option str * nat :=
  fold_left
    (fun (best : option str * nat) e =>
       if (snd best <? snd e)%nat then (Some (fst e), snd e) else best)
    pairCounts (None, 0%nat).

(** The inner [while] of the rewriting of one word. *)
Fixpoint merge_pair (a b : str) (pieces : list str) : list str :=
  match pieces with
  | [] => []
  | p :: rest =>
      match rest with
      | q :: rest' =>
          if str_eqb p a && str_eqb q b then (a ++ b) :: merge_pair a b rest'
          else p :: merge_pair a b rest
      | [] => [p]
      end
  end.

Definition apply_merge (a b : str) (cs : Map.t str nat) : Map.t str nat :=
  fold_left
    (fun nc e =>
       let nk := join_sp (merge_pair a b (split_sp (fst e))) in
       Map.set nc nk (get0 nc nk + snd e)%nat)
    cs [].

(** What one round of the training loop decides. *)
Inductive round : Type :=
| Break
| Merge (a b : str) (bestCount : nat) (newCounts : Map.t str nat).

(** One round of [for (let iter = 0; iter < mergeOps; iter++)].  A pair
    key always splits in two fields (lemma [pair_key_split]), so the last
    [Break] is never reached. *)
Definition train_round (minFrequency : nat) (cs : Map.t str nat) : round :=
  let pairCounts := build_pairCounts minFrequency cs in
  match pairCounts with
  | [] => Break
  | _ =>
      match find_bestPair pairCounts with
      | (None, _) => Break
      | (Some bestPair, bestCount) =>
          if str_eqb bestPair [] || (bestCount <? minFrequency)%nat then Break
          else match split_sp bestPair with
               | a :: b :: _ => Merge a b bestCount (apply_merge a b cs)
               | _ => Break
               end
      end
  end.

Fixpoint train_loop (mergeOps : nat) (minFrequency : nat)
  (cs : Map.t str nat) (ms : list (str * str))
  : Map.t str nat * list (str * str) :=
  match mergeOps with
  | O => (cs, ms)
  | S n =>
      match train_round minFrequency cs with
      | Break => (cs, ms)
      | Merge a b _ cs' => train_loop n minFrequency cs' (ms ++ [(a, b)])
      end
  end.

(** The final token set: the specials, then the pieces of the surviving
    words in the order they are met. *)
Definition collect_tokens (specials : list str) (cs : Map.t str nat) : list str :=
  fold_left
    (fun s k => fold_left JSet.add (split_sp k) s)
    (Map.keys cs) (JSet.of_list specials).

(** One turn of the loop that hands out the ids. *)
Definition assign_id (T : tokenizer) (tok : str) : tokenizer :=
  if Map.has (tokenToId T) tok then T
  else {| lower := lower T;
          specialTokens := specialTokens T;
          tokenToId := Map.set (tokenToId T) tok (JNum (nextId T));
          idToToken := Map.set (idToToken T) (nextId T) tok;
          merges := merges T;
          counts := counts T;
          nextId := jsnum_succ (nextId T) |}.

Section Host.

(** [l.normalize('NFC').toLowerCase()]: the engine's Unicode tables. *)
Variable normalizeLower : str -> str.

(** [Number(s)] on a string: the engine's numeric-literal grammar. *)
Variable StringToNumber : str -> jsnum.

(** [Number(v)]; [None] is [undefined]. *)
Definition ToNumber (v : option jsval) : jsnum :=
  match v with
  | None => NaN
  | Some (JNum n) => n
  | Some (JStr s) => StringToNumber s
  | Some (JBool true) => Num 1
  | Some (JBool false) => Num 0
  | Some JNull => Num 0
  end.

(** [new BPE_Tokenizer(opts)] *)
Definition new_BPE_Tokenizer (opts : options) : tokenizer :=
  let T0 := _initSpecials
              {| lower := opt_lower opts;
                 specialTokens := opt_specialTokens opts;
                 tokenToId := [];
                 idToToken := [];
                 merges := opt_merges opts;
                 counts := [];
                 nextId := Num 0 |} in
  fold_left
    (fun T e =>
       let n := ToNumber (Some (snd e)) in
       match n with
       | NaN => T
       | _ => {| lower := lower T;
                 specialTokens := specialTokens T;
                 tokenToId := Map.set (tokenToId T) (fst e) (JNum n);
                 idToToken := Map.set (idToToken T) n (fst e);
                 merges := merges T;
                 counts := counts T;
                 nextId := nextId T |}
       end)
    (Obj.entries (opt_vocab opts)) T0.

(** The word counts of the corpus. *)
Definition count_words (lower_ : bool) (text : str) : Map.t str nat :=
  fold_left
    (fun cs l =>
       let line := if lower_ then normalizeLower l else l in
       fold_left
         (fun cs w =>
            let key := join_sp (_wordToChars w) in
            Map.set cs key (get0 cs key + 1)%nat)
         (filter_Boolean (split_ws line)) cs)
    (split_lines text) [].

(** [trainFromText(text, {minFrequency, mergeOps})]; the two settings are
    whole numbers. *)
Definition trainFromText (T : tokenizer) (text : str)
  (minFrequency mergeOps : nat) : tokenizer :=
  let cs0 := count_words (lower T) text in
  let '(cs, ms) := train_loop mergeOps minFrequency cs0 [] in
  let tokenSet := collect_tokens (specialTokens T) cs in
  let T1 := _initSpecials
              {| lower := lower T;
                 specialTokens := specialTokens T;
                 tokenToId := tokenToId T;
                 idToToken := idToToken T;
                 merges := ms;
                 counts := cs;
                 nextId := nextId T |} in
  fold_left assign_id tokenSet T1.

(** The object that [save(path)] hands to [JSON.stringify]. *)
Definition save (T : tokenizer) : artifact :=
  {| meta_lower := lower T;
     meta_specialTokens := specialTokens T;
     vocab := Obj.fromEntries (tokenToId T);
     art_merges := merges T |}.

Definition jsnum_max (a b : jsnum) : jsnum :=
  match a, b with
  | NaN, _ | _, NaN => NaN
  | NegInf, x | x, NegInf => x
  | Num x, Num y => Num (Z.max x y)
  end.

(** [Math.max(...l)] *)
Definition Math_max (l : list jsnum) : jsnum := fold_left jsnum_max l NegInf.

(** [load(path)], from the object [obj] that [JSON.parse] returns. *)
Definition load (T : tokenizer) (obj : artifact) : tokenizer :=
  let T1 := _initSpecials
              {| lower := meta_lower obj;
                 specialTokens := meta_specialTokens obj;
                 tokenToId := tokenToId T;
                 idToToken := idToToken T;
                 merges := merges T;
                 counts := counts T;
                 nextId := nextId T |} in
  let t2i : Map.t str jsval := Map.of_entries (Obj.entries (vocab obj)) in
  let i2t : Map.t jsnum str :=
    Map.of_entries (map (fun e => (ToNumber (Some (snd e)), fst e)) t2i) in
  {| lower := lower T1;
     specialTokens := specialTokens T1;
     tokenToId := t2i;
     idToToken := i2t;
     merges := art_merges obj;
     counts := counts T1;
     nextId := jsnum_add1 (Math_max (Map.keys i2t)) |}.

(** [tokenize(text)] *)
Definition tokenize (T : tokenizer) (text : str) : list str :=
  let src := if lower T then normalizeLower text else text in
  fold_left
    (fun out w =>
       if is_ws_run w then out ++ [w]
       else if (length w =? 0)%nat then out
       else out ++ _applyBPEToWord (merges T) w)
    (split_ws_keep src) [].

Fixpoint uint_str (u : Decimal.uint) : str :=
  match u with
  | Decimal.Nil => []
  | Decimal.D0 u' => 48 :: uint_str u'
  | Decimal.D1 u' => 49 :: uint_str u'
  | Decimal.D2 u' => 50 :: uint_str u'
  | Decimal.D3 u' => 51 :: uint_str u'
  | Decimal.D4 u' => 52 :: uint_str u'
  | Decimal.D5 u' => 53 :: uint_str u'
  | Decimal.D6 u' => 54 :: uint_str u'
  | Decimal.D7 u' => 55 :: uint_str u'
  | Decimal.D8 u' => 56 :: uint_str u'
  | Decimal.D9 u' => 57 :: uint_str u'
  end.

(** ['<SPACE>' + p.length] *)
Definition space_key (p : str) : str :=
  js "<SPACE>" ++ uint_str (Nat.to_uint (length p)).

(** [x ?? y]; [None] is [undefined]. *)
Definition nullish (x y : option jsval) : option jsval :=
  match x with
  | None | Some JNull => y
  | _ => x
  end.

(** The body of the [for (const p of pieces)] loop of [encode]. *)
Definition encode_piece (T : tokenizer) (keepSpaces : bool)
  (ids : list (option jsval)) (p : str) : list (option jsval) :=
  if is_ws_run p then
    if keepSpaces then
      ids ++ [nullish (Map.get (tokenToId T) (space_key p))
                      (Map.get (tokenToId T) UNK)]
    else ids
  else ids ++ [nullish (Map.get (tokenToId T) p) (Map.get (tokenToId T) UNK)].

(** [encode(text, {addBosEos, keepSpaces})]; an element [None] of the result
    is [undefined]. *)
Definition encode (T : tokenizer) (text : str) (addBosEos keepSpaces : bool)
  : list (option jsval) :=
  let pieces := tokenize T text in
  let ids := if addBosEos then [Map.get (tokenToId T) BOS] else [] in
  let ids := fold_left (encode_piece T keepSpaces) pieces ids in
  if addBosEos then ids ++ [Map.get (tokenToId T) EOS] else ids.

(** [this.specialTokens.includes(tok)] *)
Definition includes (l : list str) (tok : str) : bool :=
  existsb (fun x => str_eqb x tok) l.

(** [decode(ids, {skipSpecials})] *)
Definition decode (T : tokenizer) (ids : list (option jsval)) (skipSpecials : bool)
  : str :=
  let parts :=
    fold_left
      (fun parts idRaw =>
         let id := ToNumber idRaw in
         let tok := match Map.get (idToToken T) id with
                    | Some t => t
                    | None => UNK
                    end in
         if skipSpecials && includes (specialTokens T) tok then parts
         else parts ++ [tok])
      ids [] in
  fold_left
    (fun out p => if startsWith_MARK p then out ++ slice1 p else out ++ p)
    parts [].

End Host.

(** ** Sample runs *)

(** Lower-casing of the letters A-Z, which is what
    [normalize('NFC').toLowerCase()] does on ASCII text. *)
Definition ascii_lower (s : str) : str :=
  map (fun c => if (65 <=? c) && (c <=? 90) then c + 32 else c) s.

(** [Number(s)] on the strings made of decimal digits; other strings are
    taken as not numeric. *)
Definition decimal_StringToNumber (s : str) : jsnum :=
  match s with
  | [] => Num 0
  | _ => match digits_value 0 s with
         | Some v => Num v
         | None => NaN
         end
  end.

Definition fresh : tokenizer := new_BPE_Tokenizer decimal_StringToNumber default_options.

Definition low_corpus : str := js "low low low lower lowest".
Definition low_tok : tokenizer := trainFromText ascii_lower fresh low_corpus 2 5.

(** * Properties *)

(** ** Generic facts on tables *)

Section MapFacts.
Context {K V : Type} `{EqKey K}.

Lemma keqb_refl : forall k : K, keqb k k = true.
Proof. intros k. apply keqb_eq. reflexivity. Qed.

Lemma keqb_neq : forall a b : K, a <> b -> keqb a b = false.
Proof.
  intros a b N. destruct (keqb a b) eqn:E; [|reflexivity].
  apply keqb_eq in E. contradiction.
Qed.

Lemma keqb_false_neq : forall a b : K, keqb a b = false -> a <> b.
Proof.
  intros a b E ->. rewrite keqb_refl in E. discriminate.
Qed.

Lemma key_dec : forall a b : K, {a = b} + {a <> b}.
Proof.
  intros a b. destruct (keqb a b) eqn:E.
  - left. apply keqb_eq. exact E.
  - right. apply keqb_false_neq. exact E.
Qed.

Lemma get_set_same : forall (m : Map.t K V) k v, Map.get (Map.set m k v) k = Some v.
Proof.
  induction m as [|[k' v'] m IH]; intros k v; simpl.
  - rewrite keqb_refl. reflexivity.
  - destruct (keqb k' k) eqn:E; simpl; rewrite E; [reflexivity | apply IH].
Qed.

Lemma get_set_other : forall (m : Map.t K V) k k' v,
  k <> k' -> Map.get (Map.set m k v) k' = Map.get m k'.
Proof.
  induction m as [|[k0 v0] m IH]; intros k k' v N; simpl.
  - rewrite (keqb_neq _ _ N). reflexivity.
  - destruct (keqb k0 k) eqn:E; simpl.
    + apply keqb_eq in E. subst k0. rewrite (keqb_neq _ _ N). reflexivity.
    + destruct (keqb k0 k'); [reflexivity | apply IH; exact N].
Qed.

Lemma get_set : forall (m : Map.t K V) k k' v,
  Map.get (Map.set m k v) k' = if keqb k k' then Some v else Map.get m k'.
Proof.
  intros m k k' v. destruct (keqb k k') eqn:E.
  - apply keqb_eq in E. subst k'. apply get_set_same.
  - apply get_set_other. apply keqb_false_neq. exact E.
Qed.

Lemma get_none_not_in : forall (m : Map.t K V) k,
  Map.get m k = None <-> ~ In k (Map.keys m).
Proof.
  induction m as [|[k' v'] m IH]; intros k; simpl.
  - split; [intros _ [] | reflexivity].
  - destruct (keqb k' k) eqn:E.
    + apply keqb_eq in E. subst k'. split; [discriminate | intros N; elim N; left; reflexivity].
    + rewrite IH. apply keqb_false_neq in E. split.
      * intros N [F|F]; [apply E; exact F | apply N; exact F].
      * intros N F. apply N. right. exact F.
Qed.

Lemma get_some_in : forall (m : Map.t K V) k v,
  Map.get m k = Some v -> In (k, v) m.
Proof.
  induction m as [|[k' v'] m IH]; intros k v; simpl; [discriminate|].
  destruct (keqb k' k) eqn:E.
  - apply keqb_eq in E. subst k'. intros G. injection G as ->. left. reflexivity.
  - intros G. right. apply IH. exact G.
Qed.

Lemma in_get_some : forall (m : Map.t K V) k v,
  NoDup (Map.keys m) -> In (k, v) m -> Map.get m k = Some v.
Proof.
  induction m as [|[k' v'] m IH]; intros k v ND I; simpl in *; [contradiction|].
  inversion ND as [|? ? NI ND']; subst.
  destruct I as [E|I].
  - injection E as -> ->. rewrite keqb_refl. reflexivity.
  - destruct (keqb k' k) eqn:E.
    + apply keqb_eq in E. subst k'. elim NI.
      change k with (fst (k, v)). apply in_map. exact I.
    + apply IH; assumption.
Qed.

Lemma keys_set : forall (m : Map.t K V) k v,
  Map.keys (Map.set m k v) =
  if Map.has m k then Map.keys m else Map.keys m ++ [k].
Proof.
  unfold Map.has.
  induction m as [|[k' v'] m IH]; intros k v; simpl; [reflexivity|].
  destruct (keqb k' k) eqn:E; simpl; [reflexivity|].
  rewrite IH. destruct (Map.get m k); reflexivity.
Qed.

Lemma has_true_in : forall (m : Map.t K V) k,
  Map.has m k = true <-> In k (Map.keys m).
Proof.
  intros m k. unfold Map.has.
  destruct (Map.get m k) eqn:G.
  - split; [intros _ | reflexivity].
    apply get_some_in in G. change k with (fst (k, v)). apply in_map. exact G.
  - split; [discriminate|]. intros I. apply get_none_not_in in G. contradiction.
Qed.

Lemma NoDup_keys_set : forall (m : Map.t K V) k v,
  NoDup (Map.keys m) -> NoDup (Map.keys (Map.set m k v)).
Proof.
  intros m k v ND. rewrite keys_set.
  destruct (Map.has m k) eqn:E; [exact ND|].
  apply NoDup_app; [exact ND | repeat constructor; intros [] | ].
  intros x I [<-|[]]. apply has_true_in in I. congruence.
Qed.

Lemma NoDup_keys_of_entries_from : forall (l : list (K * V)) (m : Map.t K V),
  NoDup (Map.keys m) ->
  NoDup (Map.keys (fold_left (fun m e => Map.set m (fst e) (snd e)) l m)).
Proof.
  induction l as [|e l IH]; intros m ND; simpl; [exact ND|].
  apply IH. apply NoDup_keys_set. exact ND.
Qed.

Lemma NoDup_keys_of_entries : forall l : list (K * V),
  NoDup (Map.keys (Map.of_entries l)).
Proof.
  intros l. apply NoDup_keys_of_entries_from. constructor.
Qed.

(** A table filled from entries with distinct keys is the list itself. *)
Lemma of_entries_from_nodup : forall (l : list (K * V)) (m : Map.t K V),
  NoDup (Map.keys m ++ map fst l) ->
  fold_left (fun m e => Map.set m (fst e) (snd e)) l m = m ++ l.
Proof.
  induction l as [|[k v] l IH]; intros m ND; simpl.
  - rewrite app_nil_r. reflexivity.
  - assert (S1 : Map.set m k v = m ++ [(k, v)]).
    { simpl in ND. apply NoDup_remove_2 in ND.
      assert (NI : ~ In k (Map.keys m)) by (intros I; apply ND; apply in_or_app; left; exact I).
      clear - NI. induction m as [|[k' v'] m IHm]; simpl; [reflexivity|].
      simpl in NI. destruct (keqb k' k) eqn:E.
      - apply keqb_eq in E. elim NI. left. exact E.
      - f_equal. apply IHm. intros I. apply NI. right. exact I. }
    rewrite S1, IH.
    + rewrite <- app_assoc. reflexivity.
    + unfold Map.keys in *. rewrite map_app. simpl. rewrite <- app_assoc. exact ND.
Qed.

Lemma of_entries_nodup : forall l : list (K * V),
  NoDup (map fst l) -> Map.of_entries l = l.
Proof.
  intros l ND. unfold Map.of_entries.
  rewrite of_entries_from_nodup; [reflexivity | exact ND].
Qed.

End MapFacts.

(** ** Code points and pieces *)

(** Induction along the recursion of [Array_from]. *)
Lemma Array_from_ind (P : str -> Prop) :
  P [] ->
  (forall c, P [c]) ->
  (forall c d s, is_high_surrogate c && is_low_surrogate d = true ->
                 P s -> P (c :: d :: s)) ->
  (forall c d s, is_high_surrogate c && is_low_surrogate d = false ->
                 P (d :: s) -> P (c :: d :: s)) ->
  forall s, P s.
Proof.
  intros H0 H1 H2 H3.
  assert (A : forall n s, (length s <= n)%nat -> P s).
  { induction n as [|n IH]; intros s L.
    - destruct s; [exact H0 | simpl in L; lia].
    - destruct s as [|c [|d s]]; [exact H0 | apply H1 |].
      destruct (is_high_surrogate c && is_low_surrogate d) eqn:E.
      + apply H2; [exact E | apply IH; simpl in *; lia].
      + apply H3; [exact E | apply IH; simpl in *; lia]. }
  intros s. apply (A (length s)). lia.
Qed.

Lemma Array_from_pair : forall c d s,
  is_high_surrogate c && is_low_surrogate d = true ->
  Array_from (c :: d :: s) = [c; d] :: Array_from s.
Proof. intros c d s E. simpl. rewrite E. reflexivity. Qed.

Lemma Array_from_single : forall c d s,
  is_high_surrogate c && is_low_surrogate d = false ->
  Array_from (c :: d :: s) = [c] :: Array_from (d :: s).
Proof. intros c d s E. cbn [Array_from]. rewrite E. reflexivity. Qed.

Lemma concat_Array_from : forall s, concat (Array_from s) = s.
Proof.
  induction s as [| c | c d s E IH | c d s E IH] using Array_from_ind.
  - reflexivity.
  - reflexivity.
  - rewrite Array_from_pair by exact E. simpl. rewrite IH. reflexivity.
  - rewrite Array_from_single by exact E. cbn [concat]. rewrite IH. reflexivity.
Qed.

(** A code point is one code unit, or a high surrogate and a low one. *)
Definition code_point (p : str) : Prop :=
  (exists c, p = [c]) \/
  (exists c d, p = [c; d] /\ is_high_surrogate c = true /\ is_low_surrogate d = true).

Lemma Array_from_code_points : forall s, Forall code_point (Array_from s).
Proof.
  induction s as [| c | c d s E IH | c d s E IH] using Array_from_ind.
  - constructor.
  - constructor; [|constructor]. left. exists c. reflexivity.
  - rewrite Array_from_pair by exact E. constructor; [|exact IH].
    right. exists c, d. apply andb_true_iff in E. tauto.
  - rewrite Array_from_single by exact E. constructor; [|exact IH].
    left. exists c. reflexivity.
Qed.

Lemma Array_from_nil : forall s, Array_from s = [] -> s = [].
Proof.
  intros s E. rewrite <- (concat_Array_from s), E. reflexivity.
Qed.

Lemma Array_from_length : forall s, (length (Array_from s) <= length s)%nat.
Proof.
  induction s as [| c | c d s E IH | c d s E IH] using Array_from_ind.
  - simpl. lia.
  - simpl. lia.
  - rewrite Array_from_pair by exact E. simpl. lia.
  - rewrite Array_from_single by exact E. cbn [length] in *. lia.
Qed.

Lemma wordToChars_length : forall w,
  length (_wordToChars w) = length (Array_from w).
Proof.
  intros w. unfold _wordToChars. destruct (Array_from w); reflexivity.
Qed.

Lemma concat_wordToChars : forall w,
  w <> [] -> concat (_wordToChars w) = MARK :: w.
Proof.
  intros w N. unfold _wordToChars.
  destruct (Array_from w) as [|c0 chars] eqn:E.
  - elim N. apply Array_from_nil. exact E.
  - simpl. f_equal. rewrite <- (concat_Array_from w), E. reflexivity.
Qed.

(** ** The scan for the best pair *)

(** The rank the table gives to the pair standing at position [j]. *)
Definition rank_at (mergeMap : Map.t str nat) (pieces : list str) (j : nat)
  : option nat :=
  match nth_error pieces j, nth_error pieces (S j) with
  | Some p, Some q => Map.get mergeMap (pair_key p q)
  | _, _ => None
  end.

(** [best] is the choice among the positions below [n]: lowest rank first,
    leftmost among equal ranks. *)
Definition best_below (mergeMap : Map.t str nat) (pieces : list str) (n : nat)
  (best : option (nat * nat)) : Prop :=
  match best with
  | None => forall j, (j < n)%nat -> rank_at mergeMap pieces j = None
  | Some (pos, r) =>
      (pos < n)%nat /\ rank_at mergeMap pieces pos = Some r /\
      forall j r', (j < n)%nat -> rank_at mergeMap pieces j = Some r' ->
                   (r < r')%nat \/ (r = r' /\ (pos <= j)%nat)
  end.

Definition best_of (mergeMap : Map.t str nat) (pieces : list str)
  (best : option (nat * nat)) : Prop :=
  match best with
  | None => forall j, rank_at mergeMap pieces j = None
  | Some (pos, r) =>
      rank_at mergeMap pieces pos = Some r /\
      forall j r', rank_at mergeMap pieces j = Some r' ->
                   (r < r')%nat \/ (r = r' /\ (pos <= j)%nat)
  end.

Lemma rank_at_beyond : forall mm pieces j,
  (length pieces <= S j)%nat -> rank_at mm pieces j = None.
Proof.
  intros mm pieces j L. unfold rank_at.
  destruct (nth_error pieces j); [|reflexivity].
  assert (E : nth_error pieces (S j) = None) by (apply nth_error_None; exact L).
  rewrite E. reflexivity.
Qed.

Lemma rank_at_here : forall mm pre p q rest,
  rank_at mm (pre ++ p :: q :: rest) (length pre) = Map.get mm (pair_key p q).
Proof.
  intros mm pre p q rest. induction pre as [|x pre IH]; [reflexivity|].
  exact IH.
Qed.

Lemma best_below_all : forall mm pieces n best,
  (length pieces <= S n)%nat ->
  best_below mm pieces n best -> best_of mm pieces best.
Proof.
  intros mm pieces n [[pos r]|] L B; simpl in *.
  - destruct B as (_ & R & M). split; [exact R|].
    intros j r' Rj. destruct (Nat.lt_ge_cases j n) as [Lt|Ge].
    + apply (M j r' Lt Rj).
    + rewrite rank_at_beyond in Rj by lia. discriminate.
  - intros j. destruct (Nat.lt_ge_cases j n) as [Lt|Ge].
    + apply B. exact Lt.
    + apply rank_at_beyond. lia.
Qed.

Lemma scan_pairs_below : forall mm pieces pre best,
  best_below mm (pre ++ pieces) (length pre) best ->
  best_of mm (pre ++ pieces) (scan_pairs mm (length pre) pieces best).
Proof.
  intros mm. induction pieces as [|p rest IH]; intros pre best B.
  - simpl. apply best_below_all with (n := length pre); [|exact B].
    rewrite app_nil_r. lia.
  - destruct rest as [|q rest'].
    + simpl. apply best_below_all with (n := length pre); [|exact B].
      rewrite length_app. simpl. lia.
    + cbn [scan_pairs].
      set (best' := match Map.get mm (pair_key p q) with
                    | Some rank => if better rank best then Some (length pre, rank) else best
                    | None => best
                    end).
      pose proof (rank_at_here mm pre p q rest') as R0.
      assert (B' : best_below mm (pre ++ p :: q :: rest') (S (length pre)) best').
      { subst best'. destruct (Map.get mm (pair_key p q)) as [rank|] eqn:G.
        - destruct best as [[pos r]|]; simpl in *.
          + destruct B as (Lp & Rp & M).
            destruct (rank <? r)%nat eqn:C.
            * apply Nat.ltb_lt in C. split; [lia|]. split; [exact R0|].
              intros j r' Lj Rj.
              destruct (Nat.eq_dec j (length pre)) as [->|Nj].
              { rewrite R0 in Rj. injection Rj as <-. right. split; lia. }
              { destruct (M j r' ltac:(lia) Rj) as [Lt|[-> _]]; left; lia. }
            * apply Nat.ltb_ge in C. split; [lia|]. split; [exact Rp|].
              intros j r' Lj Rj.
              destruct (Nat.eq_dec j (length pre)) as [->|Nj].
              { rewrite R0 in Rj. injection Rj as <-.
                destruct (Nat.eq_dec r rank) as [->|Nr]; [right; split; lia | left; lia]. }
              { apply M; [lia | exact Rj]. }
          + split; [lia|]. split; [exact R0|].
            intros j r' Lj Rj.
            destruct (Nat.eq_dec j (length pre)) as [->|Nj].
            * rewrite R0 in Rj. injection Rj as <-. right. split; lia.
            * rewrite B in Rj by lia. discriminate.
        - destruct best as [[pos r]|]; simpl in *.
          + destruct B as (Lp & Rp & M). split; [lia|]. split; [exact Rp|].
            intros j r' Lj Rj.
            destruct (Nat.eq_dec j (length pre)) as [->|Nj].
            * rewrite R0 in Rj. discriminate.
            * apply M; [lia | exact Rj].
          + intros j Lj.
            destruct (Nat.eq_dec j (length pre)) as [->|Nj]; [exact R0|].
            apply B. lia. }
      specialize (IH (pre ++ [p]) best').
      rewrite <- app_assoc in IH. simpl in IH.
      rewrite length_app in IH. simpl in IH.
      rewrite Nat.add_1_r in IH. apply IH. exact B'.
Qed.

Lemma find_best_spec : forall mm pieces,
  best_of mm pieces (find_best mm pieces).
Proof.
  intros mm pieces. unfold find_best.
  apply (scan_pairs_below mm pieces []). simpl.
  intros j Lj. lia.
Qed.

(** ** The ranks in [mergeMap] *)

(** The position of the last rule of the table whose key is [k]. *)
Fixpoint last_index (k : str) (ms : list (str * str)) : option nat :=
  match ms with
  | [] => None
  | (a, b) :: ms' =>
      match last_index k ms' with
      | Some r => Some (S r)
      | None => if str_eqb (pair_key a b) k then Some 0%nat else None
      end
  end.

(** [r] is the rank the table gives to key [k]: a rule with that key stands
    at [r], and none stands after it. *)
Definition key_rank (ms : list (str * str)) (k : str) (r : nat) : Prop :=
  (exists a b, nth_error ms r = Some (a, b) /\ pair_key a b = k) /\
  forall r' a b, nth_error ms r' = Some (a, b) -> pair_key a b = k -> (r' <= r)%nat.

Lemma mergeMap_fold_get : forall ms (m : Map.t str nat) n k,
  Map.get
    (fst (fold_left
            (fun (acc : Map.t str nat * nat) ab =>
               (Map.set (fst acc) (pair_key (fst ab) (snd ab)) (snd acc), S (snd acc)))
            ms (m, n))) k
  = match last_index k ms with
    | Some r => Some (n + r)%nat
    | None => Map.get m k
    end.
Proof.
  induction ms as [|[a b] ms IH]; intros m n k; simpl; [reflexivity|].
  rewrite IH. destruct (last_index k ms) as [r|].
  - f_equal. lia.
  - rewrite get_set. simpl.
    destruct (str_eqb (pair_key a b) k); [f_equal; lia | reflexivity].
Qed.

Lemma build_mergeMap_get : forall ms k,
  Map.get (build_mergeMap ms) k = last_index k ms.
Proof.
  intros ms k. unfold build_mergeMap. rewrite mergeMap_fold_get.
  destruct (last_index k ms); reflexivity.
Qed.

Lemma last_index_sound : forall k ms,
  (forall r, last_index k ms = Some r -> key_rank ms k r) /\
  (last_index k ms = None ->
   forall r a b, nth_error ms r = Some (a, b) -> pair_key a b <> k).
Proof.
  intros k. induction ms as [|[a b] ms [IHs IHn]]; simpl.
  - split; [discriminate|]. intros _ [|r] a b E; discriminate.
  - destruct (last_index k ms) as [r0|].
    + split; [|discriminate]. intros r E. injection E as <-.
      destruct (IHs r0 eq_refl) as [(a' & b' & E1 & E2) M].
      split; [exists a', b'; split; assumption|].
      intros [|r'] a'' b'' E3 E4; [lia|].
      simpl in E3. specialize (M r' a'' b'' E3 E4). lia.
    + destruct (str_eqb (pair_key a b) k) eqn:Ek.
      * split; [|discriminate]. intros r E. injection E as <-.
        apply str_eqb_eq in Ek.
        split; [exists a, b; split; [reflexivity | exact Ek]|].
        intros [|r'] a'' b'' E3 E4; [lia|].
        simpl in E3. elim (IHn eq_refl r' a'' b'' E3 E4).
      * split; [discriminate|]. intros _ [|r] a' b' E; simpl in E.
        -- injection E as <- <-. intros F. apply str_eqb_eq in F. congruence.
        -- apply (IHn eq_refl r a' b' E).
Qed.

Lemma last_index_key_rank : forall k ms r,
  last_index k ms = Some r <-> key_rank ms k r.
Proof.
  intros k ms r. destruct (last_index_sound k ms) as [S1 S2]. split.
  - apply S1.
  - intros [(a & b & E1 & E2) M].
    destruct (last_index k ms) as [r0|] eqn:E.
    + destruct (S1 r0 eq_refl) as [(a0 & b0 & E3 & E4) M0].
      f_equal. apply Nat.le_antisymm.
      * apply (M r0 a0 b0 E3 E4).
      * apply (M0 r a b E1 E2).
    + elim (S2 eq_refl r a b E1 E2).
Qed.

(** ** One merge *)

(** [pieces'] is [pieces] with the two pieces at [pos] and [pos + 1] replaced
    by their concatenation, and nothing else changed. *)
Definition merged_at (pieces : list str) (pos : nat) (pieces' : list str) : Prop :=
  exists pre p q post,
    pieces = pre ++ p :: q :: post /\ length pre = pos /\
    pieces' = pre ++ (p ++ q) :: post.

Lemma splice_merged_app : forall pre p q post,
  splice_merged (length pre) (pre ++ p :: q :: post) = pre ++ (p ++ q) :: post.
Proof.
  induction pre as [|x pre IH]; intros p q post; simpl; [reflexivity|].
  rewrite IH. reflexivity.
Qed.

Lemma rank_at_split : forall mm pieces pos r,
  rank_at mm pieces pos = Some r ->
  exists pre p q post,
    pieces = pre ++ p :: q :: post /\ length pre = pos /\
    Map.get mm (pair_key p q) = Some r.
Proof.
  intros mm pieces pos r. unfold rank_at.
  destruct (nth_error pieces pos) as [p|] eqn:E1; [|discriminate].
  destruct (nth_error pieces (S pos)) as [q|] eqn:E2; [|discriminate].
  intros G. apply nth_error_split in E1. destruct E1 as (pre & l2 & -> & L).
  subst pos. exists pre, p.
  assert (E3 : nth_error (pre ++ p :: l2) (S (length pre)) = nth_error l2 0).
  { clear. induction pre as [|x pre IH]; [reflexivity | exact IH]. }
  rewrite E3 in E2. destruct l2 as [|q' post]; [discriminate|].
  injection E2 as ->. exists q, post. auto.
Qed.

Lemma rank_at_merged : forall mm pieces pos r,
  rank_at mm pieces pos = Some r ->
  merged_at pieces pos (splice_merged pos pieces).
Proof.
  intros mm pieces pos r R.
  destruct (rank_at_split _ _ _ _ R) as (pre & p & q & post & -> & <- & _).
  exists pre, p, q, post. rewrite splice_merged_app. auto.
Qed.

Lemma merged_at_length : forall pieces pos pieces',
  merged_at pieces pos pieces' -> S (length pieces') = length pieces.
Proof.
  intros pieces pos pieces' (pre & p & q & post & -> & _ & ->).
  rewrite !length_app. simpl. lia.
Qed.

Lemma merged_at_two : forall pieces pos pieces',
  merged_at pieces pos pieces' -> (2 <= length pieces)%nat.
Proof.
  intros pieces pos pieces' (pre & p & q & post & -> & _ & _).
  rewrite length_app. simpl. lia.
Qed.

Lemma merged_at_concat : forall pieces pos pieces',
  merged_at pieces pos pieces' -> concat pieces' = concat pieces.
Proof.
  intros pieces pos pieces' (pre & p & q & post & -> & _ & ->).
  rewrite !concat_app. simpl. rewrite <- app_assoc. reflexivity.
Qed.

(** ** The [while] loop of [_applyBPEToWord] *)

(** The loop as the code runs it, without a bound: it leaves when the scan
    finds nothing, and otherwise splices and goes round again.  The number is
    the count of merges done. *)
Inductive while_loop (mergeMap : Map.t str nat)
  : list str -> nat -> list str -> Prop :=
| while_exit : forall pieces,
    find_best mergeMap pieces = None ->
    while_loop mergeMap pieces 0 pieces
| while_iter : forall pieces bestPos bestRank n out,
    find_best mergeMap pieces = Some (bestPos, bestRank) ->
    while_loop mergeMap (splice_merged bestPos pieces) n out ->
    while_loop mergeMap pieces (S n) out.

Lemma find_best_merged : forall mm pieces pos r,
  find_best mm pieces = Some (pos, r) ->
  merged_at pieces pos (splice_merged pos pieces).
Proof.
  intros mm pieces pos r F.
  pose proof (find_best_spec mm pieces) as B. rewrite F in B.
  destruct B as [R _]. apply (rank_at_merged _ _ _ _ R).
Qed.

Lemma bpe_loop_while : forall mm fuel pieces,
  (length pieces <= fuel)%nat ->
  exists n, while_loop mm pieces n (bpe_loop fuel mm pieces) /\
            (n <= length pieces - 1)%nat.
Proof.
  intros mm. induction fuel as [|fuel IH]; intros pieces L.
  - destruct pieces; [|simpl in L; lia].
    exists 0%nat. split; [apply while_exit; reflexivity | simpl; lia].
  - simpl. destruct (find_best mm pieces) as [[pos r]|] eqn:F.
    + pose proof (find_best_merged _ _ _ _ F) as M.
      pose proof (merged_at_two _ _ _ M) as M2.
      apply merged_at_length in M.
      destruct (IH (splice_merged pos pieces) ltac:(lia)) as (n & W & Ln).
      exists (S n). split; [eapply while_iter; eassumption | lia].
    + exists 0%nat. split; [apply while_exit; exact F | lia].
Qed.

Lemma while_loop_final : forall mm pieces n out,
  while_loop mm pieces n out -> find_best mm out = None.
Proof.
  intros mm pieces n out W. induction W; assumption.
Qed.

Lemma while_loop_functional : forall mm pieces n out,
  while_loop mm pieces n out ->
  forall n' out', while_loop mm pieces n' out' -> n = n' /\ out = out'.
Proof.
  intros mm pieces n out W. induction W as [pieces F | pieces pos r n out F W IH];
    intros n' out' W'; inversion W' as [ps F' | ps pos' r' m o F' W'']; subst;
    try congruence.
  - split; reflexivity.
  - rewrite F in F'. injection F' as <- <-.
    destruct (IH _ _ W'') as [-> ->]. split; reflexivity.
Qed.

(** As many rounds as there are pieces reach the exit of the loop, and more
    rounds change nothing. *)
Lemma bpe_loop_exits : forall mm fuel pieces,
  (length pieces <= fuel)%nat ->
  find_best mm (bpe_loop fuel mm pieces) = None /\
  bpe_loop fuel mm pieces = bpe_loop (length pieces) mm pieces.
Proof.
  intros mm fuel pieces L.
  destruct (bpe_loop_while mm _ _ L) as (n & W & _).
  destruct (bpe_loop_while mm _ _ (Nat.le_refl (length pieces))) as (n' & W' & _).
  split; [eapply while_loop_final; eassumption|].
  apply (while_loop_functional _ _ _ _ W _ _ W').
Qed.

Lemma applyBPE_while : forall ms word,
  exists n,
    while_loop (build_mergeMap ms) (_wordToChars word) n (_applyBPEToWord ms word) /\
    (n <= length (_wordToChars word) - 1)%nat.
Proof.
  intros ms word. unfold _applyBPEToWord.
  destruct (_wordToChars word) as [|p ps] eqn:E.
  - exists 0%nat. split; [apply while_exit; reflexivity | simpl; lia].
  - apply bpe_loop_while. lia.
Qed.

(** ** Greedy merging, as a specification *)

Section Greedy.

(** [cand pieces j r]: the pair at positions [j], [j + 1] of [pieces] matches
    the table at rank [r]. *)
Variable cand : list str -> nat -> nat -> Prop.

(** The occurrence at [pos] is the one to merge: its rank [r] is the lowest
    of all, and it is the leftmost of that rank. *)
Definition selects (pieces : list str) (pos r : nat) : Prop :=
  cand pieces pos r /\
  forall j r', cand pieces j r' -> (r < r')%nat \/ (r = r' /\ (pos <= j)%nat).

(** Merge one selected occurrence, look at the whole sequence again, stop
    when no pair matches. *)
Inductive greedy_run : list str -> list str -> Prop :=
| greedy_stop : forall pieces,
    (forall j r, ~ cand pieces j r) ->
    greedy_run pieces pieces
| greedy_merge : forall pieces pos r pieces' out,
    selects pieces pos r ->
    merged_at pieces pos pieces' ->
    greedy_run pieces' out ->
    greedy_run pieces out.

End Greedy.

Lemma greedy_run_inv : forall cand pieces out,
  greedy_run cand pieces out ->
  (pieces = out /\ forall j r, ~ cand pieces j r) \/
  (exists pos r pieces',
     selects cand pieces pos r /\ merged_at pieces pos pieces' /\
     greedy_run cand pieces' out).
Proof.
  intros cand pieces out R. destruct R as [pieces N | pieces pos r pieces' out S M R].
  - left. split; [reflexivity | exact N].
  - right. exists pos, r, pieces'. auto.
Qed.
Arguments greedy_run_inv {cand pieces out} _.

(** The claim's reading: the pair is listed in the table at rank [r]. *)
Definition listed_cand (ms : list (str * str)) (pieces : list str) (j r : nat)
  : Prop :=
  exists p q, nth_error pieces j = Some p /\ nth_error pieces (S j) = Some q /\
              nth_error ms r = Some (p, q).

(** The code's reading: [r] is the rank [mergeMap] holds for the key of the
    pair, that of the last rule with this key. *)
Definition table_cand (ms : list (str * str)) (pieces : list str) (j r : nat)
  : Prop :=
  exists p q, nth_error pieces j = Some p /\ nth_error pieces (S j) = Some q /\
              key_rank ms (pair_key p q) r.

Lemma rank_at_table_cand : forall ms pieces j r,
  rank_at (build_mergeMap ms) pieces j = Some r <-> table_cand ms pieces j r.
Proof.
  intros ms pieces j r. unfold rank_at, table_cand. split.
  - destruct (nth_error pieces j) as [p|]; [|discriminate].
    destruct (nth_error pieces (S j)) as [q|]; [|discriminate].
    rewrite build_mergeMap_get, last_index_key_rank. intros KR.
    exists p, q. auto.
  - intros (p & q & -> & -> & KR).
    rewrite build_mergeMap_get, last_index_key_rank. exact KR.
Qed.

Lemma while_loop_greedy : forall ms pieces n out,
  while_loop (build_mergeMap ms) pieces n out ->
  greedy_run (table_cand ms) pieces out.
Proof.
  intros ms pieces n out W.
  induction W as [pieces F | pieces pos r n out F W IH].
  - apply greedy_stop. intros j r C.
    apply rank_at_table_cand in C.
    pose proof (find_best_spec (build_mergeMap ms) pieces) as B.
    rewrite F in B. simpl in B. rewrite B in C. discriminate.
  - pose proof (find_best_spec (build_mergeMap ms) pieces) as B.
    rewrite F in B. destruct B as [R M].
    apply greedy_merge with (pos := pos) (r := r) (pieces' := splice_merged pos pieces).
    + split; [apply rank_at_table_cand; exact R|].
      intros j r' C. apply rank_at_table_cand in C. apply (M j r' C).
    + apply (rank_at_merged _ _ _ _ R).
    + exact IH.
Qed.

Lemma pair_key_length : forall a b,
  length (pair_key a b) = S (length a + length b).
Proof.
  intros a b. unfold pair_key. rewrite length_app. simpl. lia.
Qed.

Lemma code_point_not_nil : forall p, code_point p -> p <> [].
Proof.
  intros p [(c & ->)|(c & d & -> & _)]; discriminate.
Qed.

(** The keys of the first two pairs of a three-piece word differ. *)
Lemma first_keys_differ : forall c0 b c,
  code_point c0 -> code_point b -> code_point c ->
  pair_key (MARK :: c0) b <> pair_key b c.
Proof.
  intros c0 b c H0 Hb Hc E. unfold pair_key in E.
  destruct Hb as [(x & ->)|(x & y & -> & Hx & _)].
  - simpl in E. injection E as <- E.
    destruct H0 as [(u & ->)|(u & v & -> & _)].
    + simpl in E. injection E as -> E. subst c.
      destruct Hc as [(z & Ez)|(z & t & Ez & Hz & _)]; [discriminate|].
      injection Ez as <- <-. vm_compute in Hz. discriminate.
    + simpl in E. injection E as -> E. subst c.
      destruct Hc as [(z & Ez)|(z & t & Ez & _)]; discriminate.
  - simpl in E. injection E as <- _. vm_compute in Hx. discriminate.
Qed.

Lemma str_eqb_neq : forall a b : str, a <> b -> str_eqb a b = false.
Proof.
  intros a b N. destruct (str_eqb a b) eqn:E; [|reflexivity].
  apply str_eqb_eq in E. contradiction.
Qed.

Lemma str_eqb_refl : forall a : str, str_eqb a a = true.
Proof. intros a. apply str_eqb_eq. reflexivity. Qed.

Lemma priority_example : forall word a b c,
  _wordToChars word = [a; b; c] ->
  _applyBPEToWord [(a, b); (b, c)] word = [a ++ b; c].
Proof.
  intros word a b c E.
  assert (S : exists c0, a = MARK :: c0 /\ code_point c0 /\ code_point b /\ code_point c).
  { unfold _wordToChars in E. pose proof (Array_from_code_points word) as F.
    destruct (Array_from word) as [|c0 chars]; [discriminate|].
    injection E as <- ->. inversion F as [|? ? F0 F1]; subst.
    inversion F1 as [|? ? Fb F2]; subst. inversion F2 as [|? ? Fc _]; subst.
    exists c0. auto. }
  destruct S as (c0 & Ea & H0 & Hb & Hc).
  pose proof (first_keys_differ _ _ _ H0 Hb Hc) as K1. rewrite <- Ea in K1.
  assert (Na : a <> []) by (rewrite Ea; discriminate).
  pose proof (code_point_not_nil _ Hc) as Nc.
  assert (K2 : pair_key a b <> pair_key (a ++ b) c).
  { intros F. apply (f_equal (@length Z)) in F.
    rewrite !pair_key_length, length_app in F.
    destruct c; [congruence | simpl in F; lia]. }
  assert (K3 : pair_key b c <> pair_key (a ++ b) c).
  { intros F. apply (f_equal (@length Z)) in F.
    rewrite !pair_key_length, length_app in F.
    destruct a; [congruence | simpl in F; lia]. }
  unfold _applyBPEToWord. rewrite E.
  cbn [length bpe_loop find_best scan_pairs].
  rewrite !build_mergeMap_get. cbn [last_index].
  rewrite (str_eqb_neq _ _ (fun F => K1 (eq_sym F))), !str_eqb_refl.
  cbn [better Nat.ltb Nat.leb splice_merged find_best scan_pairs].
  rewrite !build_mergeMap_get. cbn [last_index].
  rewrite (str_eqb_neq _ _ K2), (str_eqb_neq _ _ K3). reflexivity.
Qed.

(** ** Losslessness *)

Lemma while_loop_concat : forall mm pieces n out,
  while_loop mm pieces n out -> concat out = concat pieces.
Proof.
  intros mm pieces n out W.
  induction W as [pieces F | pieces pos r n out F W IH]; [reflexivity|].
  rewrite IH. apply merged_at_concat with (pos := pos).
  apply (find_best_merged _ _ _ _ F).
Qed.

Lemma while_loop_length : forall mm pieces n out,
  while_loop mm pieces n out -> (length out + n = length pieces)%nat.
Proof.
  intros mm pieces n out W.
  induction W as [pieces F | pieces pos r n out F W IH]; [lia|].
  pose proof (merged_at_length _ _ _ (find_best_merged _ _ _ _ F)). lia.
Qed.

(** ** When the two readings of the rank agree *)

Lemma pair_key_inj : forall p q a b,
  ~ In SP p -> ~ In SP q ->
  pair_key a b = pair_key p q -> a = p /\ b = q.
Proof.
  unfold pair_key. induction p as [|y p IH]; intros q a b Np Nq E.
  - destruct a as [|x a]; simpl in E.
    + injection E as ->. split; reflexivity.
    + injection E as -> E. elim Nq. rewrite <- E.
      apply in_or_app. right. left. reflexivity.
  - destruct a as [|x a]; simpl in E.
    + injection E as <- _. elim Np. left. reflexivity.
    + injection E as -> E.
      destruct (IH q a b) as [-> ->]; auto.
      intros F. apply Np. right. exact F.
Qed.

Lemma in_concat_piece : forall (pieces : list str) j p c,
  nth_error pieces j = Some p -> In c p -> In c (concat pieces).
Proof.
  intros pieces j p c E I. apply in_concat. exists p.
  split; [eapply nth_error_In; exact E | exact I].
Qed.

Lemma cand_readings_agree : forall ms pieces j r,
  NoDup ms -> ~ In SP (concat pieces) ->
  (table_cand ms pieces j r <-> listed_cand ms pieces j r).
Proof.
  intros ms pieces j r ND NS. split.
  - intros (p & q & Ep & Eq & [(a & b & E1 & E2) _]).
    exists p, q. repeat split; try assumption.
    destruct (pair_key_inj p q a b) as [-> ->]; try assumption.
    + intros F. apply NS. apply (in_concat_piece _ _ _ _ Ep F).
    + intros F. apply NS. apply (in_concat_piece _ _ _ _ Eq F).
  - intros (p & q & Ep & Eq & E).
    exists p, q. repeat split; try assumption.
    + exists p, q. split; [exact E | reflexivity].
    + intros r' a b E1 E2.
      destruct (pair_key_inj p q a b) as [-> ->]; try assumption.
      * intros F. apply NS. apply (in_concat_piece _ _ _ _ Ep F).
      * intros F. apply NS. apply (in_concat_piece _ _ _ _ Eq F).
      * rewrite <- E in E1.
        apply (proj1 (NoDup_nth_error ms) ND) in E1; [lia|].
        apply nth_error_Some. rewrite E1, E. discriminate.
Qed.

Lemma greedy_run_readings : forall ms pieces out,
  NoDup ms -> ~ In SP (concat pieces) ->
  greedy_run (table_cand ms) pieces out ->
  greedy_run (listed_cand ms) pieces out.
Proof.
  intros ms pieces out ND NS R.
  induction R as [pieces N | pieces pos r pieces' out [C M] MA R IH].
  - apply greedy_stop. intros j r C.
    apply (N j r). apply cand_readings_agree; assumption.
  - apply greedy_merge with (pos := pos) (r := r) (pieces' := pieces').
    + split; [apply cand_readings_agree; assumption|].
      intros j r' C'. apply M. apply cand_readings_agree; assumption.
    + exact MA.
    + apply IH. rewrite (merged_at_concat _ _ _ MA). exact NS.
Qed.

Lemma wordToChars_no_space : forall word,
  ~ In SP word -> ~ In SP (concat (_wordToChars word)).
Proof.
  intros word NS. destruct word as [|c w].
  - simpl. intros [].
  - rewrite concat_wordToChars by discriminate.
    intros [F|F]; [discriminate F | exact (NS F)].
Qed.

Lemma app_same_length : forall {A : Type} (a a' b b' : list A),
  length a = length a' -> a ++ b = a' ++ b' -> a = a' /\ b = b'.
Proof.
  intros A. induction a as [|x a IH]; intros [|x' a'] b b' L E;
    try discriminate L; simpl in *.
  - split; [reflexivity | exact E].
  - injection E as -> E. injection L as L.
    destruct (IH a' b b' L E) as [-> ->]. split; reflexivity.
Qed.

(** The greedy specification leaves no choice: it has one result. *)
Lemma merged_at_functional : forall pieces pos p1 p2,
  merged_at pieces pos p1 -> merged_at pieces pos p2 -> p1 = p2.
Proof.
  intros pieces pos p1 p2 (pre & p & q & post & E & L & ->)
         (pre' & p' & q' & post' & E' & L' & ->).
  rewrite E in E'. apply app_same_length in E'; [|congruence].
  destruct E' as [-> E']. injection E' as -> -> ->. reflexivity.
Qed.

Lemma greedy_run_functional : forall cand pieces out,
  greedy_run cand pieces out ->
  forall out', greedy_run cand pieces out' -> out = out'.
Proof.
  intros cand pieces out R.
  induction R as [pieces N | pieces pos r pieces' out [C M] MA R IH]; intros out' R'.
  - destruct (greedy_run_inv R') as [[E _]|(pos & r & ps' & [C _] & _)];
      [exact E | elim (N _ _ C)].
  - destruct (greedy_run_inv R') as [[_ N]|(pos' & r' & ps' & [C' M'] & MA' & R'')];
      [elim (N _ _ C)|].
    assert (pos' = pos).
    { destruct (M _ _ C') as [L1|[E1 L1]]; destruct (M' _ _ C) as [L2|[E2 L2]]; lia. }
    subst pos'. rewrite (merged_at_functional _ _ _ _ MA' MA) in R''.
    apply IH. exact R''.
Qed.

(** ** The merge loop: claims C1 and C10 *)

(** C1 (amended).  For every word and every merge table, [_applyBPEToWord]
    runs greedily: each round merges exactly one occurrence, the one whose
    pair key has the lowest rank in [mergeMap], the leftmost among those of
    that rank; the next round looks at the whole sequence again, and the loop
    ends when no adjacent pair has a key of the table.  The rank of a key is
    the position of the LAST rule with that key.  When no rule is listed twice
    and the word has no space, the key of a pair matches exactly the rule
    listing this pair, whose rank is its position.  In particular, with the
    table [(a,b); (b,c)] a word of pieces a, b, c becomes [ab; c] and not
    [a; bc]. *)
Theorem applyBPE_greedy_by_table_rank : forall ms word,
  greedy_run (table_cand ms) (_wordToChars word) (_applyBPEToWord ms word) /\
  (NoDup ms -> ~ In SP word ->
   greedy_run (listed_cand ms) (_wordToChars word) (_applyBPEToWord ms word)) /\
  (forall a b c,
     ms = [(a, b); (b, c)] -> _wordToChars word = [a; b; c] ->
     _applyBPEToWord ms word = [a ++ b; c] /\
     _applyBPEToWord ms word <> [a; b ++ c]).
Proof.
  intros ms word.
  destruct (applyBPE_while ms word) as (n & W & _).
  pose proof (while_loop_greedy _ _ _ _ W) as G.
  split; [exact G|]. split.
  - intros ND NS. apply greedy_run_readings; try assumption.
    apply wordToChars_no_space. exact NS.
  - intros a b c -> E. rewrite (priority_example _ _ _ _ E).
    split; [reflexivity|].
    intros F. injection F as F _.
    apply (f_equal (@length Z)) in F. rewrite length_app in F.
    assert (Nb : b <> []).
    { pose proof (Array_from_code_points word) as CP.
      unfold _wordToChars in E. destruct (Array_from word) as [|c0 chars]; [discriminate|].
      injection E as _ ->. inversion CP as [|? ? _ CP1]; subst.
      inversion CP1 as [|? ? Hb _]; subst. apply (code_point_not_nil _ Hb). }
    destruct b; [congruence | simpl in F; lia].
Qed.

Definition abc_word : str := js "abc".
Definition abc_a : str := MARK :: js "a".
Definition abc_b : str := js "b".
Definition abc_c : str := js "c".

Lemma applyBPE_greedy_by_table_rank_witness :
  NoDup [(abc_a, abc_b); (abc_b, abc_c)] /\ ~ In SP abc_word /\
  _wordToChars abc_word = [abc_a; abc_b; abc_c] /\
  greedy_run (listed_cand [(abc_a, abc_b); (abc_b, abc_c)])
    (_wordToChars abc_word)
    (_applyBPEToWord [(abc_a, abc_b); (abc_b, abc_c)] abc_word) /\
  _applyBPEToWord [(abc_a, abc_b); (abc_b, abc_c)] abc_word = [abc_a ++ abc_b; abc_c].
Proof.
  assert (ND : NoDup [(abc_a, abc_b); (abc_b, abc_c)]).
  { constructor; [|constructor; [intros [] | constructor]].
    intros [F|[]]. discriminate F. }
  assert (NS : ~ In SP abc_word).
  { vm_compute. intros [F|[F|[F|[]]]]; discriminate F. }
  split; [exact ND|]. split; [exact NS|]. split; [reflexivity|].
  pose proof (applyBPE_greedy_by_table_rank
                [(abc_a, abc_b); (abc_b, abc_c)] abc_word) as (_ & L & X).
  split; [exact (L ND NS)|].
  exact (proj1 (X abc_a abc_b abc_c eq_refl eq_refl)).
Defined.

(** A table that lists the pair (▁a, b) at ranks 0 and 2 and (b, c) at rank 1:
    [mergeMap] keeps rank 2 for (▁a, b), so on "abc" the code merges (b, c). *)
Definition repeated_table : list (str * str) :=
  [(abc_a, abc_b); (abc_b, abc_c); (abc_a, abc_b)].

(** C1 as stated fails: with a rule listed twice, the code does not merge
    the occurrence whose rule has the lowest rank (here (▁a, b), listed at
    rank 0), and its result is not the result of merging by lowest listed
    rank. *)
Lemma applyBPE_repeated_rule_counterexample :
  _wordToChars abc_word = [abc_a; abc_b; abc_c] /\
  nth_error repeated_table 0 = Some (abc_a, abc_b) /\
  _applyBPEToWord repeated_table abc_word = [abc_a; abc_b ++ abc_c] /\
  ~ greedy_run (listed_cand repeated_table) (_wordToChars abc_word)
      (_applyBPEToWord repeated_table abc_word).
Proof.
  split; [reflexivity|]. split; [reflexivity|]. split; [reflexivity|].
  change (_applyBPEToWord repeated_table abc_word) with [abc_a; abc_b ++ abc_c].
  change (_wordToChars abc_word) with [abc_a; abc_b; abc_c].
  intros R.
  assert (C0 : listed_cand repeated_table [abc_a; abc_b; abc_c] 0 0).
  { exists abc_a, abc_b. repeat split. }
  destruct (greedy_run_inv R) as [[E N]|(pos & r & ps' & [C M] & MA & R')].
  - discriminate E.
  - destruct (M 0%nat 0%nat C0) as [F|[-> Lp]]; [lia|].
    assert (pos = 0%nat) by lia. subst pos.
    destruct MA as (pre & p & q & post & E & L & ->).
    destruct pre; [|discriminate L]. simpl in E. injection E as <- <- <-.
    simpl in R'.
    destruct (greedy_run_inv R') as [[E N]|(pos & r & ps'' & [C' M'] & MA' & R'')].
    + discriminate E.
    + destruct C' as (p & q & Ep & Eq & Er).
      destruct pos as [|[|pos]]; simpl in Ep, Eq; try discriminate.
      injection Ep as <-. injection Eq as <-.
      destruct r as [|[|[|r]]]; simpl in Er; try discriminate.
      destruct r; discriminate.
Qed.

Lemma applyBPE_preserves_concat : forall ms word,
  word <> [] -> concat (_applyBPEToWord ms word) = MARK :: word.
Proof.
  intros ms word N.
  destruct (applyBPE_while ms word) as (n & W & _).
  rewrite (while_loop_concat _ _ _ _ W). apply concat_wordToChars. exact N.
Qed.

(** C10.  [_applyBPEToWord] terminates on every word and every merge table:
    its loop reaches the exit after [n] merges, where [n] is at most the
    number of code points of the word minus one; a round either finds no pair
    and leaves the loop, or replaces two adjacent pieces by one, which
    shortens the piece sequence by exactly one. *)
Theorem applyBPE_terminates : forall ms word,
  exists n,
    while_loop (build_mergeMap ms) (_wordToChars word) n (_applyBPEToWord ms word) /\
    (n <= length (Array_from word) - 1)%nat /\
    (length (_applyBPEToWord ms word) + n = length (Array_from word))%nat /\
    (forall pieces bestPos bestRank,
       find_best (build_mergeMap ms) pieces = Some (bestPos, bestRank) ->
       merged_at pieces bestPos (splice_merged bestPos pieces) /\
       S (length (splice_merged bestPos pieces)) = length pieces).
Proof.
  intros ms word.
  destruct (applyBPE_while ms word) as (n & W & L).
  exists n. rewrite <- wordToChars_length.
  split; [exact W|]. split; [exact L|]. split.
  - apply (while_loop_length _ _ _ _ W).
  - intros pieces pos r F.
    pose proof (find_best_merged _ _ _ _ F) as M.
    split; [exact M | apply merged_at_length with (pos := pos); exact M].
Qed.

(** ** Keys of piece sequences *)

Lemma split_sp_not_nil : forall s, split_sp s <> [].
Proof.
  destruct s as [|c s]; simpl; [discriminate|].
  destruct (c =? SP); [discriminate|].
  destruct (split_sp s); discriminate.
Qed.

Lemma split_sp_no_space : forall s, Forall (fun p => ~ In SP p) (split_sp s).
Proof.
  induction s as [|c s IH]; simpl.
  - constructor; [intros [] | constructor].
  - destruct (c =? SP) eqn:E.
    + constructor; [intros [] | exact IH].
    + destruct (split_sp s) as [|h t]; [constructor; [|constructor]|].
      * intros [F|[]]. subst c. rewrite Z.eqb_refl in E. discriminate.
      * inversion IH as [|? ? Hh Ht]; subst. constructor; [|exact Ht].
        intros [F|F]; [subst c; rewrite Z.eqb_refl in E; discriminate | exact (Hh F)].
Qed.

Lemma split_sp_app : forall p s,
  ~ In SP p -> split_sp (p ++ SP :: s) = p :: split_sp s.
Proof.
  induction p as [|c p IH]; intros s N; simpl.
  - reflexivity.
  - destruct (c =? SP) eqn:E.
    + apply Z.eqb_eq in E. elim N. left. exact E.
    + rewrite IH; [reflexivity|]. intros F. apply N. right. exact F.
Qed.

Lemma split_sp_plain : forall p, ~ In SP p -> split_sp p = [p].
Proof.
  induction p as [|c p IH]; intros N; simpl; [reflexivity|].
  destruct (c =? SP) eqn:E.
  - apply Z.eqb_eq in E. elim N. left. exact E.
  - rewrite IH; [reflexivity|]. intros F. apply N. right. exact F.
Qed.

Lemma pair_key_split : forall p q,
  ~ In SP p -> ~ In SP q -> split_sp (pair_key p q) = [p; q].
Proof.
  intros p q Np Nq. unfold pair_key.
  rewrite split_sp_app by exact Np. rewrite split_sp_plain by exact Nq.
  reflexivity.
Qed.

(** ** The pair-frequency table *)

(** A key made of two pieces without a space. *)
Definition is_pair_key (k : str) : Prop :=
  exists p q, k = pair_key p q /\ ~ In SP p /\ ~ In SP q.

(** How many adjacent pairs of [pieces] have the key [k]. *)
Fixpoint occurrences (k : str) (pieces : list str) : nat :=
  match pieces with
  | [] => 0
  | p :: rest =>
      match rest with
      | [] => 0
      | q :: _ =>
          ((if str_eqb (pair_key p q) k then 1 else 0) + occurrences k rest)%nat
      end
  end.

(** The aggregate frequency of the pair of key [k]: every word counted at
    least [minFrequency] times brings its count once per occurrence. *)
Fixpoint pair_frequency (minFrequency : nat) (cs : Map.t str nat) (k : str) : nat :=
  match cs with
  | [] => 0
  | (w, cnt) :: cs' =>
      ((if (cnt <? minFrequency)%nat then 0
        else cnt * occurrences k (split_sp w)) + pair_frequency minFrequency cs' k)%nat
  end.

Lemma get0_set : forall (m : Map.t str nat) k v k',
  get0 (Map.set m k v) k' = if str_eqb k k' then v else get0 m k'.
Proof.
  intros m k v k'. unfold get0. rewrite get_set. simpl.
  destruct (str_eqb k k'); reflexivity.
Qed.

Lemma add_pairs_cons2 : forall p q rest cnt pc,
  add_pairs (p :: q :: rest) cnt pc
  = add_pairs (q :: rest) cnt
      (Map.set pc (pair_key p q) (get0 pc (pair_key p q) + cnt)%nat).
Proof. reflexivity. Qed.

Lemma occurrences_cons2 : forall k p q rest,
  occurrences k (p :: q :: rest)
  = ((if str_eqb (pair_key p q) k then 1 else 0) + occurrences k (q :: rest))%nat.
Proof. reflexivity. Qed.

Lemma add_pairs_get0 : forall pieces cnt pc k,
  get0 (add_pairs pieces cnt pc) k = (get0 pc k + cnt * occurrences k pieces)%nat.
Proof.
  induction pieces as [|p rest IH]; intros cnt pc k; [simpl; lia|].
  destruct rest as [|q rest']; [simpl; lia|].
  rewrite add_pairs_cons2, occurrences_cons2, IH, get0_set.
  destruct (str_eqb (pair_key p q) k) eqn:E.
  - apply str_eqb_eq in E. subst k. lia.
  - lia.
Qed.

Lemma build_pairCounts_from_get0 : forall minF cs pc k,
  get0 (fold_left
          (fun pc e => if (snd e <? minF)%nat then pc
                       else add_pairs (split_sp (fst e)) (snd e) pc)
          cs pc) k
  = (get0 pc k + pair_frequency minF cs k)%nat.
Proof.
  induction cs as [|[w cnt] cs IH]; intros pc k; simpl; [lia|].
  rewrite IH. destruct (cnt <? minF)%nat; [lia|].
  rewrite add_pairs_get0. lia.
Qed.

Lemma build_pairCounts_get0 : forall minF cs k,
  get0 (build_pairCounts minF cs) k = pair_frequency minF cs k.
Proof.
  intros minF cs k. unfold build_pairCounts.
  rewrite build_pairCounts_from_get0. reflexivity.
Qed.

Lemma add_pairs_keys : forall pieces cnt pc,
  Forall (fun p => ~ In SP p) pieces ->
  NoDup (Map.keys pc) /\ Forall is_pair_key (Map.keys pc) ->
  NoDup (Map.keys (add_pairs pieces cnt pc)) /\
  Forall is_pair_key (Map.keys (add_pairs pieces cnt pc)).
Proof.
  induction pieces as [|p rest IH]; intros cnt pc F I; [exact I|].
  destruct rest as [|q rest']; [exact I|].
  rewrite add_pairs_cons2. inversion F as [|? ? Fp Fr]; subst.
  apply IH; [exact Fr|]. destruct I as [ND PK]. split.
  - apply NoDup_keys_set. exact ND.
  - rewrite keys_set. destruct (Map.has pc (pair_key p q)); [exact PK|].
    apply Forall_app. split; [exact PK|]. constructor; [|constructor].
    inversion Fr as [|? ? Fq _]; subst. exists p, q. auto.
Qed.

Lemma build_pairCounts_keys : forall minF cs,
  NoDup (Map.keys (build_pairCounts minF cs)) /\
  Forall is_pair_key (Map.keys (build_pairCounts minF cs)).
Proof.
  intros minF cs. unfold build_pairCounts.
  assert (G : forall (pc : Map.t str nat),
             NoDup (Map.keys pc) /\ Forall is_pair_key (Map.keys pc) ->
             NoDup (Map.keys (fold_left
                  (fun pc e => if (snd e <? minF)%nat then pc
                               else add_pairs (split_sp (fst e)) (snd e) pc) cs pc)) /\
             Forall is_pair_key (Map.keys (fold_left
                  (fun pc e => if (snd e <? minF)%nat then pc
                               else add_pairs (split_sp (fst e)) (snd e) pc) cs pc))).
  { induction cs as [|[w cnt] cs IH]; intros pc I; simpl; [exact I|].
    apply IH. destruct (cnt <? minF)%nat; [exact I|].
    apply add_pairs_keys; [apply split_sp_no_space | exact I]. }
  apply G. split; constructor.
Qed.

(** ** The choice of the best pair *)

(** [best] is right for the entries [seen]: it holds the highest count and
    a key that has it, or nothing when no count is positive. *)
Definition best_so_far (seen : Map.t str nat) (best : option str * nat) : Prop :=
  (forall k c, In (k, c) seen -> (c <= snd best)%nat) /\
  match fst best with
  | None => snd best = 0%nat
  | Some k => In (k, snd best) seen /\ (0 < snd best)%nat
  end.

Lemma find_bestPair_from : forall l seen best,
  best_so_far seen best ->
  best_so_far (seen ++ l)
    (fold_left
       (fun (best : option str * nat) e =>
          if (snd best <? snd e)%nat then (Some (fst e), snd e) else best)
       l best).
Proof.
  induction l as [|[k c] l IH]; intros seen best B; simpl.
  - rewrite app_nil_r. exact B.
  - replace (seen ++ (k, c) :: l) with ((seen ++ [(k, c)]) ++ l)
      by (rewrite <- app_assoc; reflexivity).
    apply IH. destruct B as [M W]. destruct (snd best <? c)%nat eqn:E.
    + apply Nat.ltb_lt in E. split; simpl.
      * intros k' c' I. apply in_app_or in I. destruct I as [I|[I|[]]].
        -- specialize (M _ _ I). lia.
        -- injection I as <- <-. lia.
      * split; [apply in_or_app; right; left; reflexivity | lia].
    + apply Nat.ltb_ge in E. split.
      * intros k' c' I. apply in_app_or in I. destruct I as [I|[I|[]]].
        -- apply (M _ _ I).
        -- injection I as <- <-. exact E.
      * destruct (fst best) as [kb|]; [|exact W].
        destruct W as [I P]. split; [apply in_or_app; left; exact I | exact P].
Qed.

Lemma find_bestPair_spec : forall pc,
  best_so_far pc (find_bestPair pc).
Proof.
  intros pc. unfold find_bestPair.
  apply (find_bestPair_from pc [] (None, 0%nat)).
  split; [intros k c [] | reflexivity].
Qed.

(** ** The training loop: claim C4 *)

(** The loop has nothing left to merge: no pair stands in a word that
    counts, or no pair has an aggregate frequency that reaches
    [minFrequency].  The frequencies are those of [pair_frequency], read off
    the word counts. *)
Definition stops (minFrequency : nat) (cs : Map.t str nat) : Prop :=
  (forall k, pair_frequency minFrequency cs k = 0%nat) \/
  (forall k, (pair_frequency minFrequency cs k < minFrequency)%nat).

(** [train_run minFrequency n cs ms out]: from the word counts [cs], at most
    [n] rounds append the rules [ms] and leave the word counts [out].  A round
    appends a pair whose aggregate frequency in the word counts of the round
    is at least [minFrequency] and is the highest of all pairs; the run ends
    when the rounds are used up or as soon as [stops] holds. *)
Inductive train_run (minFrequency : nat)
  : nat -> Map.t str nat -> list (str * str) -> Map.t str nat -> Prop :=
| train_budget : forall cs,
    train_run minFrequency 0 cs [] cs
| train_break : forall n cs,
    stops minFrequency cs ->
    train_run minFrequency (S n) cs [] cs
| train_merge : forall n cs a b ms out,
    (minFrequency <= pair_frequency minFrequency cs (pair_key a b))%nat ->
    (forall k, (pair_frequency minFrequency cs k
                <= pair_frequency minFrequency cs (pair_key a b))%nat) ->
    train_run minFrequency n (apply_merge a b cs) ms out ->
    train_run minFrequency (S n) cs ((a, b) :: ms) out.

Lemma get_get0 : forall (m : Map.t str nat) k c,
  Map.get m k = Some c -> get0 m k = c.
Proof. intros m k c E. unfold get0. rewrite E. reflexivity. Qed.

(** A count of the pair table is bounded by what bounds its entries. *)
Lemma get0_bounded : forall (m : Map.t str nat) k bound,
  (forall k' c, In (k', c) m -> (c <= bound)%nat) -> (get0 m k <= bound)%nat.
Proof.
  intros m k bound M. unfold get0.
  destruct (Map.get m k) as [c|] eqn:G; [|lia].
  apply get_some_in in G. apply (M _ _ G).
Qed.

Lemma train_round_spec : forall minF cs,
  (1 <= minF)%nat ->
  match train_round minF cs with
  | Break => stops minF cs
  | Merge a b c cs' =>
      c = pair_frequency minF cs (pair_key a b) /\
      (minF <= c)%nat /\
      (forall k, (pair_frequency minF cs k <= c)%nat) /\
      cs' = apply_merge a b cs
  end.
Proof.
  intros minF cs Pos. unfold train_round, stops.
  pose proof (build_pairCounts_keys minF cs) as [ND PK].
  pose proof (build_pairCounts_get0 minF cs) as FR.
  pose proof (find_bestPair_spec (build_pairCounts minF cs)) as [M W].
  destruct (build_pairCounts minF cs) as [|e pc] eqn:E.
  { left. intros k. rewrite <- FR. reflexivity. }
  assert (Low : forall bound, (bound < minF)%nat ->
            (forall k c, In (k, c) (e :: pc) -> (c <= bound)%nat) ->
            forall k, (pair_frequency minF cs k < minF)%nat).
  { intros bound Lb Mb k. rewrite <- FR.
    pose proof (get0_bounded (e :: pc) k bound Mb). lia. }
  destruct (find_bestPair (e :: pc)) as [[k|] bc]; simpl in M, W.
  - destruct W as [I P].
    assert (KI : In k (Map.keys (e :: pc))).
    { change k with (fst (k, bc)). apply in_map. exact I. }
    rewrite Forall_forall in PK.
    destruct (PK k KI) as (p & q & -> & Np & Nq).
    replace (str_eqb (pair_key p q) []) with false
      by (unfold pair_key; destruct p; reflexivity).
    simpl orb. destruct (bc <? minF)%nat eqn:C.
    + apply Nat.ltb_lt in C. right. apply (Low bc C M).
    + apply Nat.ltb_ge in C. rewrite pair_key_split by assumption.
      pose proof (in_get_some (e :: pc) _ _ ND I) as G.
      split; [|split; [exact C|split; [|reflexivity]]].
      * rewrite <- FR. symmetry. apply get_get0. exact G.
      * intros k. rewrite <- FR. apply get0_bounded. exact M.
  - right. apply (Low 0%nat); [lia|]. intros k c I. specialize (M _ _ I). lia.
Qed.

Lemma train_loop_run : forall minF ops cs ms,
  (1 <= minF)%nat ->
  exists new,
    snd (train_loop ops minF cs ms) = ms ++ new /\
    train_run minF ops cs new (fst (train_loop ops minF cs ms)) /\
    (length new <= ops)%nat.
Proof.
  intros minF. induction ops as [|n IH]; intros cs ms Pos; simpl.
  - exists []. rewrite app_nil_r. split; [reflexivity|]. split; [apply train_budget | simpl; lia].
  - pose proof (train_round_spec minF cs Pos) as R.
    destruct (train_round minF cs) as [|a b c cs'].
    + exists []. rewrite app_nil_r. simpl.
      split; [reflexivity|]. split; [apply train_break; exact R | lia].
    + destruct R as (-> & C & M & ->).
      destruct (IH (apply_merge a b cs) (ms ++ [(a, b)]) Pos) as (new & E & R & L).
      exists ((a, b) :: new). rewrite E, <- app_assoc. simpl.
      split; [reflexivity|]. split; [|lia].
      apply train_merge; assumption.
Qed.

Lemma assign_id_fields : forall l T,
  lower (fold_left assign_id l T) = lower T /\
  specialTokens (fold_left assign_id l T) = specialTokens T /\
  merges (fold_left assign_id l T) = merges T /\
  counts (fold_left assign_id l T) = counts T.
Proof.
  induction l as [|tok l IH]; intros T; simpl; [auto|].
  destruct (IH (assign_id T tok)) as (E1 & E2 & E3 & E4).
  rewrite E1, E2, E3, E4. unfold assign_id.
  destruct (Map.has (tokenToId T) tok); auto.
Qed.

Lemma initSpecials_fields : forall T,
  lower (_initSpecials T) = lower T /\
  specialTokens (_initSpecials T) = specialTokens T /\
  merges (_initSpecials T) = merges T /\ counts (_initSpecials T) = counts T.
Proof.
  intros T. unfold _initSpecials.
  destruct (fold_left init_step (specialTokens T) _) as [[t2i i2t] idx]. auto.
Qed.

Lemma trainFromText_fields : forall norm T text minF ops,
  lower (trainFromText norm T text minF ops) = lower T /\
  specialTokens (trainFromText norm T text minF ops) = specialTokens T /\
  merges (trainFromText norm T text minF ops)
  = snd (train_loop ops minF (count_words norm (lower T) text) []) /\
  counts (trainFromText norm T text minF ops)
  = fst (train_loop ops minF (count_words norm (lower T) text) []).
Proof.
  intros norm T text minF ops. unfold trainFromText.
  destruct (train_loop ops minF (count_words norm (lower T) text) []) as [cs ms].
  cbv zeta.
  match goal with
  | |- context [fold_left assign_id ?l ?T1] =>
      destruct (assign_id_fields l T1) as (E1 & E2 & E3 & E4);
      rewrite E1, E2, E3, E4
  end.
  match goal with
  | |- context [_initSpecials ?T0] =>
      destruct (initSpecials_fields T0) as (F1 & F2 & F3 & F4);
      rewrite F1, F2, F3, F4
  end.
  simpl. auto.
Qed.

(** C4.  For every corpus and every configuration with [minFrequency >= 1],
    [trainFromText] leaves at most [mergeOps] rules, and its rules are those
    of a run in which every appended rule has, in the word counts of its
    round, an aggregate frequency ([pair_frequency]: the counts of the words
    that count, once per occurrence of the pair) of at least [minFrequency]
    and not below that of any other pair, and which ends when the rounds are
    used up or as soon as no pair stands in a word that counts or no pair has
    a frequency of [minFrequency] or more. *)
Theorem training_merges_bounded_and_frequent : forall norm T text minFrequency mergeOps,
  (1 <= minFrequency)%nat ->
  let T' := trainFromText norm T text minFrequency mergeOps in
  (length (merges T') <= mergeOps)%nat /\
  train_run minFrequency mergeOps
    (count_words norm (lower T) text) (merges T') (counts T').
Proof.
  intros norm T text minF ops Pos T'.
  destruct (trainFromText_fields norm T text minF ops) as (_ & _ & Em & Ec).
  subst T'. rewrite Em, Ec.
  destruct (train_loop_run minF ops (count_words norm (lower T) text) [] Pos)
    as (new & E & R & L).
  rewrite E. simpl. split; [exact L | exact R].
Qed.

Lemma training_merges_bounded_and_frequent_witness :
  (1 <= 2)%nat /\
  (length (merges (trainFromText ascii_lower fresh low_corpus 2 5)) <= 5)%nat /\
  train_run 2 5 (count_words ascii_lower (lower fresh) low_corpus)
    (merges (trainFromText ascii_lower fresh low_corpus 2 5))
    (counts (trainFromText ascii_lower fresh low_corpus 2 5)).
Proof.
  assert (P : (1 <= 2)%nat) by lia.
  split; [exact P|].
  exact (training_merges_bounded_and_frequent ascii_lower fresh low_corpus 2 5 P).
Defined.

(** ** The vocabulary: claim C6 *)

(** The two tables are inverse of each other, with the ids in [0, n). *)
Definition consistent (t2i : Map.t str jsval) (i2t : Map.t jsnum str) (n : Z)
  : Prop :=
  (forall tok v, Map.get t2i tok = Some v ->
     exists id, v = JNum (Num id) /\ 0 <= id < n /\
                Map.get i2t (Num id) = Some tok) /\
  (forall k tok, Map.get i2t k = Some tok ->
     exists id, k = Num id /\ 0 <= id < n /\
                Map.get t2i tok = Some (JNum (Num id))) /\
  NoDup (Map.keys t2i) /\ NoDup (Map.keys i2t).

Lemma consistent_empty : consistent [] [] 0.
Proof.
  repeat split; try constructor; intros ? ? E; discriminate E.
Qed.

Lemma consistent_add : forall t2i i2t n tok,
  consistent t2i i2t n -> 0 <= n -> Map.get t2i tok = None ->
  consistent (Map.set t2i tok (JNum (Num n))) (Map.set i2t (Num n) tok) (n + 1).
Proof.
  intros t2i i2t n tok (A & B & N1 & N2) Pos Fresh.
  split; [|split; [|split; apply NoDup_keys_set; assumption]].
  - intros tok' v G. rewrite get_set in G.
    destruct (keqb tok tok') eqn:E.
    + apply keqb_eq in E. subst tok'. injection G as <-.
      exists n. repeat split; try lia. apply get_set_same.
    + destruct (A tok' v G) as (id & -> & R & G').
      exists id. repeat split; try lia.
      rewrite get_set_other; [exact G'|]. intros F. injection F as F. lia.
  - intros k tok' G. rewrite get_set in G.
    destruct (keqb (Num n) k) eqn:E.
    + apply keqb_eq in E. subst k. injection G as <-.
      exists n. repeat split; try lia. apply get_set_same.
    + destruct (B k tok' G) as (id & -> & R & G').
      exists id. repeat split; try lia.
      rewrite get_set_other; [exact G'|]. intros F. subst tok'. congruence.
Qed.

Lemma init_fold : forall l t2i i2t n,
  0 <= n -> consistent t2i i2t n -> NoDup l ->
  (forall tok, In tok l -> Map.get t2i tok = None) ->
  exists t2i' i2t',
    fold_left init_step l (t2i, i2t, n) = (t2i', i2t', n + Z.of_nat (length l)) /\
    consistent t2i' i2t' (n + Z.of_nat (length l)) /\
    (forall i tok, nth_error l i = Some tok ->
       Map.get t2i' tok = Some (JNum (Num (n + Z.of_nat i)))) /\
    (forall tok v, Map.get t2i tok = Some v -> Map.get t2i' tok = Some v).
Proof.
  induction l as [|st l IH]; intros t2i i2t n Pos C ND Fresh.
  - exists t2i, i2t. simpl. rewrite Z.add_0_r.
    repeat split; try apply C; auto. intros [|i] tok E; discriminate E.
  - inversion ND as [|? ? NI ND']; subst.
    assert (F0 : Map.get t2i st = None) by (apply Fresh; left; reflexivity).
    destruct (IH (Map.set t2i st (JNum (Num n))) (Map.set i2t (Num n) st) (n + 1))
      as (t2i' & i2t' & E & C' & S & P); try lia; try assumption.
    + apply consistent_add; assumption.
    + intros tok I. rewrite get_set_other; [apply Fresh; right; exact I|].
      intros F. subst tok. contradiction.
    + exists t2i', i2t'. cbn [fold_left init_step]. rewrite E.
      replace (n + 1 + Z.of_nat (length l)) with (n + Z.of_nat (length (st :: l)))
        in * by (cbn [length]; lia).
      split; [reflexivity|]. split; [exact C'|]. split.
      * intros [|i] tok G; simpl in G.
        -- injection G as <-. rewrite Z.add_0_r. apply P. apply get_set_same.
        -- rewrite (S i tok G). do 3 f_equal. lia.
      * intros tok v G. apply P. rewrite get_set_other; [exact G|].
        intros F. subst tok. congruence.
Qed.

Lemma init_fold_keys : forall l (t2i : Map.t str jsval) (i2t : Map.t jsnum str) n tok,
  In tok (Map.keys (fst (fst (fold_left init_step l (t2i, i2t, n))))) ->
  In tok (Map.keys t2i) \/ In tok l.
Proof.
  induction l as [|st l IH]; intros t2i i2t n tok I; [left; exact I|].
  cbn [fold_left init_step] in I. destruct (IH _ _ _ _ I) as [I'|I'].
  - rewrite keys_set in I'. destruct (Map.has t2i st); [left; exact I'|].
    apply in_app_or in I'. destruct I' as [I'|[<-|[]]]; [left; exact I'|].
    right. left. reflexivity.
  - right. right. exact I'.
Qed.

(** The state of the vocabulary while the ids are handed out. *)
Definition vocab_ok (T : tokenizer) : Prop :=
  exists n, nextId T = Num n /\ 0 <= n /\
            consistent (tokenToId T) (idToToken T) n.

Lemma has_false_get : forall (m : Map.t str jsval) k,
  Map.has m k = false -> Map.get m k = None.
Proof.
  intros m k. unfold Map.has. destruct (Map.get m k); [discriminate | reflexivity].
Qed.

Lemma assign_id_ok : forall T tok,
  vocab_ok T ->
  vocab_ok (assign_id T tok) /\
  Map.has (tokenToId (assign_id T tok)) tok = true /\
  (forall tok' v, Map.get (tokenToId T) tok' = Some v ->
                  Map.get (tokenToId (assign_id T tok)) tok' = Some v).
Proof.
  intros T tok (n & En & Pos & C). unfold assign_id.
  destruct (Map.has (tokenToId T) tok) eqn:H.
  - split; [exists n; auto|]. split; [exact H | auto].
  - apply has_false_get in H. simpl. rewrite En. split; [|split].
    + exists (n + 1). simpl. split; [reflexivity|]. split; [lia|].
      apply consistent_add; assumption.
    + unfold Map.has. rewrite get_set_same. reflexivity.
    + intros tok' v G. rewrite get_set_other; [exact G|].
      intros F. subst tok'. congruence.
Qed.

Lemma assign_fold_ok : forall l T,
  vocab_ok T ->
  vocab_ok (fold_left assign_id l T) /\
  (forall tok, In tok l -> Map.has (tokenToId (fold_left assign_id l T)) tok = true) /\
  (forall tok v, Map.get (tokenToId T) tok = Some v ->
                 Map.get (tokenToId (fold_left assign_id l T)) tok = Some v).
Proof.
  induction l as [|t l IH]; intros T V; simpl.
  - split; [exact V|]. split; [intros tok [] | auto].
  - destruct (assign_id_ok T t V) as (V' & H & P).
    destruct (IH (assign_id T t) V') as (V'' & H' & P').
    split; [exact V''|]. split.
    + intros tok [<-|I]; [|apply H'; exact I].
      unfold Map.has in *. destruct (Map.get (tokenToId (assign_id T t)) t) as [v|] eqn:G;
        [|discriminate]. rewrite (P' t v G). reflexivity.
    + intros tok v G. apply P'. apply P. exact G.
Qed.

Lemma initSpecials_ok : forall T,
  NoDup (specialTokens T) ->
  vocab_ok (_initSpecials T) /\
  forall i st, nth_error (specialTokens T) i = Some st ->
    Map.get (tokenToId (_initSpecials T)) st = Some (JNum (Num (Z.of_nat i))).
Proof.
  intros T ND. unfold _initSpecials.
  destruct (init_fold (specialTokens T) [] [] 0 (Z.le_refl 0) consistent_empty ND)
    as (t2i & i2t & E & C & S & _); [reflexivity|].
  match type of E with
  | ?lhs = _ =>
      repeat match goal with
      | |- context [fold_left init_step ?l ?a] =>
          progress change (fold_left init_step l a) with lhs
      end
  end.
  rewrite E. simpl. split.
  - exists (Z.of_nat (length (specialTokens T))). simpl.
    split; [reflexivity|]. split; [lia | exact C].
  - intros i st G. apply (S i st G).
Qed.

(** Every special token and every piece of a surviving word is collected. *)
Lemma collect_tokens_specials : forall specials cs st,
  In st specials -> In st (collect_tokens specials cs).
Proof.
  intros specials cs st I. unfold collect_tokens.
  assert (A : forall (l : list str) s, In st s -> In st (fold_left JSet.add l s)).
  { induction l as [|x l IH]; intros s Is; simpl; [exact Is|].
    apply IH. unfold JSet.add. destruct (JSet.has s x); [exact Is|].
    apply in_or_app. left. exact Is. }
  assert (B : forall (l : list str) s, In st l -> In st (fold_left JSet.add l s)).
  { induction l as [|x l IH]; intros s Il; simpl; [contradiction|].
    destruct Il as [->|Il]; [|apply IH; exact Il].
    apply A. unfold JSet.add. destruct (JSet.has s st) eqn:H.
    - unfold JSet.has in H. apply existsb_exists in H.
      destruct H as (y & Iy & Ey). apply keqb_eq in Ey. subst y. exact Iy.
    - apply in_or_app. right. left. reflexivity. }
  assert (C : forall (ks : list str) s,
             In st s ->
             In st (fold_left (fun s k => fold_left JSet.add (split_sp k) s) ks s)).
  { induction ks as [|k ks IH]; intros s Is; simpl; [exact Is|].
    apply IH. apply A. exact Is. }
  apply C. unfold JSet.of_list. apply B. exact I.
Qed.

(** A tokenizer that was loaded with another vocabulary before. *)
Definition used_tokenizer : tokenizer :=
  {| lower := true;
     specialTokens := [PAD; UNK; BOS; EOS; SEP];
     tokenToId := [(js "zz", JNum (Num 40))];
     idToToken := [(Num 40, js "zz")];
     merges := [(js "z", js "z")];
     counts := [(js "zz", 3%nat)];
     nextId := Num 41 |}.

(** The state in which [trainFromText] leaves the vocabulary. *)
Lemma trainFromText_ok : forall norm T text minF ops,
  NoDup (specialTokens T) ->
  vocab_ok (trainFromText norm T text minF ops) /\
  (forall i st, nth_error (specialTokens T) i = Some st ->
     Map.get (tokenToId (trainFromText norm T text minF ops)) st
     = Some (JNum (Num (Z.of_nat i)))) /\
  (forall tok,
     In tok (collect_tokens (specialTokens (trainFromText norm T text minF ops))
               (counts (trainFromText norm T text minF ops))) ->
     Map.has (tokenToId (trainFromText norm T text minF ops)) tok = true).
Proof.
  intros norm T text minF ops ND.
  destruct (trainFromText_fields norm T text minF ops) as (_ & Es & _ & Ec).
  rewrite Es, Ec. unfold trainFromText.
  destruct (train_loop ops minF (count_words norm (lower T) text) []) as [cs ms].
  cbv zeta. simpl fst.
  match goal with
  | |- context [fold_left assign_id ?l (_initSpecials ?T0)] =>
      destruct (initSpecials_ok T0 ND) as (V1 & S1);
      destruct (assign_fold_ok l (_initSpecials T0) V1) as (V2 & H2 & P2)
  end.
  split; [exact V2|]. split.
  - intros i st G. apply P2. apply S1. exact G.
  - exact H2.
Qed.

(** C6 (amended).  After [trainFromText] on any corpus, for a tokenizer whose
    special tokens are pairwise distinct (as the default five are): the
    special tokens hold the ids 0 .. n-1 in declaration order; the two tables
    are inverse of each other, so that the vocabulary is a bijection between
    its tokens and its ids; every token that is not special has an id of at
    least n; no two tokens share an id and no id stands for two tokens; every
    special token and every piece of the corpus after the merges is in the
    vocabulary. *)
Theorem trained_vocabulary_is_bijection : forall norm T text minFrequency mergeOps,
  NoDup (specialTokens T) ->
  let T' := trainFromText norm T text minFrequency mergeOps in
  let n := Z.of_nat (length (specialTokens T')) in
  (forall i st, nth_error (specialTokens T') i = Some st ->
     Map.get (tokenToId T') st = Some (JNum (Num (Z.of_nat i))) /\
     Map.get (idToToken T') (Num (Z.of_nat i)) = Some st) /\
  (forall tok v, Map.get (tokenToId T') tok = Some v ->
     exists id, v = JNum (Num id) /\ 0 <= id /\
                Map.get (idToToken T') (Num id) = Some tok /\
                (~ In tok (specialTokens T') -> n <= id)) /\
  (forall k tok, Map.get (idToToken T') k = Some tok ->
     exists id, k = Num id /\ Map.get (tokenToId T') tok = Some (JNum (Num id))) /\
  (forall tok1 tok2 v,
     Map.get (tokenToId T') tok1 = Some v -> Map.get (tokenToId T') tok2 = Some v ->
     tok1 = tok2) /\
  (forall k1 k2 tok,
     Map.get (idToToken T') k1 = Some tok -> Map.get (idToToken T') k2 = Some tok ->
     k1 = k2) /\
  NoDup (Map.keys (tokenToId T')) /\ NoDup (Map.keys (idToToken T')) /\
  (forall tok, In tok (collect_tokens (specialTokens T') (counts T')) ->
     Map.has (tokenToId T') tok = true).
Proof.
  intros norm T text minF ops ND T' n.
  destruct (trainFromText_fields norm T text minF ops) as (_ & Es & _ & Ec).
  fold T' in Es, Ec.
  pose proof (trainFromText_ok norm T text minF ops ND) as V. fold T' in V.
  destruct V as ((m & En & Pos & A & B & N1 & N2) & S & H).
  rewrite <- Es in S.
  assert (SI : forall i st, nth_error (specialTokens T') i = Some st ->
                 Map.get (idToToken T') (Num (Z.of_nat i)) = Some st).
  { intros i st G. destruct (A st _ (S i st G)) as (id & E & _ & G').
    injection E as <-. exact G'. }
  split; [intros i st G; split; [apply S | apply SI]; exact G|].
  split.
  { intros tok v G. destruct (A tok v G) as (id & -> & R & G').
    exists id. repeat split; try lia; try assumption.
    intros NI. destruct (Z_lt_le_dec id n) as [Lt|Le]; [|exact Le].
    exfalso. apply NI.
    destruct (nth_error (specialTokens T') (Z.to_nat id)) as [st|] eqn:E.
    - pose proof (SI _ _ E) as G''. rewrite Z2Nat.id in G'' by lia.
      rewrite G' in G''. injection G'' as ->. eapply nth_error_In. exact E.
    - apply nth_error_None in E. subst n. lia. }
  split.
  { intros k tok G. destruct (B k tok G) as (id & -> & _ & G').
    exists id. auto. }
  split.
  { intros tok1 tok2 v G1 G2.
    destruct (A tok1 v G1) as (id1 & -> & _ & G1').
    destruct (A tok2 _ G2) as (id2 & E & _ & G2').
    injection E as <-. congruence. }
  split.
  { intros k1 k2 tok G1 G2.
    destruct (B k1 tok G1) as (id1 & -> & _ & G1').
    destruct (B k2 tok G2) as (id2 & -> & _ & G2'). congruence. }
  auto.
Qed.

Lemma trained_vocabulary_is_bijection_witness :
  NoDup (specialTokens fresh) /\
  Map.get (tokenToId low_tok) UNK = Some (JNum (Num 1)) /\
  Map.get (idToToken low_tok) (Num 1) = Some UNK.
Proof.
  assert (ND : NoDup (specialTokens fresh)).
  { repeat (constructor; [simpl; intuition discriminate|]). constructor. }
  split; [exact ND|].
  pose proof (trained_vocabulary_is_bijection ascii_lower fresh low_corpus 2 5 ND)
    as (S & _).
  exact (S 1%nat UNK eq_refl).
Defined.

(** A tokenizer built with the special token '<A>' declared twice. *)
Definition twice_options : options :=
  {| opt_lower := true;
     opt_specialTokens := [js "<A>"; js "<A>"];
     opt_merges := [];
     opt_vocab := [] |}.

Definition twice_tok : tokenizer :=
  trainFromText ascii_lower (new_BPE_Tokenizer decimal_StringToNumber twice_options)
    (js "a") 2 10.

(** C6 as stated fails when a special token is declared twice: the first
    special token does not hold id 0, and the ids 0 and 1 both stand for it,
    so the tables are no bijection. *)
Lemma twice_declared_special_counterexample :
  nth_error (specialTokens twice_tok) 0 = Some (js "<A>") /\
  Map.get (tokenToId twice_tok) (js "<A>") = Some (JNum (Num 1)) /\
  Map.get (idToToken twice_tok) (Num 0) = Some (js "<A>") /\
  Map.get (idToToken twice_tok) (Num 1) = Some (js "<A>") /\
  ~ (forall i st, nth_error (specialTokens twice_tok) i = Some st ->
       Map.get (tokenToId twice_tok) st = Some (JNum (Num (Z.of_nat i)))) /\
  ~ (forall k1 k2 tok,
       Map.get (idToToken twice_tok) k1 = Some tok ->
       Map.get (idToToken twice_tok) k2 = Some tok -> k1 = k2).
Proof.
  split; [reflexivity|]. split; [reflexivity|]. split; [reflexivity|].
  split; [reflexivity|]. split.
  - intros A. specialize (A 0%nat (js "<A>") eq_refl). discriminate A.
  - intros A. specialize (A (Num 0) (Num 1) (js "<A>") eq_refl eq_refl).
    discriminate A.
Qed.

(** ** Enumeration of an object's properties *)

Lemma insert_index_perm : forall e l,
  Permutation (Obj.insert_index e l) (e :: l).
Proof.
  intros e. induction l as [|e' l IH]; simpl; [apply Permutation_refl|].
  destruct (fst e <=? fst e'); [apply Permutation_refl|].
  eapply perm_trans; [apply perm_skip; exact IH | apply perm_swap].
Qed.

Lemma sort_index_perm : forall l, Permutation (Obj.sort_index l) l.
Proof.
  induction l as [|e l IH]; simpl; [constructor|].
  eapply perm_trans; [apply insert_index_perm | apply perm_skip; exact IH].
Qed.

Lemma index_props_partition : forall o : Obj.t,
  Permutation
    (map snd (Obj.index_props o)
     ++ filter (fun e => negb (Obj.is_index (fst e))) o) o.
Proof.
  induction o as [|[k v] o IH]; simpl; [constructor|].
  unfold Obj.is_index. simpl. destruct (array_index k) as [i|]; simpl.
  - apply perm_skip. exact IH.
  - apply Permutation_sym. apply Permutation_cons_app.
    apply Permutation_sym. exact IH.
Qed.

Lemma entries_perm : forall o : Obj.t, Permutation (Obj.entries o) o.
Proof.
  intros o. unfold Obj.entries.
  eapply perm_trans; [|apply index_props_partition].
  apply Permutation_app_tail. apply Permutation_map. apply sort_index_perm.
Qed.

Section TableEq.
Context {K V : Type} `{EqKey K}.

(** Two tables without repeated keys that hold the same entries answer every
    lookup alike, whatever the order of their entries. *)
Lemma get_same_entries : forall (m m' : Map.t K V),
  NoDup (Map.keys m) -> NoDup (Map.keys m') ->
  (forall k v, In (k, v) m <-> In (k, v) m') ->
  forall k, Map.get m' k = Map.get m k.
Proof.
  intros m m' N N' Same k.
  destruct (Map.get m k) as [v|] eqn:G.
  - apply in_get_some; [exact N'|]. apply Same. apply get_some_in. exact G.
  - destruct (Map.get m' k) as [v'|] eqn:G'; [|reflexivity].
    apply get_some_in in G'. apply Same in G'.
    apply (in_get_some _ _ _ N) in G'. congruence.
Qed.

Lemma get_perm : forall (m m' : Map.t K V),
  NoDup (Map.keys m) -> Permutation m' m ->
  forall k, Map.get m' k = Map.get m k.
Proof.
  intros m m' N P. apply get_same_entries; [exact N | |].
  - unfold Map.keys. eapply Permutation_NoDup; [|exact N].
    apply Permutation_map. apply Permutation_sym. exact P.
  - intros k v. split; apply Permutation_in;
      [apply Permutation_sym; exact P | exact P].
Qed.

Lemma has_of_entries : forall (l : list (K * V)) k,
  In k (map fst l) -> Map.has (Map.of_entries l) k = true.
Proof.
  intros l k. unfold Map.of_entries.
  assert (A : forall (l : list (K * V)) (m : Map.t K V),
             Map.has m k = true ->
             Map.has (fold_left (fun m e => Map.set m (fst e) (snd e)) l m) k = true).
  { induction l0 as [|e l0 IH]; intros m Hm; simpl; [exact Hm|].
    apply IH. unfold Map.has in *. rewrite get_set.
    destruct (keqb (fst e) k); [reflexivity | exact Hm]. }
  generalize (@nil (K * V)). induction l as [|e l IH]; intros m I; simpl in *.
  - contradiction.
  - destruct I as [<-|I]; [|apply IH; exact I].
    apply A. unfold Map.has. rewrite get_set_same. reflexivity.
Qed.

End TableEq.

Lemma fold_left_eq : forall {A B : Type} (f g : A -> B -> A) (l : list B) (a : A),
  (forall x y, f x y = g x y) -> fold_left f l a = fold_left g l a.
Proof.
  intros A B f g. induction l as [|y l IH]; intros a E; simpl; [reflexivity|].
  rewrite E. apply IH. exact E.
Qed.

(** ** Saving and loading: claims C2 and C3 *)

Section HostFacts.
Variable normalizeLower : str -> str.
Variable StringToNumber : str -> jsnum.

(** Two tokenizers that [encode] and [decode] cannot tell apart. *)
Definition same_tables (T T' : tokenizer) : Prop :=
  lower T' = lower T /\ specialTokens T' = specialTokens T /\
  merges T' = merges T /\
  (forall tok, Map.get (tokenToId T') tok = Map.get (tokenToId T) tok) /\
  (forall id, Map.get (idToToken T') id = Map.get (idToToken T) id).

Lemma same_tables_encode : forall T T' text addBosEos keepSpaces,
  same_tables T T' ->
  encode normalizeLower T' text addBosEos keepSpaces
  = encode normalizeLower T text addBosEos keepSpaces.
Proof.
  intros T T' text bos ks (El & _ & Em & Et & _).
  unfold encode, tokenize. rewrite El, Em, !Et.
  rewrite (fold_left_eq (encode_piece T' ks) (encode_piece T ks)); [reflexivity|].
  intros ids p. unfold encode_piece. rewrite !Et. reflexivity.
Qed.

Lemma same_tables_decode : forall T T' ids skipSpecials,
  same_tables T T' ->
  decode StringToNumber T' ids skipSpecials = decode StringToNumber T ids skipSpecials.
Proof.
  intros T T' ids skip (_ & Es & _ & _ & Ei).
  unfold decode. f_equal. apply fold_left_eq.
  intros parts idRaw. rewrite Ei, Es. reflexivity.
Qed.

Lemma json_value_id : forall l : list (str * jsval),
  (forall k v, In (k, v) l -> exists id, v = JNum (Num id)) ->
  map (fun e => (fst e, json_value (snd e))) l = l.
Proof.
  induction l as [|[k v] l IH]; intros A; simpl; [reflexivity|].
  destruct (A k v (or_introl eq_refl)) as (id & ->). simpl.
  f_equal. apply IH. intros k' v' I. apply (A k' v'). right. exact I.
Qed.

Lemma load_fields : forall Tl obj,
  lower (load StringToNumber Tl obj) = meta_lower obj /\
  specialTokens (load StringToNumber Tl obj) = meta_specialTokens obj /\
  merges (load StringToNumber Tl obj) = art_merges obj.
Proof.
  intros Tl obj. unfold load. cbn [lower specialTokens merges].
  match goal with
  | |- context [_initSpecials ?T0] =>
      destruct (initSpecials_fields T0) as (F1 & F2 & _ & _); rewrite F1, F2
  end.
  auto.
Qed.

(** What [load] makes of the saved tables of a tokenizer whose vocabulary is
    consistent. *)
Lemma load_save_tables : forall T Tl,
  vocab_ok T ->
  same_tables T (load StringToNumber Tl (json_roundtrip (save T))).
Proof.
  intros T Tl (n & _ & _ & A & B & N1 & N2).
  assert (Val : forall l, Permutation l (tokenToId T) ->
                  forall k v, In (k, v) l -> exists id, v = JNum (Num id)).
  { intros l P k v I. apply (Permutation_in _ P) in I.
    apply (in_get_some _ _ _ N1) in I.
    destruct (A k v I) as (id & -> & _). exists id. reflexivity. }
  assert (ND : forall l : list (str * jsval),
                 Permutation l (tokenToId T) -> NoDup (map fst l)).
  { intros l P. eapply Permutation_NoDup; [|exact N1].
    apply Permutation_map. apply Permutation_sym. exact P. }
  (* the object written by save *)
  assert (E0 : Obj.fromEntries (tokenToId T) = tokenToId T).
  { unfold Obj.fromEntries. apply of_entries_nodup. exact N1. }
  pose proof (entries_perm (tokenToId T)) as P1.
  (* the object read back *)
  assert (E1 : vocab (json_roundtrip (save T)) = Obj.entries (tokenToId T)).
  { unfold json_roundtrip, save. cbn [vocab].
    rewrite E0, (json_value_id _ (Val _ P1)).
    unfold Obj.fromEntries. apply of_entries_nodup. apply ND. exact P1. }
  pose proof (entries_perm (Obj.entries (tokenToId T))) as P2.
  pose proof (perm_trans P2 P1) as P3.
  assert (E2 : tokenToId (load StringToNumber Tl (json_roundtrip (save T)))
               = Obj.entries (Obj.entries (tokenToId T))).
  { unfold load. cbn [tokenToId]. rewrite E1.
    apply of_entries_nodup. apply ND. exact P3. }
  set (t2i := Obj.entries (Obj.entries (tokenToId T))) in *.
  assert (Sw : NoDup (map fst (map (fun e : str * jsval =>
                                      (ToNumber StringToNumber (Some (snd e)), fst e)) t2i))).
  { rewrite map_map. simpl. apply NoDup_map_NoDup_ForallPairs.
    - intros [k1 v1] [k2 v2] I1 I2 E. simpl in E.
      apply (Permutation_in _ P3) in I1. apply (Permutation_in _ P3) in I2.
      apply (in_get_some _ _ _ N1) in I1. apply (in_get_some _ _ _ N1) in I2.
      destruct (A k1 v1 I1) as (id1 & -> & _ & G1).
      destruct (A k2 v2 I2) as (id2 & -> & _ & G2).
      simpl in E. rewrite E in G1. congruence.
    - eapply NoDup_map_inv. apply ND. exact P3. }
  assert (E3 : idToToken (load StringToNumber Tl (json_roundtrip (save T)))
               = map (fun e : str * jsval =>
                        (ToNumber StringToNumber (Some (snd e)), fst e)) t2i).
  { unfold load. cbn [idToToken]. fold t2i in E2. unfold load in E2.
    cbn [tokenToId] in E2. rewrite E2. apply of_entries_nodup. exact Sw. }
  destruct (load_fields Tl (json_roundtrip (save T))) as (F1 & F2 & F3).
  unfold same_tables. rewrite E2, E3, F1, F2, F3.
  split; [reflexivity|]. split; [reflexivity|]. split; [reflexivity|]. split.
  - apply get_perm; [exact N1 | exact P3].
  - apply get_same_entries; [exact N2 | exact Sw |].
    intros k tok. rewrite in_map_iff. split.
    + intros I. apply (in_get_some _ _ _ N2) in I.
      destruct (B k tok I) as (id & -> & _ & G).
      exists (tok, JNum (Num id)). split; [reflexivity|].
      apply (Permutation_in _ (Permutation_sym P3)). apply get_some_in. exact G.
    + intros ([tok' v] & E & I). simpl in E. injection E as <- ->.
      apply (Permutation_in _ P3) in I. apply (in_get_some _ _ _ N1) in I.
      destruct (A tok v I) as (id & -> & _ & G). simpl.
      apply get_some_in. exact G.
Qed.

(** C2 (amended).  For every trained tokenizer [T] whose special tokens are
    pairwise distinct, [load] of what [save] wrote gives a tokenizer with the
    same flag, special tokens and merge table, whose two tables answer every
    lookup as those of [T] do, and whose [encode] and [decode] return what
    those of [T] return on every text, every id sequence and every setting of
    the options. *)
Theorem load_save_same_encode_decode :
  forall T0 Tl corpus minFrequency mergeOps,
  NoDup (specialTokens T0) ->
  let T := trainFromText normalizeLower T0 corpus minFrequency mergeOps in
  let T' := load StringToNumber Tl (json_roundtrip (save T)) in
  same_tables T T' /\
  (forall text addBosEos keepSpaces,
     encode normalizeLower T' text addBosEos keepSpaces
     = encode normalizeLower T text addBosEos keepSpaces) /\
  (forall ids skipSpecials,
     decode StringToNumber T' ids skipSpecials
     = decode StringToNumber T ids skipSpecials).
Proof.
  intros T0 Tl corpus minF ops ND T T'.
  destruct (trainFromText_ok normalizeLower T0 corpus minF ops ND) as (V & _).
  pose proof (load_save_tables T Tl V) as S. fold T' in S.
  split; [exact S|]. split.
  - intros text bos ks. apply same_tables_encode. exact S.
  - intros ids skip. apply same_tables_decode. exact S.
Qed.

(** C3 fails on the code, which the constructor (lines 33-39) contradicts:
    [load] does not skip an entry of [vocab] whose id is not numeric.  For
    every artifact and every such entry, the token stays in the token-to-id
    table with its raw value, and the id-to-token table gets the key [NaN]. *)
Theorem load_keeps_malformed_ids : forall Tl obj tok v,
  NoDup (Map.keys (vocab obj)) ->
  Map.get (vocab obj) tok = Some v ->
  ToNumber StringToNumber (Some v) = NaN ->
  Map.get (tokenToId (load StringToNumber Tl obj)) tok = Some v /\
  Map.has (idToToken (load StringToNumber Tl obj)) NaN = true.
Proof.
  intros Tl obj tok v ND G E.
  pose proof (entries_perm (vocab obj)) as P.
  assert (ND' : NoDup (map fst (Obj.entries (vocab obj)))).
  { eapply Permutation_NoDup; [|exact ND].
    apply Permutation_map. apply Permutation_sym. exact P. }
  assert (Et : tokenToId (load StringToNumber Tl obj) = Obj.entries (vocab obj)).
  { unfold load. cbn [tokenToId]. apply of_entries_nodup. exact ND'. }
  split.
  - rewrite Et. rewrite (get_perm (vocab obj) _ ND P). exact G.
  - unfold load in *. cbn [idToToken tokenToId] in *. rewrite Et.
    apply has_of_entries. rewrite map_map. simpl.
    apply in_map_iff. exists (tok, v). split; [exact E|].
    apply (Permutation_in _ (Permutation_sym P)). apply get_some_in. exact G.
Qed.

Lemma init_fold_ids : forall l (t2i : Map.t str jsval) (i2t : Map.t jsnum str) n,
  Map.get i2t NaN = None ->
  Map.get (snd (fst (fold_left init_step l (t2i, i2t, n)))) NaN = None.
Proof.
  induction l as [|st l IH]; intros t2i i2t n G; [exact G|].
  cbn [fold_left init_step]. apply IH.
  rewrite get_set_other; [exact G | discriminate].
Qed.

(** The sibling path: the constructor skips every entry of [vocab] whose id
    is not numeric. *)
Lemma constructor_skips_malformed_ids : forall opts tok,
  (forall v, In (tok, v) (opt_vocab opts) -> ToNumber StringToNumber (Some v) = NaN) ->
  ~ In tok (opt_specialTokens opts) ->
  Map.get (tokenToId (new_BPE_Tokenizer StringToNumber opts)) tok = None /\
  Map.get (idToToken (new_BPE_Tokenizer StringToNumber opts)) NaN = None.
Proof.
  intros opts tok Bad NS. unfold new_BPE_Tokenizer.
  assert (Bad' : forall e, In e (Obj.entries (opt_vocab opts)) -> fst e = tok ->
                   ToNumber StringToNumber (Some (snd e)) = NaN).
  { intros [k v] I E. simpl in E. subst k. apply Bad.
    apply (Permutation_in _ (entries_perm (opt_vocab opts))). exact I. }
  revert Bad'. generalize (Obj.entries (opt_vocab opts)). clear Bad.
  match goal with
  | |- context [_initSpecials ?T0] =>
      assert (I0 : Map.get (tokenToId (_initSpecials T0)) tok = None /\
                   Map.get (idToToken (_initSpecials T0)) NaN = None);
      [|generalize dependent (_initSpecials T0)]
  end.
  { unfold _initSpecials. cbn [specialTokens].
    pose proof (init_fold_keys (opt_specialTokens opts) [] [] 0 tok) as K.
    pose proof (init_fold_ids (opt_specialTokens opts) [] [] 0 eq_refl) as N.
    match type of N with
    | context [fold_left init_step ?l ?a] =>
        repeat match goal with
        | |- context [fold_left init_step ?l' ?a'] =>
            progress change (fold_left init_step l' a') with (fold_left init_step l a)
        end;
        destruct (fold_left init_step l a) as [[t2i i2t] idx]
    end.
    cbn [tokenToId idToToken fst snd] in *. split; [|exact N].
    apply get_none_not_in. intros I. destruct (K I) as [F|F]; [destruct F | exact (NS F)]. }
  intros T [G1 G2] l. revert T G1 G2.
  induction l as [|e l IH]; intros T G1 G2 Bad; [split; assumption|].
  cbn [fold_left].
  destruct (ToNumber StringToNumber (Some (snd e))) as [z| |] eqn:E.
  - apply IH; cbn [tokenToId idToToken].
    + rewrite get_set_other; [exact G1|]. intros F.
      rewrite (Bad e (or_introl eq_refl) F) in E. discriminate E.
    + rewrite get_set_other; [exact G2 | discriminate].
    + intros e' I. apply Bad. right. exact I.
  - apply IH; [exact G1 | exact G2 |]. intros e' I. apply Bad. right. exact I.
  - apply IH; cbn [tokenToId idToToken].
    + rewrite get_set_other; [exact G1|]. intros F.
      rewrite (Bad e (or_introl eq_refl) F) in E. discriminate E.
    + rewrite get_set_other; [exact G2 | discriminate].
    + intros e' I. apply Bad. right. exact I.
Qed.

End HostFacts.

Lemma load_save_same_encode_decode_witness :
  NoDup (specialTokens fresh) /\
  (forall text addBosEos keepSpaces,
     encode ascii_lower
       (load decimal_StringToNumber fresh (json_roundtrip (save low_tok)))
       text addBosEos keepSpaces
     = encode ascii_lower low_tok text addBosEos keepSpaces).
Proof.
  assert (ND : NoDup (specialTokens fresh)).
  { repeat (constructor; [simpl; intuition discriminate|]). constructor. }
  split; [exact ND|].
  exact (proj1 (proj2 (load_save_same_encode_decode ascii_lower
                         decimal_StringToNumber fresh fresh low_corpus 2 5 ND))).
Defined.

(** C2 as stated fails when a special token is declared twice: [T] decodes
    id 0 to the special token '<A>', which is skipped; after [save] and
    [load] id 0 is unknown and decodes to the text '<UNK>'. *)
Lemma load_save_repeated_special_counterexample :
  decode decimal_StringToNumber twice_tok [Some (JNum (Num 0))] true = [] /\
  decode decimal_StringToNumber
    (load decimal_StringToNumber fresh (json_roundtrip (save twice_tok)))
    [Some (JNum (Num 0))] true = UNK /\
  decode decimal_StringToNumber
    (load decimal_StringToNumber fresh (json_roundtrip (save twice_tok)))
    [Some (JNum (Num 0))] true
  <> decode decimal_StringToNumber twice_tok [Some (JNum (Num 0))] true.
Proof.
  split; [reflexivity|]. split; [reflexivity|]. vm_compute. discriminate.
Qed.

(** An artifact whose entry for "x" holds the string "abc" instead of an id. *)
Definition malformed_artifact : artifact :=
  {| meta_lower := true;
     meta_specialTokens := [PAD; UNK; BOS; EOS; SEP];
     vocab := [(PAD, JNum (Num 0)); (UNK, JNum (Num 1)); (BOS, JNum (Num 2));
               (EOS, JNum (Num 3)); (SEP, JNum (Num 4));
               (js "x", JStr (js "abc"))];
     art_merges := [] |}.

Lemma load_keeps_malformed_ids_witness :
  NoDup (Map.keys (vocab malformed_artifact)) /\
  Map.get (vocab malformed_artifact) (js "x") = Some (JStr (js "abc")) /\
  ToNumber decimal_StringToNumber (Some (JStr (js "abc"))) = NaN /\
  Map.get (tokenToId (load decimal_StringToNumber fresh malformed_artifact)) (js "x")
  = Some (JStr (js "abc")) /\
  Map.has (idToToken (load decimal_StringToNumber fresh malformed_artifact)) NaN = true.
Proof.
  assert (ND : NoDup (Map.keys (vocab malformed_artifact))).
  { repeat (constructor; [simpl; intuition discriminate|]). constructor. }
  split; [exact ND|]. split; [reflexivity|]. split; [reflexivity|].
  exact (load_keeps_malformed_ids decimal_StringToNumber fresh malformed_artifact
           (js "x") (JStr (js "abc")) ND eq_refl eq_refl).
Defined.

(** The constructor, given the same [vocab], skips the entry; [load] leaves
    [nextId] at [NaN]. *)
Lemma constructor_skips_malformed_id :
  let opts := {| opt_lower := true;
                 opt_specialTokens := [PAD; UNK; BOS; EOS; SEP];
                 opt_merges := [];
                 opt_vocab := vocab malformed_artifact |} in
  Map.get (tokenToId (new_BPE_Tokenizer decimal_StringToNumber opts)) (js "x") = None /\
  Map.get (idToToken (new_BPE_Tokenizer decimal_StringToNumber opts)) NaN = None /\
  Map.get (idToToken (load decimal_StringToNumber fresh malformed_artifact)) NaN
  = Some (js "x") /\
  nextId (load decimal_StringToNumber fresh malformed_artifact) = NaN.
Proof. repeat split. Qed.

(** ** Text cut at whitespace *)

Definition no_ws (w : str) : bool := forallb (fun c => negb (is_ws c)) w.

(** A field of [split(/(\s+)/)] is a whitespace run or holds no whitespace. *)
Definition field_shape (w : str) : Prop := is_ws_run w = true \/ no_ws w = true.

Lemma split_ws_keep_inv : forall s,
  concat (split_ws_keep s) = s /\
  Forall field_shape (split_ws_keep s) /\
  (exists h t, split_ws_keep s = h :: t /\ no_ws h = true) /\
  (forall d s', s = d :: s' -> is_ws d = true ->
     exists run rest, split_ws_keep s = [] :: run :: rest /\ is_ws_run run = true).
Proof.
  induction s as [|c s (IC & IF & (h & t & IE & IH) & IW)].
  - simpl. split; [reflexivity|]. split; [repeat constructor; right; reflexivity|].
    split; [exists [], []; split; reflexivity | intros d s' E; discriminate E].
  - cbn [split_ws_keep]. destruct (is_ws c) eqn:Wc.
    + destruct s as [|d s''].
      * simpl. split; [reflexivity|]. split.
        -- constructor; [right; reflexivity|]. constructor.
           ++ left. simpl. rewrite Wc. reflexivity.
           ++ constructor; [right; reflexivity | constructor].
        -- split; [exists [], [[c]; []]; split; reflexivity|].
           intros d s' E _. exists [c], [[]]. split; [reflexivity|].
           simpl. rewrite Wc. reflexivity.
      * destruct (is_ws d) eqn:Wd.
        -- destruct (IW d s'' eq_refl Wd) as (run & rest & E & R).
           rewrite E in *. simpl in IC.
           inversion IF as [|? ? _ IF']; subst. inversion IF' as [|? ? _ IF'']; subst.
           assert (R' : is_ws_run (c :: run) = true).
           { destruct run as [|r run]; [discriminate R|].
             simpl in *. rewrite Wc. exact R. }
           split; [simpl; rewrite IC; reflexivity|]. split.
           ++ constructor; [right; reflexivity|].
              constructor; [left; exact R' | exact IF''].
           ++ split; [exists [], ((c :: run) :: rest); split; reflexivity|].
              intros d' s' _ _. exists (c :: run), rest. split; [reflexivity | exact R'].
        -- split; [cbn [concat app]; rewrite IC; reflexivity|]. split.
           ++ constructor; [right; reflexivity|].
              constructor; [left; simpl; rewrite Wc; reflexivity | exact IF].
           ++ split; [exists [], ([c] :: split_ws_keep (d :: s'')); split; reflexivity|].
              intros d' s' _ _. exists [c], (split_ws_keep (d :: s'')).
              split; [reflexivity | simpl; rewrite Wc; reflexivity].
    + rewrite IE in *. simpl in IC.
      pose proof (Forall_inv_tail IF) as IF'.
      assert (N : no_ws (c :: h) = true) by (simpl; rewrite Wc; exact IH).
      split; [simpl; rewrite IC; reflexivity|]. split.
      * constructor; [right; exact N | exact IF'].
      * split; [exists (c :: h), t; split; [reflexivity | exact N]|].
        intros d s' E W. injection E as <- _. congruence.
Qed.

(** The words of a text: the fields that [tokenize] hands to
    [_applyBPEToWord]. *)
Definition words_of (src : str) : list str :=
  filter (fun w => negb (is_ws_run w) && negb (length w =? 0)%nat)
    (split_ws_keep src).

Lemma ws_run_filter : forall w,
  is_ws_run w = true -> filter (fun c => negb (is_ws c)) w = [].
Proof.
  intros w R. destruct w as [|c w]; [reflexivity|].
  unfold is_ws_run in R. induction (c :: w) as [|x l IH]; [reflexivity|].
  simpl in *. apply andb_true_iff in R. destruct R as [Wx R].
  rewrite Wx. simpl. apply IH. exact R.
Qed.

Lemma no_ws_filter : forall w,
  no_ws w = true -> filter (fun c => negb (is_ws c)) w = w.
Proof.
  induction w as [|c w IH]; intros N; simpl in *; [reflexivity|].
  apply andb_true_iff in N. destruct N as [Nc N]. rewrite Nc.
  f_equal. apply IH. exact N.
Qed.

Lemma no_ws_not_run : forall w, w <> [] -> no_ws w = true -> is_ws_run w = false.
Proof.
  intros [|c w] N H; [congruence|]. simpl in *.
  apply andb_true_iff in H. destruct H as [Hc _].
  destruct (is_ws c); [discriminate | reflexivity].
Qed.

(** The words, put end to end, are the text without its whitespace. *)
Lemma concat_words_of : forall src,
  concat (words_of src) = filter (fun c => negb (is_ws c)) src.
Proof.
  intros src. destruct (split_ws_keep_inv src) as (C & F & _ & _).
  unfold words_of. rewrite <- C at 2. clear C.
  induction F as [|w l Sh F IH]; [reflexivity|].
  cbn [filter concat]. rewrite filter_app, <- IH.
  destruct Sh as [R|N].
  - rewrite R. simpl. rewrite (ws_run_filter _ R). reflexivity.
  - destruct w as [|c w]; [reflexivity|].
    rewrite (no_ws_not_run (c :: w)) by (discriminate || exact N).
    simpl negb. cbn [andb length Nat.eqb negb concat].
    rewrite (no_ws_filter _ N). reflexivity.
Qed.

(** ** Pieces that survive the merge loop *)

Lemma merged_at_nonempty : forall pieces pos pieces',
  merged_at pieces pos pieces' ->
  Forall (fun p => p <> []) pieces -> Forall (fun p => p <> []) pieces'.
Proof.
  intros pieces pos pieces' (pre & p & q & post & -> & _ & ->) F.
  apply Forall_app in F. destruct F as [F1 F2].
  inversion F2 as [|? ? Hp F3]; subst. inversion F3 as [|? ? Hq F4]; subst.
  apply Forall_app. split; [exact F1|]. constructor; [|exact F4].
  destruct p; [congruence | discriminate].
Qed.

Lemma while_loop_nonempty : forall mm pieces n out,
  while_loop mm pieces n out ->
  Forall (fun p => p <> []) pieces -> Forall (fun p => p <> []) out.
Proof.
  intros mm pieces n out W.
  induction W as [pieces F | pieces pos r n out F W IH]; intros N; [exact N|].
  apply IH. apply (merged_at_nonempty _ _ _ (find_best_merged _ _ _ _ F) N).
Qed.

Lemma wordToChars_nonempty : forall w, Forall (fun p => p <> []) (_wordToChars w).
Proof.
  intros w. unfold _wordToChars.
  pose proof (Array_from_code_points w) as CP.
  destruct (Array_from w) as [|c0 chars]; [constructor|].
  inversion CP as [|? ? _ CP']; subst. constructor; [discriminate|].
  eapply Forall_impl; [|exact CP']. intros p. apply code_point_not_nil.
Qed.

Lemma applyBPE_nonempty : forall ms w,
  Forall (fun p => p <> []) (_applyBPEToWord ms w).
Proof.
  intros ms w. destruct (applyBPE_while ms w) as (n & W & _).
  apply (while_loop_nonempty _ _ _ _ W). apply wordToChars_nonempty.
Qed.

(** What [decode] does to a token when it joins the parts. *)
Definition strip (p : str) : str := if startsWith_MARK p then slice1 p else p.

Lemma strip_no_marker : forall l,
  Forall (fun p => p <> []) l -> ~ In MARK (concat l) ->
  flat_map strip l = concat l.
Proof.
  induction l as [|p l IH]; intros N NM; [reflexivity|].
  inversion N as [|? ? Np N']; subst. simpl in *.
  rewrite IH; [|exact N' | intros F; apply NM; apply in_or_app; right; exact F].
  f_equal. destruct p as [|c p]; [congruence|].
  unfold strip. simpl. destruct (c =? MARK) eqn:E; [|reflexivity].
  apply Z.eqb_eq in E. elim NM. left. exact E.
Qed.

(** The pieces of a word without the marker character, once stripped, give
    the word back. *)
Lemma strip_applyBPE : forall ms w,
  w <> [] -> ~ In MARK w -> flat_map strip (_applyBPEToWord ms w) = w.
Proof.
  intros ms w N NM.
  pose proof (applyBPE_preserves_concat ms w N) as C.
  pose proof (applyBPE_nonempty ms w) as NE.
  destruct (_applyBPEToWord ms w) as [|p l]; [discriminate C|].
  inversion NE as [|? ? Np NE']; subst.
  destruct p as [|c p]; [congruence|].
  simpl in C. injection C as -> C.
  cbn [flat_map]. unfold strip at 1. simpl.
  rewrite strip_no_marker; [exact C | exact NE' |].
  intros F. apply NM. rewrite <- C. apply in_or_app. right. exact F.
Qed.

Lemma applyBPE_not_ws_run : forall ms w p,
  no_ws w = true -> In p (_applyBPEToWord ms w) -> is_ws_run p = false.
Proof.
  intros ms w p NW I.
  destruct w as [|c0 w0].
  - unfold _applyBPEToWord in I. simpl in I. contradiction.
  - pose proof (applyBPE_preserves_concat ms (c0 :: w0) ltac:(discriminate)) as C.
    pose proof (applyBPE_nonempty ms (c0 :: w0)) as NE.
    rewrite Forall_forall in NE. specialize (NE p I).
    destruct p as [|c p]; [congruence|].
    assert (Ic : In c (MARK :: c0 :: w0)).
    { rewrite <- C. apply in_concat. exists (c :: p). split; [exact I | left; reflexivity]. }
    simpl. replace (is_ws c) with false; [reflexivity|].
    destruct Ic as [<-|Ic]; [reflexivity|].
    unfold no_ws in NW. rewrite forallb_forall in NW.
    specialize (NW c Ic). destruct (is_ws c); [discriminate | reflexivity].
Qed.

(** ** [tokenize], [encode] and [decode] field by field *)

Lemma flat_map_flat_map : forall {A B C : Type} (f : B -> list C) (g : A -> list B) l,
  flat_map f (flat_map g l) = flat_map (fun x => flat_map f (g x)) l.
Proof.
  intros A B C f g. induction l as [|x l IH]; simpl; [reflexivity|].
  rewrite flat_map_app, IH. reflexivity.
Qed.

Lemma flat_map_eq_in : forall {A B : Type} (f g : A -> list B) l,
  (forall x, In x l -> f x = g x) -> flat_map f l = flat_map g l.
Proof.
  intros A B f g. induction l as [|x l IH]; intros E; simpl; [reflexivity|].
  rewrite (E x (or_introl eq_refl)), IH; [reflexivity|].
  intros y I. apply E. right. exact I.
Qed.

(** The pieces one field of the text gives. *)
Definition field_pieces (ms : list (str * str)) (w : str) : list str :=
  if is_ws_run w then [w]
  else if (length w =? 0)%nat then []
  else _applyBPEToWord ms w.

Section Codec.
Variable normalizeLower : str -> str.
Variable StringToNumber : str -> jsnum.

Definition source (T : tokenizer) (text : str) : str :=
  if lower T then normalizeLower text else text.

Lemma tokenize_fields : forall T text,
  tokenize normalizeLower T text
  = flat_map (field_pieces (merges T)) (split_ws_keep (source T text)).
Proof.
  intros T text. unfold tokenize, source.
  generalize (split_ws_keep (if lower T then normalizeLower text else text)).
  assert (A : forall l out,
            fold_left
              (fun out w =>
                 if is_ws_run w then out ++ [w]
                 else if (length w =? 0)%nat then out
                 else out ++ _applyBPEToWord (merges T) w) l out
            = out ++ flat_map (field_pieces (merges T)) l).
  { induction l as [|w l IH]; intros out; simpl.
    - rewrite app_nil_r. reflexivity.
    - rewrite IH. unfold field_pieces.
      destruct (is_ws_run w); [rewrite <- app_assoc; reflexivity|].
      destruct (length w =? 0)%nat; [reflexivity|].
      rewrite <- app_assoc. reflexivity. }
  intros l. rewrite A. reflexivity.
Qed.

(** The ids one piece gives. *)
Definition piece_ids (T : tokenizer) (keepSpaces : bool) (p : str)
  : list (option jsval) :=
  encode_piece T keepSpaces [] p.

Lemma encode_piece_app : forall T ks ids p,
  encode_piece T ks ids p = ids ++ piece_ids T ks p.
Proof.
  intros T ks ids p. unfold piece_ids, encode_piece.
  destruct (is_ws_run p); [destruct ks|]; simpl; try reflexivity.
  rewrite app_nil_r. reflexivity.
Qed.

Lemma encode_pieces_fold : forall T ks pieces ids,
  fold_left (encode_piece T ks) pieces ids = ids ++ flat_map (piece_ids T ks) pieces.
Proof.
  intros T ks. induction pieces as [|p l IH]; intros ids; simpl.
  - rewrite app_nil_r. reflexivity.
  - rewrite IH, encode_piece_app, <- app_assoc. reflexivity.
Qed.

Lemma encode_no_markers : forall T text ks,
  encode normalizeLower T text false ks
  = flat_map (piece_ids T ks) (tokenize normalizeLower T text).
Proof.
  intros T text ks. unfold encode. rewrite encode_pieces_fold. reflexivity.
Qed.

(** The part one id gives. *)
Definition id_part (T : tokenizer) (skipSpecials : bool) (idRaw : option jsval)
  : list str :=
  let tok := match Map.get (idToToken T) (ToNumber StringToNumber idRaw) with
             | Some t => t
             | None => UNK
             end in
  if skipSpecials && includes (specialTokens T) tok then [] else [tok].

Lemma decode_parts : forall T ids skipSpecials,
  decode StringToNumber T ids skipSpecials
  = flat_map strip (flat_map (id_part T skipSpecials) ids).
Proof.
  intros T ids skip. unfold decode.
  assert (P : forall l parts,
            fold_left
              (fun parts idRaw =>
                 let id := ToNumber StringToNumber idRaw in
                 let tok := match Map.get (idToToken T) id with
                            | Some t => t
                            | None => UNK
                            end in
                 if skip && includes (specialTokens T) tok then parts
                 else parts ++ [tok]) l parts
            = parts ++ flat_map (id_part T skip) l).
  { induction l as [|i l IH]; intros parts; simpl.
    - rewrite app_nil_r. reflexivity.
    - rewrite IH. unfold id_part.
      destruct (skip && includes (specialTokens T) _); [reflexivity|].
      rewrite <- app_assoc. reflexivity. }
  assert (Q : forall l out,
            fold_left (fun out p => if startsWith_MARK p then out ++ slice1 p else out ++ p)
              l out
            = out ++ flat_map strip l).
  { induction l as [|p l IH]; intros out; simpl.
    - rewrite app_nil_r. reflexivity.
    - rewrite IH. unfold strip.
      destruct (startsWith_MARK p); rewrite <- app_assoc; reflexivity. }
  rewrite P, Q. reflexivity.
Qed.

End Codec.

(** ** Decoding what was encoded: claim C7 *)

(** Every entry of the token-to-id table holds an integer id under which the
    id-to-token table holds the token. *)
Definition decodes_back (T : tokenizer) : bool :=
  forallb
    (fun e : str * jsval =>
       match snd e with
       | JNum (Num id) =>
           match Map.get (idToToken T) (Num id) with
           | Some t => str_eqb t (fst e)
           | None => false
           end
       | _ => false
       end)
    (tokenToId T).

(** '<UNK>' is in the vocabulary and is a special token. *)
Definition unk_ready (T : tokenizer) : bool :=
  Map.has (tokenToId T) UNK && includes (specialTokens T) UNK.

(** A piece that [decode] gives back: a piece of a word is in the vocabulary
    and is not a special token; for a whitespace run, '<SPACE>n' is not in the
    vocabulary, or is a special token. *)
Definition piece_ok (T : tokenizer) (p : str) : bool :=
  if is_ws_run p then
    match Map.get (tokenToId T) (space_key p) with
    | None => true
    | Some _ => includes (specialTokens T) (space_key p)
    end
  else Map.has (tokenToId T) p && negb (includes (specialTokens T) p).

Lemma decodes_back_get : forall T tok v,
  decodes_back T = true -> Map.get (tokenToId T) tok = Some v ->
  exists id, v = JNum (Num id) /\ Map.get (idToToken T) (Num id) = Some tok.
Proof.
  intros T tok v D G. unfold decodes_back in D. rewrite forallb_forall in D.
  specialize (D (tok, v) (get_some_in _ _ _ G)). simpl in D.
  destruct v as [[id| |]| | |]; try discriminate.
  destruct (Map.get (idToToken T) (Num id)) as [t|] eqn:G'; [|discriminate].
  apply str_eqb_eq in D. subst t. exists id. split; [reflexivity | exact G'].
Qed.

Lemma vocab_ok_decodes_back : forall T, vocab_ok T -> decodes_back T = true.
Proof.
  intros T (n & _ & _ & A & _ & N1 & _). unfold decodes_back.
  apply forallb_forall. intros [tok v] I. simpl.
  apply (in_get_some _ _ _ N1) in I.
  destruct (A tok v I) as (id & -> & _ & G). rewrite G. apply str_eqb_refl.
Qed.

Section RoundTrip.
Variable normalizeLower : str -> str.
Variable StringToNumber : str -> jsnum.

(** What a piece leaves in the decoded text. *)
Definition piece_text (T : tokenizer) (keepSpaces : bool) (p : str) : str :=
  flat_map strip (flat_map (id_part StringToNumber T true) (piece_ids T keepSpaces p)).

Lemma special_id_part : forall T v tok,
  decodes_back T = true ->
  Map.get (tokenToId T) tok = Some v ->
  includes (specialTokens T) tok = true ->
  id_part StringToNumber T true (nullish (Some v) (Map.get (tokenToId T) UNK)) = [].
Proof.
  intros T v tok D G S.
  destruct (decodes_back_get T tok v D G) as (id & -> & G').
  unfold id_part. simpl. rewrite G', S. reflexivity.
Qed.

Lemma ws_piece_text : forall T ks p,
  decodes_back T = true -> unk_ready T = true ->
  is_ws_run p = true -> piece_ok T p = true ->
  piece_text T ks p = [].
Proof.
  intros T ks p D U W OK. unfold piece_text, piece_ids, encode_piece.
  rewrite W. destruct ks; [|reflexivity].
  unfold piece_ok in OK. rewrite W in OK.
  unfold unk_ready in U. apply andb_true_iff in U. destruct U as [HU SU].
  assert (E : id_part StringToNumber T true
                (nullish (Map.get (tokenToId T) (space_key p))
                         (Map.get (tokenToId T) UNK)) = []).
  { destruct (Map.get (tokenToId T) (space_key p)) as [v|] eqn:G.
    - apply (special_id_part T v (space_key p) D G OK).
    - unfold Map.has in HU.
      destruct (Map.get (tokenToId T) UNK) as [u|] eqn:GU; [|discriminate].
      destruct (decodes_back_get T UNK u D GU) as (id & -> & G').
      unfold id_part. simpl. rewrite G', SU. reflexivity. }
  cbn [app flat_map]. rewrite E. reflexivity.
Qed.

Lemma word_piece_text : forall T ks p,
  decodes_back T = true ->
  is_ws_run p = false -> piece_ok T p = true ->
  piece_text T ks p = strip p.
Proof.
  intros T ks p D W OK. unfold piece_text, piece_ids, encode_piece.
  rewrite W. unfold piece_ok in OK. rewrite W in OK.
  apply andb_true_iff in OK. destruct OK as [H S].
  unfold Map.has in H.
  destruct (Map.get (tokenToId T) p) as [v|] eqn:G; [|discriminate].
  destruct (decodes_back_get T p v D G) as (id & -> & G').
  cbn [flat_map app nullish]. unfold id_part. simpl ToNumber. rewrite G'.
  apply negb_true_iff in S. rewrite S. simpl. rewrite !app_nil_r. reflexivity.
Qed.

Lemma decode_encode_fields : forall T text ks,
  decode StringToNumber T (encode normalizeLower T text false ks) true
  = flat_map (fun w => flat_map (piece_text T ks) (field_pieces (merges T) w))
      (split_ws_keep (source normalizeLower T text)).
Proof.
  intros T text ks.
  rewrite decode_parts, encode_no_markers, tokenize_fields.
  rewrite (flat_map_flat_map (id_part StringToNumber T true) (piece_ids T ks)).
  rewrite (flat_map_flat_map strip
             (fun p => flat_map (id_part StringToNumber T true) (piece_ids T ks p))).
  change (fun p => flat_map strip
                     (flat_map (id_part StringToNumber T true) (piece_ids T ks p)))
    with (piece_text T ks).
  apply flat_map_flat_map.
Qed.

(** C7 (amended).  On a tokenizer whose token-to-id entries decode back and
    for which '<UNK>' is a special token of the vocabulary, for every text
    that, once normalised, holds no marker character U+2581, whose pieces are
    all in the vocabulary and are no special tokens, and whose whitespace
    tokens '<SPACE>n' are not learned tokens: [decode(encode(text,
    {addBosEos: false}))] is the in-order concatenation of the words of the
    normalised text, that is the normalised text without its whitespace.
    Whitespace runs of any length are allowed. *)
Theorem decode_encode_keeps_words : forall T text keepSpaces,
  decodes_back T = true ->
  unk_ready T = true ->
  forallb (piece_ok T) (tokenize normalizeLower T text) = true ->
  ~ In MARK (source normalizeLower T text) ->
  decode StringToNumber T (encode normalizeLower T text false keepSpaces) true
  = concat (words_of (source normalizeLower T text)) /\
  concat (words_of (source normalizeLower T text))
  = filter (fun c => negb (is_ws c)) (source normalizeLower T text).
Proof.
  intros T text ks D U OK NM. split; [|apply concat_words_of].
  rewrite decode_encode_fields. rewrite tokenize_fields in OK.
  rewrite forallb_forall in OK.
  destruct (split_ws_keep_inv (source normalizeLower T text)) as (C & F & _ & _).
  unfold words_of. rewrite <- C in NM.
  assert (OK' : forall w, In w (split_ws_keep (source normalizeLower T text)) ->
                  forall p, In p (field_pieces (merges T) w) -> piece_ok T p = true).
  { intros w Iw p Ip. apply OK. apply in_flat_map. exists w. auto. }
  clear OK C. revert F NM OK'.
  generalize (split_ws_keep (source normalizeLower T text)).
  induction l as [|w l IH]; intros F NM OK; [reflexivity|].
  inversion F as [|? ? Sh F']; subst.
  cbn [flat_map filter]. rewrite IH; [|exact F' | |].
  - assert (Ew : flat_map (piece_text T ks) (field_pieces (merges T) w)
                 = if negb (is_ws_run w) && negb (length w =? 0)%nat then w else []).
    { unfold field_pieces. destruct Sh as [R|N].
      - rewrite R. cbn [flat_map negb andb]. rewrite app_nil_r.
        apply (ws_piece_text T ks w D U R).
        apply (OK w (or_introl eq_refl)). unfold field_pieces. rewrite R. left. reflexivity.
      - destruct w as [|c w]; [reflexivity|].
        rewrite (no_ws_not_run (c :: w)) by (discriminate || exact N).
        cbn [length Nat.eqb negb andb].
        rewrite (flat_map_eq_in _ strip).
        + apply strip_applyBPE; [discriminate|].
          intros I. apply NM. cbn [concat]. apply in_or_app. left. exact I.
        + intros p Ip. apply (word_piece_text T ks p D).
          * apply (applyBPE_not_ws_run _ _ _ N Ip).
          * apply (OK (c :: w) (or_introl eq_refl)). unfold field_pieces.
            rewrite (no_ws_not_run (c :: w)) by (discriminate || exact N). exact Ip. }
    rewrite Ew. destruct (negb (is_ws_run w) && negb (length w =? 0)%nat); reflexivity.
  - intros I. apply NM. cbn [concat]. apply in_or_app. right. exact I.
  - intros w' Iw'. apply OK. right. exact Iw'.
Qed.

End RoundTrip.

(** A trained tokenizer decodes its own ids back. *)
Lemma trained_decodes_back : forall norm T text minFrequency mergeOps,
  NoDup (specialTokens T) ->
  decodes_back (trainFromText norm T text minFrequency mergeOps) = true.
Proof.
  intros norm T text minF ops ND. apply vocab_ok_decodes_back.
  apply (trainFromText_ok norm T text minF ops ND).
Qed.

Definition spaced_text : str := js "Low  lower".

Lemma decode_encode_keeps_words_witness :
  decodes_back low_tok = true /\
  unk_ready low_tok = true /\
  forallb (piece_ok low_tok) (tokenize ascii_lower low_tok spaced_text) = true /\
  ~ In MARK (source ascii_lower low_tok spaced_text) /\
  decode decimal_StringToNumber low_tok
    (encode ascii_lower low_tok spaced_text false true) true
  = js "lowlower".
Proof.
  assert (D : decodes_back low_tok = true) by reflexivity.
  assert (U : unk_ready low_tok = true) by reflexivity.
  assert (OK : forallb (piece_ok low_tok) (tokenize ascii_lower low_tok spaced_text) = true)
    by reflexivity.
  assert (NM : ~ In MARK (source ascii_lower low_tok spaced_text)).
  { vm_compute. intuition discriminate. }
  split; [exact D|]. split; [exact U|]. split; [exact OK|]. split; [exact NM|].
  rewrite (proj1 (decode_encode_keeps_words ascii_lower decimal_StringToNumber
                    low_tok spaced_text true D U OK NM)).
  reflexivity.
Defined.

(** A corpus of one word that holds the marker character: "a▁b". *)
Definition marker_text : str := js "a" ++ MARK :: js "b".
Definition marker_tok : tokenizer := trainFromText ascii_lower fresh marker_text 2 10.

(** C7 as stated fails: the text "a▁b" has no whitespace, its pieces ▁a, ▁, b
    are all in the vocabulary trained on it, and [decode(encode(text))] is
    "ab": the character ▁ of the word is lost. *)
Lemma decode_encode_marker_counterexample :
  no_ws marker_text = true /\
  tokenize ascii_lower marker_tok marker_text = [MARK :: js "a"; [MARK]; js "b"] /\
  forallb (fun p => Map.has (tokenToId marker_tok) p)
    (tokenize ascii_lower marker_tok marker_text) = true /\
  concat (words_of (source ascii_lower marker_tok marker_text)) = marker_text /\
  decode decimal_StringToNumber marker_tok
    (encode ascii_lower marker_tok marker_text false true) true = js "ab" /\
  decode decimal_StringToNumber marker_tok
    (encode ascii_lower marker_tok marker_text false true) true
  <> concat (words_of (source ascii_lower marker_tok marker_text)).
Proof.
  split; [reflexivity|]. split; [reflexivity|]. split; [reflexivity|].
  split; [reflexivity|]. split; [reflexivity|].
  vm_compute. discriminate.
Qed.

(** ** Further consequences *)

(** [tokenize] loses no character: its pieces put end to end are the fields
    of the text, each word preceded by the marker. *)
Lemma tokenize_keeps_characters : forall norm T text,
  concat (tokenize norm T text)
  = concat (map (fun w => if is_ws_run w then w
                          else if (length w =? 0)%nat then []
                          else MARK :: w)
              (split_ws_keep (source norm T text))).
Proof.
  intros norm T text. rewrite tokenize_fields.
  induction (split_ws_keep (source norm T text)) as [|w l IH]; [reflexivity|].
  cbn [flat_map map concat]. rewrite concat_app, IH. f_equal.
  unfold field_pieces. destruct (is_ws_run w); [simpl; apply app_nil_r|].
  destruct w as [|c w]; [reflexivity|].
  apply applyBPE_preserves_concat. discriminate.
Qed.

(** C9.  Merging never alters the characters: for every non-empty word and
    every merge table, the pieces of [_applyBPEToWord] concatenate to the
    marker followed by the word; so [tokenize] loses nothing either: on every
    text its pieces concatenate to the fields of the (normalised) text, each
    word preceded by the marker. *)
Theorem applyBPE_preserves_characters : forall norm ms word T text,
  word <> [] ->
  concat (_applyBPEToWord ms word) = MARK :: word /\
  concat (tokenize norm T text)
  = concat (map (fun w => if is_ws_run w then w
                          else if (length w =? 0)%nat then []
                          else MARK :: w)
              (split_ws_keep (source norm T text))).
Proof.
  intros norm ms word T text N. split.
  - apply applyBPE_preserves_concat. exact N.
  - apply tokenize_keeps_characters.
Qed.

Lemma applyBPE_preserves_characters_witness :
  js "lowest" <> [] /\
  concat (_applyBPEToWord (merges low_tok) (js "lowest")) = MARK :: js "lowest" /\
  concat (tokenize ascii_lower low_tok (js "Lowest low"))
  = MARK :: js "lowest" ++ js " " ++ MARK :: js "low".
Proof.
  assert (N : js "lowest" <> []) by discriminate.
  split; [exact N|].
  pose proof (applyBPE_preserves_characters ascii_lower (merges low_tok)
                (js "lowest") low_tok (js "Lowest low") N) as [A B].
  split; [exact A|]. rewrite B. reflexivity.
Defined.

(** Training can list a pair twice: here (▁c, b) is learned at ranks 0 and 2. *)
Definition repeat_corpus : str :=
  js "cb cb cb cb cb cb cb "
  ++ js "z" ++ MARK :: js "cb z" ++ MARK :: js "cb "
  ++ js "y" ++ MARK :: js "c y" ++ MARK :: js "c "
  ++ js "x" ++ MARK :: js "cb x" ++ MARK :: js "cb".

Lemma training_can_repeat_a_rule :
  firstn 3 (merges (trainFromText ascii_lower fresh repeat_corpus 2 4))
  = [(MARK :: js "c", js "b"); ([MARK], js "c"); (MARK :: js "c", js "b")].
Proof. reflexivity. Qed.

(** ** Code units never seen in training *)




Lemma merge_pair_cons2 : forall a b p q rest,
  merge_pair a b (p :: q :: rest)
  = if str_eqb p a && str_eqb q b then (a ++ b) :: merge_pair a b rest
    else p :: merge_pair a b (q :: rest).
Proof. reflexivity. Qed.

Lemma merge_pair_concat : forall a b pieces,
  concat (merge_pair a b pieces) = concat pieces.
Proof.
  intros a b pieces.
  assert (A : forall n ps, (length ps <= n)%nat ->
                concat (merge_pair a b ps) = concat ps).
  { induction n as [|n IH]; intros ps L.
    - destruct ps; [reflexivity | simpl in L; lia].
    - destruct ps as [|p [|q rest]]; [reflexivity | reflexivity |].
      rewrite merge_pair_cons2. destruct (str_eqb p a && str_eqb q b) eqn:E.
      + apply andb_true_iff in E. destruct E as [Ea Eb].
        apply str_eqb_eq in Ea. apply str_eqb_eq in Eb. subst p q.
        cbn [concat]. rewrite IH by (simpl in *; lia).
        rewrite <- app_assoc. reflexivity.
      + cbn [concat]. rewrite IH by (simpl in *; lia). reflexivity. }
  apply (A (length pieces)). lia.
Qed.

Section Seen.
Variable normalizeLower : str -> str.

(** A code unit that training meets: it stands in a (normalised) line of
    the corpus. *)
Definition seen (lower_ : bool) (corpus : str) (c : Z) : Prop :=
  exists l, In l (split_lines corpus) /\
            In c (if lower_ then normalizeLower l else l).






Lemma in_JSet_add : forall (s : list str) k x,
  In x (JSet.add s k) -> In x s \/ x = k.
Proof.
  intros s k x I. unfold JSet.add in I.
  destruct (JSet.has s k); [left; exact I|].
  apply in_app_or in I. destruct I as [I|[<-|[]]]; auto.
Qed.

Lemma in_fold_JSet_add : forall (l s : list str) x,
  In x (fold_left JSet.add l s) -> In x s \/ In x l.
Proof.
  induction l as [|k l IH]; intros s x I; [left; exact I|].
  cbn [fold_left] in I. destruct (IH _ _ I) as [I'|I']; [|right; right; exact I'].
  destruct (in_JSet_add _ _ _ I') as [I'' | ->]; [left; exact I'' | right; left; reflexivity].
Qed.

Lemma collect_tokens_from : forall specials (cs : Map.t str nat) tok,
  In tok (collect_tokens specials cs) ->
  In tok specials \/ exists k, In k (Map.keys cs) /\ In tok (split_sp k).
Proof.
  intros specials cs tok. unfold collect_tokens.
  assert (A : forall ks (s : list str),
            In tok (fold_left (fun s k => fold_left JSet.add (split_sp k) s) ks s) ->
            In tok s \/ exists k, In k ks /\ In tok (split_sp k)).
  { induction ks as [|k ks IH]; intros s I; [left; exact I|].
    cbn [fold_left] in I. destruct (IH _ I) as [I'|(k' & Ik & It)].
    - destruct (in_fold_JSet_add _ _ _ I') as [Is|Ik]; [left; exact Is|].
      right. exists k. split; [left; reflexivity | exact Ik].
    - right. exists k'. split; [right; exact Ik | exact It]. }
  intros I. destruct (A _ _ I) as [Is|R]; [|right; exact R].
  unfold JSet.of_list in Is.
  destruct (in_fold_JSet_add _ _ _ Is) as [F|Is']; [destruct F|]. left. exact Is'.
Qed.

Lemma assign_fold_keys : forall l T tok,
  In tok (Map.keys (tokenToId (fold_left assign_id l T))) ->
  In tok (Map.keys (tokenToId T)) \/ In tok l.
Proof.
  induction l as [|t l IH]; intros T tok I; [left; exact I|].
  cbn [fold_left] in I. destruct (IH _ _ I) as [I'|I']; [|right; right; exact I'].
  unfold assign_id in I'. destruct (Map.has (tokenToId T) t) eqn:H; [left; exact I'|].
  cbn [tokenToId] in I'. rewrite keys_set, H in I'.
  apply in_app_or in I'. destruct I' as [I'|[<-|[]]]; [left; exact I'|].
  right. left. reflexivity.
Qed.



End Seen.

(** * Further properties of the code *)

(** ** [_piecesToWord] and [tokenize] *)

Lemma piecesToWord_strip : forall pieces,
  _piecesToWord pieces = flat_map strip pieces.
Proof.
  intros pieces. unfold _piecesToWord.
  assert (Q : forall l out,
            fold_left (fun s p => if startsWith_MARK p then s ++ slice1 p else s ++ p)
              l out
            = out ++ flat_map strip l).
  { induction l as [|p l IH]; intros out; simpl.
    - rewrite app_nil_r. reflexivity.
    - rewrite IH. unfold strip.
      destruct (startsWith_MARK p); rewrite <- app_assoc; reflexivity. }
  apply (Q pieces []).
Qed.

(** Pieces that spell the marker followed by a word without marker give the
    word back once stripped. *)
Lemma strip_marked : forall pieces w,
  Forall (fun p => p <> []) pieces -> concat pieces = MARK :: w -> ~ In MARK w ->
  flat_map strip pieces = w.
Proof.
  intros pieces w NE C NM.
  destruct pieces as [|p l]; [discriminate C|].
  inversion NE as [|? ? Np NE']; subst.
  destruct p as [|c p]; [congruence|].
  simpl in C. injection C as -> C.
  cbn [flat_map]. unfold strip at 1. simpl.
  rewrite strip_no_marker; [exact C | exact NE' |].
  intros F. apply NM. rewrite <- C. apply in_or_app. right. exact F.
Qed.

Lemma scan_pairs_empty : forall pieces i best,
  scan_pairs [] i pieces best = best.
Proof.
  induction pieces as [|p rest IH]; intros i best; [reflexivity|].
  destruct rest as [|q rest']; [reflexivity|].
  change (scan_pairs [] i (p :: q :: rest') best)
    with (scan_pairs [] (S i) (q :: rest') best).
  apply IH.
Qed.

Lemma bpe_loop_empty : forall fuel pieces, bpe_loop fuel [] pieces = pieces.
Proof.
  intros [|fuel] pieces; [reflexivity|].
  simpl. unfold find_best. rewrite scan_pairs_empty. reflexivity.
Qed.

(** X1.  [_piecesToWord] is the reverse of [_wordToChars], as its comment
    says, on every word that does not hold the marker character, and it stays
    so after any merges: joining the pieces of [_applyBPEToWord] gives the
    word back, for every merge table. *)
Theorem piecesToWord_reverses : forall ms word,
  ~ In MARK word ->
  _piecesToWord (_wordToChars word) = word /\
  _piecesToWord (_applyBPEToWord ms word) = word.
Proof.
  intros ms word NM. rewrite !piecesToWord_strip.
  destruct word as [|c w]; [split; reflexivity|].
  split.
  - apply strip_marked; [apply wordToChars_nonempty | | exact NM].
    apply concat_wordToChars. discriminate.
  - apply strip_marked; [apply applyBPE_nonempty | | exact NM].
    apply applyBPE_preserves_concat. discriminate.
Qed.

Lemma piecesToWord_reverses_witness :
  ~ In MARK (js "lowest") /\
  _piecesToWord (_applyBPEToWord (merges low_tok) (js "lowest")) = js "lowest".
Proof.
  assert (NM : ~ In MARK (js "lowest")) by (vm_compute; intuition discriminate).
  split; [exact NM|].
  exact (proj2 (piecesToWord_reverses (merges low_tok) (js "lowest") NM)).
Defined.

(** X2.  With an empty merge table [_applyBPEToWord] is [_wordToChars]: one
    piece per code point, the marker on the first; the empty word gives no
    piece, whatever the table. *)
Theorem applyBPE_without_merges : forall ms word,
  _applyBPEToWord [] word = _wordToChars word /\
  _applyBPEToWord ms [] = [] /\
  length (_applyBPEToWord [] word) = length (Array_from word).
Proof.
  intros ms word.
  assert (E : _applyBPEToWord [] word = _wordToChars word).
  { unfold _applyBPEToWord. destruct (_wordToChars word) as [|p l] eqn:W; [reflexivity|].
    change (build_mergeMap []) with (@nil (str * nat)). apply bpe_loop_empty. }
  split; [exact E|]. split; [reflexivity|].
  rewrite E. apply wordToChars_length.
Qed.

Section Fields.
Variable normalizeLower : str -> str.

Lemma ws_run_strip : forall w, is_ws_run w = true -> strip w = w.
Proof.
  intros [|c w] R; [discriminate R|].
  unfold strip. simpl in *. apply andb_true_iff in R. destruct R as [Wc _].
  destruct (c =? MARK) eqn:E; [|reflexivity].
  apply Z.eqb_eq in E. subst c. discriminate Wc.
Qed.

(** X3.  [tokenize] followed by [_piecesToWord] gives back the text
    (normalised when the flag is set), whitespace included, whenever this
    text does not hold the marker character. *)
Theorem piecesToWord_tokenize : forall T text,
  ~ In MARK (source normalizeLower T text) ->
  _piecesToWord (tokenize normalizeLower T text) = source normalizeLower T text.
Proof.
  intros T text NM. rewrite piecesToWord_strip, tokenize_fields, flat_map_flat_map.
  destruct (split_ws_keep_inv (source normalizeLower T text)) as (C & F & _ & _).
  rewrite <- C at 2. rewrite <- C in NM. clear C.
  induction F as [|w l Sh F IH]; [reflexivity|].
  cbn [flat_map concat]. rewrite IH.
  - f_equal. unfold field_pieces. destruct Sh as [R|N].
    + rewrite R. cbn [flat_map]. rewrite app_nil_r. apply ws_run_strip. exact R.
    + destruct w as [|c w]; [reflexivity|].
      rewrite (no_ws_not_run (c :: w)) by (discriminate || exact N).
      cbn [length Nat.eqb]. apply strip_marked.
      * apply applyBPE_nonempty.
      * apply applyBPE_preserves_concat. discriminate.
      * intros I. apply NM. cbn [concat]. apply in_or_app. left. exact I.
  - intros I. apply NM. cbn [concat]. apply in_or_app. right. exact I.
Qed.

(** X4.  [tokenize] hands every whitespace run of the text through unchanged
    and in order, emits no empty piece, and no piece of a word is
    whitespace. *)
Theorem tokenize_whitespace : forall T text,
  filter is_ws_run (tokenize normalizeLower T text)
  = filter is_ws_run (split_ws_keep (source normalizeLower T text)) /\
  Forall (fun p => p <> []) (tokenize normalizeLower T text) /\
  (forall w p, In w (words_of (source normalizeLower T text)) ->
               In p (_applyBPEToWord (merges T) w) ->
               In p (tokenize normalizeLower T text) /\ is_ws_run p = false).
Proof.
  intros T text. rewrite tokenize_fields.
  destruct (split_ws_keep_inv (source normalizeLower T text)) as (_ & F & _ & _).
  unfold words_of.
  induction F as [|w l Sh F (IH1 & IH2 & IH3)].
  - split; [reflexivity|]. split; [constructor | intros w p []].
  - cbn [flat_map filter]. rewrite filter_app, IH1.
    assert (Ew : filter is_ws_run (field_pieces (merges T) w)
                 = if is_ws_run w then [w] else []).
    { unfold field_pieces. destruct Sh as [R|N].
      - rewrite R. simpl. rewrite R. reflexivity.
      - destruct w as [|c w]; [reflexivity|].
        rewrite (no_ws_not_run (c :: w)) by (discriminate || exact N).
        cbn [length Nat.eqb].
        assert (A : forall ps, (forall p, In p ps -> is_ws_run p = false) ->
                      filter is_ws_run ps = []).
        { induction ps as [|p ps IHp]; intros A; [reflexivity|].
          simpl. rewrite (A p (or_introl eq_refl)). apply IHp.
          intros q I. apply A. right. exact I. }
        apply A. intros p I. apply (applyBPE_not_ws_run _ _ _ N I). }
    rewrite Ew. split; [destruct (is_ws_run w); reflexivity|]. split.
    + apply Forall_app. split; [|exact IH2].
      unfold field_pieces. destruct (is_ws_run w) eqn:R.
      * constructor; [|constructor]. intros ->. discriminate R.
      * destruct (length w =? 0)%nat; [constructor | apply applyBPE_nonempty].
    + intros w' p Iw Ip.
      destruct (negb (is_ws_run w) && negb (length w =? 0)%nat) eqn:K.
      * destruct Iw as [<-|Iw].
        -- apply andb_true_iff in K. destruct K as [K1 K2].
           apply negb_true_iff in K1. apply negb_true_iff in K2.
           split.
           ++ apply in_or_app. left. unfold field_pieces. rewrite K1, K2. exact Ip.
           ++ destruct Sh as [R|N]; [congruence|].
              apply (applyBPE_not_ws_run _ _ _ N Ip).
        -- destruct (IH3 w' p Iw Ip) as [I1 I2].
           split; [apply in_or_app; right; exact I1 | exact I2].
      * destruct (IH3 w' p Iw Ip) as [I1 I2].
        split; [apply in_or_app; right; exact I1 | exact I2].
Qed.

End Fields.

Lemma piecesToWord_tokenize_witness :
  ~ In MARK (source ascii_lower low_tok spaced_text) /\
  _piecesToWord (tokenize ascii_lower low_tok spaced_text) = js "low  lower".
Proof.
  assert (NM : ~ In MARK (source ascii_lower low_tok spaced_text))
    by (vm_compute; intuition discriminate).
  split; [exact NM|].
  rewrite (piecesToWord_tokenize ascii_lower low_tok spaced_text NM). reflexivity.
Defined.

(** ** [encode] and [decode] on their own *)

(** The token [tok] has an id that is neither [undefined] nor [null]. *)
Definition present (T : tokenizer) (tok : str) : Prop :=
  exists v, Map.get (tokenToId T) tok = Some v /\ v <> JNull.

Section EncodeDecode.
Variable normalizeLower : str -> str.
Variable StringToNumber : str -> jsnum.

Lemma encode_wrap : forall T text ks,
  encode normalizeLower T text true ks
  = [Map.get (tokenToId T) BOS] ++ encode normalizeLower T text false ks
    ++ [Map.get (tokenToId T) EOS].
Proof.
  intros T text ks. unfold encode. rewrite !encode_pieces_fold.
  rewrite <- app_assoc. reflexivity.
Qed.

Lemma decode_app : forall T ids1 ids2 skip,
  decode StringToNumber T (ids1 ++ ids2) skip
  = decode StringToNumber T ids1 skip ++ decode StringToNumber T ids2 skip.
Proof.
  intros T ids1 ids2 skip. rewrite !decode_parts, !flat_map_app. reflexivity.
Qed.

(** X5.  The option [addBosEos] only wraps: the ids are those without the
    option between the id of '<BOS>' and the id of '<EOS>'.  With
    [keepSpaces], [encode] emits exactly one id per piece of [tokenize];
    without it, one id per piece that is not whitespace. *)
Theorem encode_shape : forall T text keepSpaces,
  encode normalizeLower T text true keepSpaces
  = [Map.get (tokenToId T) BOS] ++ encode normalizeLower T text false keepSpaces
    ++ [Map.get (tokenToId T) EOS] /\
  length (encode normalizeLower T text false true)
  = length (tokenize normalizeLower T text) /\
  length (encode normalizeLower T text false false)
  = length (filter (fun p => negb (is_ws_run p)) (tokenize normalizeLower T text)).
Proof.
  intros T text ks. split; [apply encode_wrap|].
  rewrite !encode_no_markers.
  induction (tokenize normalizeLower T text) as [|p l (IH1 & IH2)];
    [split; reflexivity|].
  cbn [flat_map filter]. rewrite !length_app, IH1, IH2.
  unfold piece_ids, encode_piece. destruct (is_ws_run p); split; reflexivity.
Qed.

(** X6.  On the empty text [encode] returns exactly the ids of '<BOS>' and
    '<EOS>', and nothing at all without [addBosEos]; [tokenize] returns no
    piece. *)
Theorem encode_empty_text : forall T keepSpaces,
  (lower T = true -> normalizeLower [] = []) ->
  tokenize normalizeLower T [] = [] /\
  encode normalizeLower T [] true keepSpaces
  = [Map.get (tokenToId T) BOS; Map.get (tokenToId T) EOS] /\
  encode normalizeLower T [] false keepSpaces = [].
Proof.
  intros T ks N.
  assert (E : tokenize normalizeLower T [] = []).
  { unfold tokenize. destruct (lower T); [rewrite N by reflexivity|]; reflexivity. }
  split; [exact E|]. unfold encode. rewrite E. split; reflexivity.
Qed.

(** X7.  When '<UNK>' has an id (and '<BOS>', '<EOS>' too if [addBosEos] is
    set), every element that [encode] returns is an id held by the
    token-to-id table: never [undefined], never [null]. *)
Theorem encode_emits_vocabulary_ids : forall T text addBosEos keepSpaces,
  present T UNK ->
  (addBosEos = true -> present T BOS /\ present T EOS) ->
  Forall (fun x => exists tok v, x = Some v /\ v <> JNull /\
                                 Map.get (tokenToId T) tok = Some v)
    (encode normalizeLower T text addBosEos keepSpaces).
Proof.
  intros T text bos ks (u & Gu & Nu) B.
  assert (P : forall a, exists tok v,
                nullish (Map.get (tokenToId T) a) (Map.get (tokenToId T) UNK) = Some v /\
                v <> JNull /\ Map.get (tokenToId T) tok = Some v).
  { intros a. destruct (Map.get (tokenToId T) a) as [v|] eqn:G.
    - destruct v as [n|s|b|].
      + exists a, (JNum n). repeat split; [discriminate | exact G].
      + exists a, (JStr s). repeat split; [discriminate | exact G].
      + exists a, (JBool b). repeat split; [discriminate | exact G].
      + exists UNK, u. simpl. auto.
    - exists UNK, u. simpl. auto. }
  assert (F : Forall (fun x => exists tok v, x = Some v /\ v <> JNull /\
                                 Map.get (tokenToId T) tok = Some v)
                (encode normalizeLower T text false ks)).
  { rewrite encode_no_markers.
    induction (tokenize normalizeLower T text) as [|p l IH]; [constructor|].
    cbn [flat_map]. apply Forall_app. split; [|exact IH].
    unfold piece_ids, encode_piece.
    destruct (is_ws_run p); [destruct ks|]; simpl; repeat constructor; apply P. }
  destruct bos; [|exact F].
  destruct (B eq_refl) as [(vb & Gb & Nb) (ve & Ge & Ne)].
  rewrite encode_wrap. apply Forall_app. split.
  - constructor; [|constructor]. exists BOS, vb. auto.
  - apply Forall_app. split; [exact F|].
    constructor; [|constructor]. exists EOS, ve. auto.
Qed.

(** X8.  [decode] goes id by id: the text of a sequence is the text of its
    parts put end to end, and the empty sequence gives the empty text. *)
Theorem decode_concatenates : forall T ids1 ids2 skipSpecials,
  decode StringToNumber T [] skipSpecials = [] /\
  decode StringToNumber T (ids1 ++ ids2) skipSpecials
  = decode StringToNumber T ids1 skipSpecials
    ++ decode StringToNumber T ids2 skipSpecials.
Proof.
  intros T ids1 ids2 skip. split; [reflexivity | apply decode_app].
Qed.

(** X9.  An id that the id-to-token table does not hold decodes to the text
    '<UNK>', at its place in the sequence; when special tokens are skipped
    and '<UNK>' is one of them, it leaves nothing. *)
Theorem decode_unknown_id : forall T pre idRaw post,
  Map.get (idToToken T) (ToNumber StringToNumber idRaw) = None ->
  decode StringToNumber T (pre ++ idRaw :: post) false
  = decode StringToNumber T pre false ++ UNK ++ decode StringToNumber T post false /\
  decode StringToNumber T (pre ++ idRaw :: post) true
  = decode StringToNumber T pre true
    ++ (if includes (specialTokens T) UNK then [] else UNK)
    ++ decode StringToNumber T post true.
Proof.
  intros T pre idRaw post G.
  assert (E : forall skip,
            decode StringToNumber T [idRaw] skip
            = if skip && includes (specialTokens T) UNK then [] else UNK).
  { intros skip. unfold decode. simpl. rewrite G.
    destruct (skip && includes (specialTokens T) UNK); reflexivity. }
  change (idRaw :: post) with ([idRaw] ++ post).
  rewrite !decode_app, !E. split; reflexivity.
Qed.

(** X10.  Decoding skips the boundary markers: when '<BOS>' and '<EOS>' are
    special tokens of a vocabulary whose entries decode back, [decode] gives
    the same text for the ids of [encode] with and without [addBosEos]. *)
Theorem decode_skips_boundary_markers : forall T text keepSpaces,
  decodes_back T = true ->
  Map.has (tokenToId T) BOS && includes (specialTokens T) BOS = true ->
  Map.has (tokenToId T) EOS && includes (specialTokens T) EOS = true ->
  decode StringToNumber T (encode normalizeLower T text true keepSpaces) true
  = decode StringToNumber T (encode normalizeLower T text false keepSpaces) true.
Proof.
  intros T text ks D HB HE.
  assert (S : forall tok,
            Map.has (tokenToId T) tok && includes (specialTokens T) tok = true ->
            decode StringToNumber T [Map.get (tokenToId T) tok] true = []).
  { intros tok H. apply andb_true_iff in H. destruct H as [H I].
    unfold Map.has in H.
    destruct (Map.get (tokenToId T) tok) as [v|] eqn:G; [|discriminate].
    destruct (decodes_back_get T tok v D G) as (id & -> & G').
    unfold decode. simpl. rewrite G', I. reflexivity. }
  rewrite encode_wrap, !decode_app, (S BOS HB), (S EOS HE), app_nil_r.
  reflexivity.
Qed.

End EncodeDecode.

Lemma encode_empty_text_witness :
  (lower low_tok = true -> ascii_lower [] = []) /\
  encode ascii_lower low_tok [] true true = [Some (JNum (Num 2)); Some (JNum (Num 3))].
Proof.
  assert (N : lower low_tok = true -> ascii_lower [] = []) by reflexivity.
  split; [exact N|].
  rewrite (proj1 (proj2 (encode_empty_text ascii_lower low_tok true N))).
  reflexivity.
Defined.

Lemma encode_emits_vocabulary_ids_witness :
  present low_tok UNK /\
  (true = true -> present low_tok BOS /\ present low_tok EOS) /\
  Forall (fun x => exists tok v, x = Some v /\ v <> JNull /\
                                 Map.get (tokenToId low_tok) tok = Some v)
    (encode ascii_lower low_tok (js "low x") true true).
Proof.
  assert (U : present low_tok UNK).
  { exists (JNum (Num 1)). split; [reflexivity | discriminate]. }
  assert (B : true = true -> present low_tok BOS /\ present low_tok EOS).
  { intros _. split.
    - exists (JNum (Num 2)). split; [reflexivity | discriminate].
    - exists (JNum (Num 3)). split; [reflexivity | discriminate]. }
  split; [exact U|]. split; [exact B|].
  exact (encode_emits_vocabulary_ids ascii_lower low_tok (js "low x") true true U B).
Defined.

Lemma decode_unknown_id_witness :
  Map.get (idToToken low_tok) (ToNumber decimal_StringToNumber (Some (JNum (Num 99))))
  = None /\
  decode decimal_StringToNumber low_tok
    ([Some (JNum (Num 5))] ++ Some (JNum (Num 99)) :: [Some (JNum (Num 6))]) false
  = js "low<UNK>e".
Proof.
  assert (G : Map.get (idToToken low_tok)
                (ToNumber decimal_StringToNumber (Some (JNum (Num 99)))) = None)
    by reflexivity.
  split; [exact G|].
  rewrite (proj1 (decode_unknown_id decimal_StringToNumber low_tok
                    [Some (JNum (Num 5))] (Some (JNum (Num 99)))
                    [Some (JNum (Num 6))] G)).
  reflexivity.
Defined.

Lemma decode_skips_boundary_markers_witness :
  decodes_back low_tok = true /\
  Map.has (tokenToId low_tok) BOS && includes (specialTokens low_tok) BOS = true /\
  Map.has (tokenToId low_tok) EOS && includes (specialTokens low_tok) EOS = true /\
  decode decimal_StringToNumber low_tok
    (encode ascii_lower low_tok spaced_text true true) true
  = js "lowlower".
Proof.
  assert (D : decodes_back low_tok = true) by reflexivity.
  assert (HB : Map.has (tokenToId low_tok) BOS
               && includes (specialTokens low_tok) BOS = true) by reflexivity.
  assert (HE : Map.has (tokenToId low_tok) EOS
               && includes (specialTokens low_tok) EOS = true) by reflexivity.
  split; [exact D|]. split; [exact HB|]. split; [exact HE|].
  rewrite (decode_skips_boundary_markers ascii_lower decimal_StringToNumber
             low_tok spaced_text true D HB HE).
  reflexivity.
Defined.

(** ** [_initSpecials] and the constructor, for any list of special tokens *)

Lemma init_step_snoc : forall l st acc,
  fold_left init_step (l ++ [st]) acc = init_step (fold_left init_step l acc) st.
Proof. intros l st acc. rewrite fold_left_app. reflexivity. Qed.

Lemma nth_error_snoc : forall {A : Type} (l : list A) (x : A) i,
  nth_error (l ++ [x]) i
  = if (i <? length l)%nat then nth_error l i
    else if (i =? length l)%nat then Some x else None.
Proof.
  intros A l x i. destruct (i <? length l)%nat eqn:L.
  - apply Nat.ltb_lt in L. apply nth_error_app1. exact L.
  - apply Nat.ltb_ge in L. rewrite nth_error_app2 by exact L.
    destruct (i =? length l)%nat eqn:E.
    + apply Nat.eqb_eq in E. subst i. rewrite Nat.sub_diag. reflexivity.
    + apply Nat.eqb_neq in E.
      destruct (i - length l)%nat as [|d] eqn:D; [lia|].
      destruct d; reflexivity.
Qed.

(** What the loop of [_initSpecials] leaves after the special tokens [l]. *)
Lemma init_fold_any : forall l,
  exists t2i i2t,
    fold_left init_step l ([], [], 0) = (t2i, i2t, Z.of_nat (length l)) /\
    (forall k tok, Map.get i2t k = Some tok <->
       exists i, k = Num (Z.of_nat i) /\ nth_error l i = Some tok) /\
    (forall st v, Map.get t2i st = Some v <->
       exists i, v = JNum (Num (Z.of_nat i)) /\ nth_error l i = Some st /\
                 forall j, nth_error l j = Some st -> (j <= i)%nat).
Proof.
  induction l as [|st0 l (t2i & i2t & E & B & C)] using rev_ind.
  - exists [], []. split; [reflexivity|]. split.
    + intros k tok. split; [discriminate|]. intros ([|i] & _ & F); discriminate F.
    + intros st v. split; [discriminate|]. intros ([|i] & _ & F & _); discriminate F.
  - exists (Map.set t2i st0 (JNum (Num (Z.of_nat (length l))))),
           (Map.set i2t (Num (Z.of_nat (length l))) st0).
    split.
    { rewrite init_step_snoc, E. cbn [init_step]. rewrite length_app. simpl.
      do 2 f_equal. lia. }
    split.
    + intros k tok. rewrite get_set.
      destruct (keqb (Num (Z.of_nat (length l))) k) eqn:Ek.
      * apply keqb_eq in Ek. subst k. split.
        -- intros G. injection G as <-. exists (length l). split; [reflexivity|].
           rewrite nth_error_snoc, Nat.ltb_irrefl, Nat.eqb_refl. reflexivity.
        -- intros (i & Ei & G). injection Ei as Ei. apply Nat2Z.inj in Ei. subst i.
           rewrite nth_error_snoc, Nat.ltb_irrefl, Nat.eqb_refl in G. exact G.
      * rewrite B. split.
        -- intros (i & -> & G). exists i. split; [reflexivity|].
           rewrite nth_error_snoc.
           assert (L : (i < length l)%nat) by (apply nth_error_Some; congruence).
           apply Nat.ltb_lt in L. rewrite L. exact G.
        -- intros (i & -> & G). exists i. split; [reflexivity|].
           rewrite nth_error_snoc in G.
           destruct (i <? length l)%nat; [exact G|].
           destruct (i =? length l)%nat eqn:Ei; [|discriminate G].
           apply Nat.eqb_eq in Ei. subst i.
           rewrite keqb_refl in Ek. discriminate Ek.
    + intros st v. rewrite get_set.
      destruct (keqb st0 st) eqn:Es.
      * apply keqb_eq in Es. subst st0. split.
        -- intros G. injection G as <-. exists (length l). split; [reflexivity|].
           split.
           ++ rewrite nth_error_snoc, Nat.ltb_irrefl, Nat.eqb_refl. reflexivity.
           ++ intros j G.
              assert (L : (j < length (l ++ [st]))%nat) by (apply nth_error_Some; congruence).
              rewrite length_app in L. simpl in L. lia.
        -- intros (i & -> & G & M).
           assert (L : (length l <= i)%nat).
           { apply M. rewrite nth_error_snoc, Nat.ltb_irrefl, Nat.eqb_refl. reflexivity. }
           assert (L' : (i < length (l ++ [st]))%nat) by (apply nth_error_Some; congruence).
           rewrite length_app in L'. simpl in L'.
           replace i with (length l) by lia. reflexivity.
      * assert (Ns : st0 <> st) by (apply keqb_false_neq; exact Es).
        assert (Old : forall j, nth_error (l ++ [st0]) j = Some st <-> nth_error l j = Some st).
        { intros j. rewrite nth_error_snoc.
          destruct (j <? length l)%nat eqn:L; [tauto|].
          destruct (j =? length l)%nat.
          - split; [intros F; injection F as F; contradiction|].
            intros F. apply Nat.ltb_ge in L.
            assert ((j < length l)%nat) by (apply nth_error_Some; congruence). lia.
          - split; [discriminate|].
            intros F. apply Nat.ltb_ge in L.
            assert ((j < length l)%nat) by (apply nth_error_Some; congruence). lia. }
        rewrite C. split.
        -- intros (i & -> & G & M). exists i. split; [reflexivity|].
           split; [apply Old; exact G|]. intros j Gj. apply M. apply Old. exact Gj.
        -- intros (i & -> & G & M). exists i. split; [reflexivity|].
           split; [apply Old; exact G|]. intros j Gj. apply M. apply Old. exact Gj.
Qed.

Lemma initSpecials_next : forall T,
  nextId (_initSpecials T) = Num (Z.of_nat (length (specialTokens T))).
Proof.
  intros T. destruct (init_fold_any (specialTokens T)) as (t2i & i2t & E & _).
  unfold _initSpecials.
  match type of E with
  | ?lhs = _ =>
      repeat match goal with
      | |- context [fold_left init_step ?l ?a] =>
          progress change (fold_left init_step l a) with lhs
      end
  end.
  rewrite E. reflexivity.
Qed.

(** X11.  [_initSpecials], for any list of special tokens, repetitions
    included: id [i] stands for the [i]-th special token and no other id is
    held; a special token holds the id of its last declaration and no other
    token has an id; the next id is the length of the list.  Whatever the two
    tables held before is gone, so that doing it twice changes nothing. *)
Theorem initSpecials_tables : forall T,
  let T' := _initSpecials T in
  nextId T' = Num (Z.of_nat (length (specialTokens T))) /\
  (forall k tok, Map.get (idToToken T') k = Some tok <->
     exists i, k = Num (Z.of_nat i) /\ nth_error (specialTokens T) i = Some tok) /\
  (forall st v, Map.get (tokenToId T') st = Some v <->
     exists i, v = JNum (Num (Z.of_nat i)) /\
               nth_error (specialTokens T) i = Some st /\
               forall j, nth_error (specialTokens T) j = Some st -> (j <= i)%nat) /\
  _initSpecials T' = T'.
Proof.
  intros T T'. subst T'.
  destruct (init_fold_any (specialTokens T)) as (t2i & i2t & E & B & C).
  assert (X : _initSpecials T
              = {| lower := lower T; specialTokens := specialTokens T;
                   tokenToId := t2i; idToToken := i2t;
                   merges := merges T; counts := counts T;
                   nextId := Num (Z.of_nat (length (specialTokens T))) |}).
  { unfold _initSpecials.
    match type of E with
    | ?lhs = _ =>
        repeat match goal with
        | |- context [fold_left init_step ?l ?a] =>
            progress change (fold_left init_step l a) with lhs
        end
    end.
    rewrite E. reflexivity. }
  rewrite X. cbn [nextId idToToken tokenToId].
  split; [reflexivity|]. split; [exact B|]. split; [exact C|].
  unfold _initSpecials. cbn [specialTokens lower merges counts].
  match type of E with
  | ?lhs = _ =>
      repeat match goal with
      | |- context [fold_left init_step ?l ?a] =>
          progress change (fold_left init_step l a) with lhs
      end
  end.
  rewrite E. reflexivity.
Qed.

Section Constructor.
Variable StringToNumber : str -> jsnum.

(** One turn of the constructor's [forEach] over the entries of [vocab]. *)
Lemma constructor_fold_get : forall es T tok,
  NoDup (map fst es) ->
  Map.get
    (tokenToId
       (fold_left
          (fun T e =>
             let n := ToNumber StringToNumber (Some (snd e)) in
             match n with
             | NaN => T
             | _ => {| lower := lower T;
                       specialTokens := specialTokens T;
                       tokenToId := Map.set (tokenToId T) (fst e) (JNum n);
                       idToToken := Map.set (idToToken T) n (fst e);
                       merges := merges T;
                       counts := counts T;
                       nextId := nextId T |}
             end) es T)) tok
  = match Map.get es tok with
    | Some v =>
        match ToNumber StringToNumber (Some v) with
        | NaN => Map.get (tokenToId T) tok
        | n => Some (JNum n)
        end
    | None => Map.get (tokenToId T) tok
    end.
Proof.
  induction es as [|[k v] es IH]; intros T tok ND; [reflexivity|].
  inversion ND as [|? ? NI ND']; subst.
  cbn [fold_left fst snd]. rewrite IH by exact ND'.
  cbn [Map.get]. change (keqb k tok) with (str_eqb k tok).
  destruct (str_eqb k tok) eqn:Ek.
  - apply str_eqb_eq in Ek. subst k.
    assert (G : Map.get es tok = None) by (apply get_none_not_in; exact NI).
    rewrite G.
    destruct (ToNumber StringToNumber (Some v)); cbn [tokenToId];
      rewrite ?get_set_same; reflexivity.
  - assert (Nk : k <> tok) by (intros F; subst; rewrite str_eqb_refl in Ek; discriminate).
    destruct (Map.get es tok) as [v'|].
    + destruct (ToNumber StringToNumber (Some v')); try reflexivity;
        destruct (ToNumber StringToNumber (Some v)); cbn [tokenToId];
          rewrite ?get_set_other by exact Nk; reflexivity.
    + destruct (ToNumber StringToNumber (Some v)); cbn [tokenToId];
        rewrite ?get_set_other by exact Nk; reflexivity.
Qed.

Lemma constructor_fold_fields : forall es T,
  let T' :=
    fold_left
      (fun T e =>
         let n := ToNumber StringToNumber (Some (snd e)) in
         match n with
         | NaN => T
         | _ => {| lower := lower T;
                   specialTokens := specialTokens T;
                   tokenToId := Map.set (tokenToId T) (fst e) (JNum n);
                   idToToken := Map.set (idToToken T) n (fst e);
                   merges := merges T;
                   counts := counts T;
                   nextId := nextId T |}
         end) es T in
  lower T' = lower T /\ specialTokens T' = specialTokens T /\
  merges T' = merges T /\ nextId T' = nextId T.
Proof.
  induction es as [|e es IH]; intros T; [cbv zeta; auto|].
  cbn [fold_left]. cbv zeta in *.
  match goal with
  | |- context [fold_left ?f es ?T1] => destruct (IH T1) as (E1 & E2 & E3 & E4)
  end.
  rewrite E1, E2, E3, E4.
  destruct (ToNumber StringToNumber (Some (snd e))); auto.
Qed.

(** X12.  The constructor: the flag, the special tokens and the merges are
    those of the options; every entry of [vocab] with a numeric id is
    installed under that id, overriding a special token of the same name; an
    entry with a non-numeric id changes nothing; the other tokens are as
    [_initSpecials] left them; and [nextId] stays the number of special
    tokens, whatever ids [vocab] brings. *)
Theorem constructor_tables : forall opts tok,
  NoDup (Map.keys (opt_vocab opts)) ->
  let T := new_BPE_Tokenizer StringToNumber opts in
  let T0 := _initSpecials
              {| lower := opt_lower opts;
                 specialTokens := opt_specialTokens opts;
                 tokenToId := [];
                 idToToken := [];
                 merges := opt_merges opts;
                 counts := [];
                 nextId := Num 0 |} in
  lower T = opt_lower opts /\ specialTokens T = opt_specialTokens opts /\
  merges T = opt_merges opts /\
  nextId T = Num (Z.of_nat (length (opt_specialTokens opts))) /\
  Map.get (tokenToId T) tok
  = match Map.get (opt_vocab opts) tok with
    | Some v =>
        match ToNumber StringToNumber (Some v) with
        | NaN => Map.get (tokenToId T0) tok
        | n => Some (JNum n)
        end
    | None => Map.get (tokenToId T0) tok
    end.
Proof.
  intros opts tok ND T T0. subst T. unfold new_BPE_Tokenizer. fold T0.
  destruct (constructor_fold_fields (Obj.entries (opt_vocab opts)) T0)
    as (E1 & E2 & E3 & E4).
  cbv zeta in E1, E2, E3, E4. rewrite E1, E2, E3, E4.
  destruct (initSpecials_fields
              {| lower := opt_lower opts; specialTokens := opt_specialTokens opts;
                 tokenToId := []; idToToken := []; merges := opt_merges opts;
                 counts := []; nextId := Num 0 |}) as (F1 & F2 & F3 & _).
  fold T0 in F1, F2, F3. rewrite F1, F2, F3.
  pose proof (initSpecials_next
                {| lower := opt_lower opts; specialTokens := opt_specialTokens opts;
                   tokenToId := []; idToToken := []; merges := opt_merges opts;
                   counts := []; nextId := Num 0 |}) as F4.
  fold T0 in F4. rewrite F4.
  repeat (split; [reflexivity|]).
  pose proof (entries_perm (opt_vocab opts)) as P.
  rewrite constructor_fold_get.
  - rewrite (get_perm (opt_vocab opts) _ ND P). reflexivity.
  - eapply Permutation_NoDup; [|exact ND].
    apply Permutation_map. apply Permutation_sym. exact P.
Qed.

End Constructor.

Lemma constructor_tables_witness :
  NoDup (Map.keys (vocab malformed_artifact)) /\
  Map.get (tokenToId
             (new_BPE_Tokenizer decimal_StringToNumber
                {| opt_lower := true; opt_specialTokens := [PAD; UNK];
                   opt_merges := []; opt_vocab := vocab malformed_artifact |})) BOS
  = Some (JNum (Num 2)).
Proof.
  assert (ND : NoDup (Map.keys (vocab malformed_artifact))).
  { repeat (constructor; [simpl; intuition discriminate|]). constructor. }
  split; [exact ND|].
  pose proof (constructor_tables decimal_StringToNumber
                {| opt_lower := true; opt_specialTokens := [PAD; UNK];
                   opt_merges := []; opt_vocab := vocab malformed_artifact |}
                BOS ND) as (_ & _ & _ & _ & G).
  rewrite G. reflexivity.
Defined.

(** ** [load] on any artifact *)

Section TableFill.
Context {K V : Type} `{EqKey K}.

(** A value found in a table filled from entries is the value of one of the
    entries. *)
Lemma of_entries_from_get : forall (l : list (K * V)) (m : Map.t K V) k v,
  Map.get (fold_left (fun m e => Map.set m (fst e) (snd e)) l m) k = Some v ->
  In (k, v) l \/ Map.get m k = Some v.
Proof.
  induction l as [|[k0 v0] l IH]; intros m k v G; [right; exact G|].
  cbn [fold_left fst snd] in G. destruct (IH _ _ _ G) as [I|G'].
  - left. right. exact I.
  - rewrite get_set in G'. destruct (keqb k0 k) eqn:E.
    + apply keqb_eq in E. subst k0. injection G' as <-. left. left. reflexivity.
    + right. exact G'.
Qed.

Lemma of_entries_get_in : forall (l : list (K * V)) k v,
  Map.get (Map.of_entries l) k = Some v -> In (k, v) l.
Proof.
  intros l k v G. unfold Map.of_entries in G.
  destruct (of_entries_from_get _ _ _ _ G) as [I|F]; [exact I | discriminate F].
Qed.

Lemma of_entries_not_nil : forall (l : list (K * V)),
  l <> [] -> Map.of_entries l <> [].
Proof.
  intros [|[k v] l] N; [congruence|].
  intros F. assert (X : Map.has (Map.of_entries ((k, v) :: l)) k = true).
  { apply has_of_entries. left. reflexivity. }
  rewrite F in X. discriminate X.
Qed.

End TableFill.

Lemma Math_max_from : forall l acc,
  (forall k, In k l -> exists z, k = Num z) ->
  (acc = NegInf \/ exists a, acc = Num a) ->
  (l <> [] \/ exists a, acc = Num a) ->
  exists m, fold_left jsnum_max l acc = Num m /\
            (In (Num m) l \/ acc = Num m) /\
            (forall z, In (Num z) l \/ acc = Num z -> z <= m).
Proof.
  induction l as [|k l IH]; intros acc A B C.
  - destruct C as [C|(a & ->)]; [congruence|].
    exists a. split; [reflexivity|]. split; [right; reflexivity|].
    intros z [[]|E]. injection E as ->. lia.
  - destruct (A k (or_introl eq_refl)) as (z0 & ->).
    assert (A' : forall k, In k l -> exists z, k = Num z)
      by (intros k I; apply A; right; exact I).
    cbn [fold_left].
    assert (S : exists a', jsnum_max acc (Num z0) = Num a' /\
                  (a' = z0 \/ acc = Num a') /\ z0 <= a' /\
                  (forall a, acc = Num a -> a <= a')).
    { destruct B as [->|(a & ->)].
      - exists z0. simpl. repeat split; [left; reflexivity | lia | discriminate].
      - exists (Z.max a z0). simpl. split; [reflexivity|]. split.
        + destruct (Z.max_spec a z0) as [[_ ->]|[_ ->]]; [left | right]; reflexivity.
        + split; [lia|]. intros a' E. injection E as ->. lia. }
    destruct S as (a' & Ea & Ha & L0 & La). rewrite Ea.
    destruct (IH (Num a') A' (or_intror (ex_intro _ a' eq_refl))
                 (or_intror (ex_intro _ a' eq_refl))) as (m & Em & Hm & Lm).
    exists m. split; [exact Em|]. split.
    + destruct Hm as [I|E].
      * left. right. exact I.
      * injection E as <-. destruct Ha as [->|E']; [left; left; reflexivity | right; exact E'].
    + intros z [[E|I]|E].
      * injection E as <-. specialize (Lm a' (or_intror eq_refl)). lia.
      * apply Lm. left. exact I.
      * specialize (La z E). specialize (Lm a' (or_intror eq_refl)). lia.
Qed.

Section LoadFacts.
Variable StringToNumber : str -> jsnum.

Lemma load_tables : forall Tl obj,
  tokenToId (load StringToNumber Tl obj) = Map.of_entries (Obj.entries (vocab obj)) /\
  idToToken (load StringToNumber Tl obj)
  = Map.of_entries
      (map (fun e : str * jsval => (ToNumber StringToNumber (Some (snd e)), fst e))
         (Map.of_entries (Obj.entries (vocab obj)))) /\
  nextId (load StringToNumber Tl obj)
  = jsnum_add1 (Math_max (Map.keys (idToToken (load StringToNumber Tl obj)))).
Proof. intros Tl obj. unfold load. cbn [tokenToId idToToken nextId]. auto. Qed.

Lemma load_id_backed : forall Tl obj k tok,
  Map.get (idToToken (load StringToNumber Tl obj)) k = Some tok ->
  exists v, Map.get (tokenToId (load StringToNumber Tl obj)) tok = Some v /\
            ToNumber StringToNumber (Some v) = k /\ In (tok, v) (vocab obj).
Proof.
  intros Tl obj k tok G.
  destruct (load_tables Tl obj) as (Et & Ei & _). rewrite Ei in G. rewrite Et.
  apply of_entries_get_in in G. apply in_map_iff in G.
  destruct G as ([tok' v] & E & I). simpl in E. injection E as <- ->.
  exists v. split; [|split; [reflexivity|]].
  - apply in_get_some; [apply NoDup_keys_of_entries | exact I].
  - apply get_some_in in I || idtac.
    assert (I' : In (tok, v) (Obj.entries (vocab obj))).
    { apply of_entries_get_in. apply in_get_some; [apply NoDup_keys_of_entries | exact I]. }
    apply (Permutation_in _ (entries_perm (vocab obj))). exact I'.
Qed.

(** X13.  After [load], of any artifact at all: the flag, the special tokens
    and the merges are those of the artifact, the word counts of the object
    are left as they were, and every id of the id-to-token table is backed by
    the token-to-id table: the token it names holds a value whose number is
    that id, and this entry comes from the artifact. *)
Theorem load_ids_are_backed : forall Tl obj,
  let T := load StringToNumber Tl obj in
  lower T = meta_lower obj /\ specialTokens T = meta_specialTokens obj /\
  merges T = art_merges obj /\ counts T = counts Tl /\
  forall k tok, Map.get (idToToken T) k = Some tok ->
    exists v, Map.get (tokenToId T) tok = Some v /\
              ToNumber StringToNumber (Some v) = k /\ In (tok, v) (vocab obj).
Proof.
  intros Tl obj T. subst T.
  destruct (load_fields StringToNumber Tl obj) as (F1 & F2 & F3).
  split; [exact F1|]. split; [exact F2|]. split; [exact F3|]. split.
  - unfold load. cbn [counts].
    match goal with
    | |- context [_initSpecials ?T0] =>
        destruct (initSpecials_fields T0) as (_ & _ & _ & F4); rewrite F4
    end.
    reflexivity.
  - apply load_id_backed.
Qed.

Lemma round_double_safe : forall x,
  Z.abs x <= 9007199254740992 -> round_double x = x.
Proof.
  intros x B. unfold round_double.
  destruct (Z.abs x <? 9007199254740992) eqn:L; [reflexivity|].
  apply Z.ltb_ge in L.
  assert (E : Z.abs x = 9007199254740992) by lia.
  destruct (Z.abs_spec x) as [[_ A]|[_ A]]; rewrite A in E.
  - subst x. reflexivity.
  - replace x with (- 9007199254740992) by lia. reflexivity.
Qed.

(** X14.  [nextId] after [load]: for an empty [vocab] both tables are empty
    and it is [-Infinity].  When the ids of the artifact are integers and
    there is at least one, it is the largest id [m] of the id-to-token table
    plus one, as doubles add: exactly [m + 1] as long as [m + 1] is at most
    2^53 in absolute value, but [m] itself, an id that is taken, when [m] is
    2^53. *)
Theorem load_nextId : forall Tl obj,
  (vocab obj = [] ->
   tokenToId (load StringToNumber Tl obj) = [] /\
   idToToken (load StringToNumber Tl obj) = [] /\
   nextId (load StringToNumber Tl obj) = NegInf) /\
  ((forall tok v, In (tok, v) (vocab obj) -> exists z, v = JNum (Num z)) ->
   vocab obj <> [] ->
   exists m,
     Map.has (idToToken (load StringToNumber Tl obj)) (Num m) = true /\
     (forall k, Map.has (idToToken (load StringToNumber Tl obj)) k = true ->
                exists z, k = Num z /\ z <= m) /\
     nextId (load StringToNumber Tl obj) = Num (round_double (m + 1)) /\
     (Z.abs (m + 1) <= 9007199254740992 ->
      nextId (load StringToNumber Tl obj) = Num (m + 1)) /\
     (m = 9007199254740992 -> nextId (load StringToNumber Tl obj) = Num m)).
Proof.
  intros Tl obj. split.
  - intros E. unfold load. cbn [tokenToId idToToken nextId]. rewrite E.
    repeat split.
  - intros Ints NE.
    destruct (load_tables Tl obj) as (Et & Ei & En).
    assert (Keys : forall k, In k (Map.keys (idToToken (load StringToNumber Tl obj))) ->
                     exists z, k = Num z).
    { intros k I. apply has_true_in in I. unfold Map.has in I.
      destruct (Map.get (idToToken (load StringToNumber Tl obj)) k) as [tok|] eqn:G;
        [|discriminate].
      destruct (load_id_backed _ _ _ _ G) as (v & _ & <- & Iv).
      destruct (Ints tok v Iv) as (z & ->). exists z. reflexivity. }
    assert (NEk : Map.keys (idToToken (load StringToNumber Tl obj)) <> []).
    { rewrite Ei. intros F. apply map_eq_nil in F. revert F.
      apply of_entries_not_nil. intros F. apply map_eq_nil in F. revert F.
      apply of_entries_not_nil. intros F.
      apply NE. apply Permutation_nil.
      rewrite <- F. apply entries_perm. }
    destruct (Math_max_from _ NegInf Keys (or_introl eq_refl) (or_introl NEk))
      as (m & Em & Hm & Lm).
    assert (N : nextId (load StringToNumber Tl obj) = Num (round_double (m + 1))).
    { rewrite En. unfold Math_max. rewrite Em. reflexivity. }
    exists m. split; [|split; [|split; [exact N|split]]].
    + apply has_true_in. destruct Hm as [I|F]; [exact I | discriminate F].
    + intros k Hk. apply has_true_in in Hk.
      destruct (Keys k Hk) as (z & ->). exists z. split; [reflexivity|].
      apply Lm. left. exact Hk.
    + intros B. rewrite N, (round_double_safe _ B). reflexivity.
    + intros ->. rewrite N. reflexivity.
Qed.

Lemma get_map_values : forall (f : jsval -> jsval) (m : Map.t str jsval) tok,
  Map.get (map (fun e => (fst e, f (snd e))) m) tok
  = option_map f (Map.get m tok).
Proof.
  intros f. induction m as [|[k v] m IH]; intros tok; [reflexivity|].
  simpl. destruct (str_eqb k tok); [reflexivity | apply IH].
Qed.

(** X15.  [save] then [load], for any tokenizer: the flag, the special tokens
    and the merges come back as they were, and every token comes back with
    the value JSON gives its id (the id itself when it is an integer,
    [null] for [NaN] and [-Infinity]). *)
Theorem load_save_any_tokenizer : forall T Tl tok,
  NoDup (Map.keys (tokenToId T)) ->
  let T' := load StringToNumber Tl (json_roundtrip (save T)) in
  lower T' = lower T /\ specialTokens T' = specialTokens T /\
  merges T' = merges T /\
  Map.get (tokenToId T') tok = option_map json_value (Map.get (tokenToId T) tok).
Proof.
  intros T Tl tok ND T'. subst T'.
  destruct (load_fields StringToNumber Tl (json_roundtrip (save T))) as (F1 & F2 & F3).
  split; [exact F1|]. split; [exact F2|]. split; [exact F3|].
  destruct (load_tables Tl (json_roundtrip (save T))) as (Et & _). rewrite Et.
  unfold json_roundtrip, save. cbn [vocab]. unfold Obj.fromEntries.
  rewrite (of_entries_nodup (tokenToId T)) by exact ND.
  set (f := fun e : str * jsval => (fst e, json_value (snd e))).
  pose proof (entries_perm (tokenToId T)) as P1.
  assert (N1 : NoDup (map fst (map f (Obj.entries (tokenToId T))))).
  { rewrite map_map. simpl. eapply Permutation_NoDup; [|exact ND].
    apply Permutation_map. apply Permutation_sym. exact P1. }
  rewrite (of_entries_nodup _ N1).
  pose proof (entries_perm (map f (Obj.entries (tokenToId T)))) as P2.
  assert (N2 : NoDup (map fst (Obj.entries (map f (Obj.entries (tokenToId T)))))).
  { eapply Permutation_NoDup; [|exact N1].
    apply Permutation_map. apply Permutation_sym. exact P2. }
  rewrite (of_entries_nodup _ N2).
  rewrite (get_perm _ _ N1 P2).
  assert (P3 : Permutation (map f (Obj.entries (tokenToId T))) (map f (tokenToId T)))
    by (apply Permutation_map; exact P1).
  assert (N3 : NoDup (Map.keys (map f (tokenToId T)))).
  { unfold Map.keys. rewrite map_map. simpl. exact ND. }
  rewrite (get_perm _ _ N3 P3). unfold f. apply get_map_values.
Qed.

End LoadFacts.

(** An artifact whose only id is 2^53. *)
Definition huge_id_artifact : artifact :=
  {| meta_lower := true;
     meta_specialTokens := [];
     vocab := [(js "a", JNum (Num 9007199254740992))];
     art_merges := [] |}.

Lemma load_nextId_witness :
  vocab huge_id_artifact <> [] /\
  nextId (load decimal_StringToNumber fresh huge_id_artifact) = Num 9007199254740992 /\
  Map.has (idToToken (load decimal_StringToNumber fresh huge_id_artifact))
    (Num 9007199254740992) = true.
Proof.
  assert (NE : vocab huge_id_artifact <> []) by discriminate.
  assert (Ints : forall tok v, In (tok, v) (vocab huge_id_artifact) ->
                   exists z, v = JNum (Num z)).
  { intros tok v [E|[]]. injection E as _ <-. eexists. reflexivity. }
  split; [exact NE|].
  destruct (proj2 (load_nextId decimal_StringToNumber fresh huge_id_artifact) Ints NE)
    as (m & Hm & Lm & _ & _ & Big).
  destruct (Lm (Num 9007199254740992) eq_refl) as (z & Ez & Lz).
  injection Ez as <-.
  assert (Hx : exists z, Num m = Num z /\ z <= 9007199254740992).
  { destruct (Map.get (idToToken (load decimal_StringToNumber fresh huge_id_artifact))
                (Num m)) as [t|] eqn:G.
    - destruct (load_id_backed decimal_StringToNumber fresh huge_id_artifact _ _ G)
        as (v & _ & Ev & [I|[]]).
      injection I as _ <-. simpl in Ev. injection Ev as <-.
      exists 9007199254740992. split; [reflexivity | lia].
    - unfold Map.has in Hm. rewrite G in Hm. discriminate Hm. }
  destruct Hx as (z & Ez & Lz'). injection Ez as ->.
  assert (Em : z = 9007199254740992) by lia.
  subst z. split; [apply Big; reflexivity | reflexivity].
Defined.

Lemma load_save_any_tokenizer_witness :
  NoDup (Map.keys (tokenToId fresh)) /\
  Map.get (tokenToId (load decimal_StringToNumber fresh (json_roundtrip (save fresh)))) UNK
  = Some (JNum (Num 1)).
Proof.
  assert (ND : NoDup (Map.keys (tokenToId fresh))).
  { vm_compute. repeat (constructor; [simpl; intuition discriminate|]). constructor. }
  split; [exact ND|].
  pose proof (load_save_any_tokenizer decimal_StringToNumber fresh fresh UNK ND)
    as (_ & _ & _ & G).
  rewrite G. reflexivity.
Defined.

(** ** What [_applyBPEToWord] leaves behind *)

Lemma while_loop_pieces : forall ms (P : str -> Prop) pieces n out,
  (forall a b, In (a, b) ms -> P (a ++ b)) ->
  while_loop (build_mergeMap ms) pieces n out ->
  ~ In SP (concat pieces) -> Forall P pieces -> Forall P out.
Proof.
  intros ms P pieces n out Pm W.
  induction W as [pieces F | pieces pos r n out F W IH]; intros NS FP; [exact FP|].
  pose proof (find_best_spec (build_mergeMap ms) pieces) as B. rewrite F in B.
  destruct B as [R _]. apply rank_at_table_cand in R.
  destruct R as (p & q & Ep & Eq & [(a & b & E1 & E2) _]).
  destruct (pair_key_inj p q a b) as [-> ->]; try assumption.
  { intros X. apply NS. apply (in_concat_piece _ _ _ _ Ep X). }
  { intros X. apply NS. apply (in_concat_piece _ _ _ _ Eq X). }
  pose proof (find_best_merged _ _ _ _ F) as M.
  apply IH.
  - rewrite (merged_at_concat _ _ _ M). exact NS.
  - destruct M as (pre & p' & q' & post & E & L & ->).
    subst pieces. subst pos.
    rewrite nth_error_app2 in Ep by lia. rewrite Nat.sub_diag in Ep.
    injection Ep as ->.
    replace (S (length pre)) with (length (pre ++ [p]))%nat in Eq
      by (rewrite length_app; simpl; lia).
    change (pre ++ p :: q' :: post) with (pre ++ [p] ++ q' :: post) in Eq.
    rewrite app_assoc in Eq.
    rewrite nth_error_app2 in Eq by lia. rewrite Nat.sub_diag in Eq.
    injection Eq as ->.
    apply Forall_app in FP. destruct FP as [F1 F2].
    apply Forall_app. split; [exact F1|].
    inversion F2 as [|? ? _ F3]; subst. inversion F3 as [|? ? _ F4]; subst.
    constructor; [|exact F4].
    apply Pm. eapply nth_error_In. exact E1.
Qed.

(** X16.  The pieces [_applyBPEToWord] returns hold no adjacent pair that a
    rule of the table lists, and another turn of the merge loop leaves them
    as they are. *)
Theorem applyBPE_leaves_no_rule : forall ms word,
  (forall j p q,
     nth_error (_applyBPEToWord ms word) j = Some p ->
     nth_error (_applyBPEToWord ms word) (S j) = Some q ->
     ~ In (p, q) ms) /\
  (forall fuel,
     bpe_loop fuel (build_mergeMap ms) (_applyBPEToWord ms word)
     = _applyBPEToWord ms word).
Proof.
  intros ms word. destruct (applyBPE_while ms word) as (n & W & _).
  pose proof (while_loop_final _ _ _ _ W) as F. split.
  - intros j p q Ep Eq I.
    pose proof (find_best_spec (build_mergeMap ms) (_applyBPEToWord ms word)) as B.
    rewrite F in B. specialize (B j). unfold rank_at in B. rewrite Ep, Eq in B.
    rewrite build_mergeMap_get in B.
    destruct (In_nth_error _ _ I) as (r & E).
    apply (proj2 (last_index_sound (pair_key p q) ms) B r p q E). reflexivity.
  - intros [|fuel]; simpl; [reflexivity|]. rewrite F. reflexivity.
Qed.

(** X17.  For a word without a space, every piece [_applyBPEToWord] returns
    is one of the initial pieces of [_wordToChars] or the concatenation
    [a ++ b] of a rule [(a, b)] of the table. *)
Theorem applyBPE_pieces_from_rules : forall ms word,
  ~ In SP word ->
  Forall (fun p => In p (_wordToChars word) \/
                   exists a b, In (a, b) ms /\ p = a ++ b)
    (_applyBPEToWord ms word).
Proof.
  intros ms word NS. destruct (applyBPE_while ms word) as (n & W & _).
  apply (while_loop_pieces ms _ _ _ _ (fun a b I => or_intror (ex_intro _ a (ex_intro _ b (conj I eq_refl)))) W).
  - apply wordToChars_no_space. exact NS.
  - apply Forall_forall. intros p I. left. exact I.
Qed.

Lemma applyBPE_pieces_from_rules_witness :
  ~ In SP (js "lowest") /\
  Forall (fun p => In p (_wordToChars (js "lowest")) \/
                   exists a b, In (a, b) (merges low_tok) /\ p = a ++ b)
    (_applyBPEToWord (merges low_tok) (js "lowest")).
Proof.
  assert (NS : ~ In SP (js "lowest")) by (vm_compute; intuition discriminate).
  split; [exact NS|].
  exact (applyBPE_pieces_from_rules (merges low_tok) (js "lowest") NS).
Defined.

(** ** The word keys of training *)

Lemma join_split_sp : forall s, join_sp (split_sp s) = s.
Proof.
  induction s as [|c s IH]; [reflexivity|].
  cbn [split_sp]. pose proof (split_sp_not_nil s) as N.
  destruct (c =? SP) eqn:E.
  - apply Z.eqb_eq in E. subst c.
    destruct (split_sp s) as [|h t]; [congruence|].
    change (join_sp ([] :: h :: t)) with ([] ++ SP :: join_sp (h :: t)).
    rewrite IH. reflexivity.
  - destruct (split_sp s) as [|h t]; [congruence|].
    destruct t as [|h' t'].
    + cbn [join_sp] in *. rewrite IH. reflexivity.
    + change (join_sp ((c :: h) :: h' :: t'))
        with ((c :: h) ++ SP :: join_sp (h' :: t')).
      change (join_sp (h :: h' :: t')) with (h ++ SP :: join_sp (h' :: t')) in IH.
      rewrite <- IH. reflexivity.
Qed.

Lemma split_join_sp : forall ps,
  ps <> [] -> Forall (fun p => ~ In SP p) ps -> split_sp (join_sp ps) = ps.
Proof.
  induction ps as [|p ps IH]; intros N F; [congruence|].
  inversion F as [|? ? Fp Fr]; subst.
  destruct ps as [|q ps'].
  - cbn [join_sp]. apply split_sp_plain. exact Fp.
  - change (join_sp (p :: q :: ps')) with (p ++ SP :: join_sp (q :: ps')).
    rewrite split_sp_app by exact Fp.
    rewrite IH; [reflexivity | discriminate | exact Fr].
Qed.

(** ** The rewriting of one word: [merge_pair] *)

(** [a] and [b] stand next to each other in [pieces]. *)
Definition adjacent (a b : str) (pieces : list str) : Prop :=
  exists pre post, pieces = pre ++ a :: b :: post.

Lemma merge_pair_forall : forall (P : str -> Prop) a b pieces,
  (forall x y, P x -> P y -> P (x ++ y)) ->
  Forall P pieces -> Forall P (merge_pair a b pieces).
Proof.
  intros P a b pieces Pa.
  assert (A : forall n ps, (length ps <= n)%nat -> Forall P ps ->
                           Forall P (merge_pair a b ps)).
  { induction n as [|n IH]; intros ps L F.
    - destruct ps; [constructor | simpl in L; lia].
    - destruct ps as [|p [|q rest]]; [constructor | exact F |].
      rewrite merge_pair_cons2.
      inversion F as [|? ? Fp F']; subst. inversion F' as [|? ? Fq F'']; subst.
      destruct (str_eqb p a && str_eqb q b) eqn:E.
      + apply andb_true_iff in E. destruct E as [Ea Eb].
        apply str_eqb_eq in Ea. apply str_eqb_eq in Eb. subst p q.
        constructor; [apply Pa; assumption|].
        apply IH; [simpl in *; lia | exact F''].
      + constructor; [exact Fp|]. apply IH; [simpl in *; lia | exact F']. }
  apply (A (length pieces)). lia.
Qed.

Lemma merge_pair_not_nil : forall a b pieces,
  pieces <> [] -> merge_pair a b pieces <> [].
Proof.
  intros a b [|p [|q rest]] N; [congruence | discriminate |].
  rewrite merge_pair_cons2. destruct (str_eqb p a && str_eqb q b); discriminate.
Qed.

Lemma merge_pair_head : forall a b q rest,
  exists t, merge_pair a b (q :: rest) = q :: t \/
            merge_pair a b (q :: rest) = (a ++ b) :: t.
Proof.
  intros a b q [|q' rest].
  - exists []. left. reflexivity.
  - rewrite merge_pair_cons2. destruct (str_eqb q a && str_eqb q' b).
    + exists (merge_pair a b rest). right. reflexivity.
    + exists (merge_pair a b (q' :: rest)). left. reflexivity.
Qed.

Lemma app_not_left : forall (a b : str), b <> [] -> a ++ b <> a.
Proof.
  intros a b N E. apply (f_equal (@length Z)) in E. rewrite length_app in E.
  destruct b; [congruence | simpl in E; lia].
Qed.

Lemma app_not_right : forall (a b : str), a <> [] -> a ++ b <> b.
Proof.
  intros a b N E. apply (f_equal (@length Z)) in E. rewrite length_app in E.
  destruct a; [congruence | simpl in E; lia].
Qed.

Lemma adjacent_tail : forall a b p ps,
  adjacent a b ps -> adjacent a b (p :: ps).
Proof.
  intros a b p ps (pre & post & ->). exists (p :: pre), post. reflexivity.
Qed.

Lemma adjacent_cons : forall a b p ps,
  adjacent a b (p :: ps) ->
  (p = a /\ exists post, ps = b :: post) \/ adjacent a b ps.
Proof.
  intros a b p ps ([|x pre] & post & E); simpl in E; injection E as -> ->.
  - left. split; [reflexivity | exists post; reflexivity].
  - right. exists pre, post. reflexivity.
Qed.

Lemma merge_pair_no_pair : forall a b pieces,
  a <> [] -> b <> [] -> ~ adjacent a b (merge_pair a b pieces).
Proof.
  intros a b pieces Na Nb.
  assert (A : forall n ps, (length ps <= n)%nat -> ~ adjacent a b (merge_pair a b ps)).
  { induction n as [|n IH]; intros ps L.
    - destruct ps; [|simpl in L; lia].
      intros ([|x pre] & post & E); discriminate E.
    - destruct ps as [|p [|q rest]].
      + intros ([|x pre] & post & E); discriminate E.
      + intros ([|x [|y pre]] & post & E); discriminate E.
      + rewrite merge_pair_cons2. destruct (str_eqb p a && str_eqb q b) eqn:E.
        * intros Ad. apply adjacent_cons in Ad. destruct Ad as [[F _]|Ad].
          -- exact (app_not_left a b Nb F).
          -- revert Ad. apply IH. simpl in *; lia.
        * intros Ad. apply adjacent_cons in Ad. destruct Ad as [[-> (post & Ep)]|Ad].
          -- destruct (merge_pair_head a b q rest) as (t & [Et|Et]);
               rewrite Et in Ep; injection Ep as Ep _.
             ++ subst q. rewrite !str_eqb_refl in E. discriminate E.
             ++ exact (app_not_right a b Na Ep).
          -- revert Ad. apply IH. simpl in *; lia. }
  apply (A (length pieces)). lia.
Qed.

Lemma merge_pair_length : forall a b pieces,
  merge_pair a b pieces = pieces \/
  (length (merge_pair a b pieces) < length pieces)%nat.
Proof.
  intros a b pieces.
  assert (A : forall n ps, (length ps <= n)%nat ->
                 merge_pair a b ps = ps \/
                 (length (merge_pair a b ps) < length ps)%nat).
  { induction n as [|n IH]; intros ps L.
    - destruct ps; [left; reflexivity | simpl in L; lia].
    - destruct ps as [|p [|q rest]]; [left; reflexivity | left; reflexivity |].
      rewrite merge_pair_cons2. destruct (str_eqb p a && str_eqb q b).
      + right. destruct (IH rest) as [->|Lt]; [simpl in *; lia | |];
          cbn [length] in *; lia.
      + destruct (IH (q :: rest)) as [->|Lt]; [simpl in *; lia | |].
        * left. reflexivity.
        * right. cbn [length] in *. lia. }
  apply (A (length pieces)). lia.
Qed.

(** X18.  The rewriting of a word with a new rule [(a, b)] of non-empty
    parts, in [trainFromText]: the characters are kept, the word gets no
    longer, [a] and [b] stand nowhere next to each other afterwards, a word
    without the pair is left as it is, and a word with the pair gets
    shorter. *)
Theorem merge_pair_rewrites : forall a b pieces,
  a <> [] -> b <> [] ->
  concat (merge_pair a b pieces) = concat pieces /\
  (length (merge_pair a b pieces) <= length pieces)%nat /\
  ~ adjacent a b (merge_pair a b pieces) /\
  (~ adjacent a b pieces -> merge_pair a b pieces = pieces) /\
  (adjacent a b pieces -> (length (merge_pair a b pieces) < length pieces)%nat).
Proof.
  intros a b pieces Na Nb.
  pose proof (merge_pair_no_pair a b pieces Na Nb) as NP.
  pose proof (merge_pair_length a b pieces) as ML.
  split; [apply merge_pair_concat|]. split; [|split; [exact NP|split]].
  - destruct ML as [->|Lt]; lia.
  - intros NA. destruct ML as [E|Lt]; [exact E|]. exfalso.
    revert NA Lt. clear. revert pieces.
    assert (A : forall n ps, (length ps <= n)%nat -> ~ adjacent a b ps ->
                             merge_pair a b ps = ps).
    { induction n as [|n IH]; intros ps L NA.
      - destruct ps; [reflexivity | simpl in L; lia].
      - destruct ps as [|p [|q rest]]; [reflexivity | reflexivity |].
        rewrite merge_pair_cons2. destruct (str_eqb p a && str_eqb q b) eqn:E.
        + apply andb_true_iff in E. destruct E as [Ea Eb].
          apply str_eqb_eq in Ea. apply str_eqb_eq in Eb. subst p q.
          elim NA. exists [], rest. reflexivity.
        + rewrite IH; [reflexivity | simpl in *; lia |].
          intros Ad. apply NA. apply adjacent_tail. exact Ad. }
    intros pieces NA Lt. rewrite (A (length pieces) pieces (Nat.le_refl _) NA) in Lt. lia.
  - intros Ad. destruct ML as [E|Lt]; [|exact Lt].
    rewrite E in NP. contradiction.
Qed.

Lemma merge_pair_rewrites_witness :
  js "l" <> [] /\ js "o" <> [] /\
  ~ adjacent (js "l") (js "o") (merge_pair (js "l") (js "o") [js "l"; js "l"; js "o"; js "o"]) /\
  (length (merge_pair (js "l") (js "o") [js "l"; js "l"; js "o"; js "o"]) <= 4)%nat.
Proof.
  assert (Na : js "l" <> []) by discriminate.
  assert (Nb : js "o" <> []) by discriminate.
  split; [exact Na|]. split; [exact Nb|].
  pose proof (merge_pair_rewrites (js "l") (js "o") [js "l"; js "l"; js "o"; js "o"] Na Nb)
    as (_ & L & NP & _).
  split; [exact NP | exact L].
Defined.

(** ** The word counts through training *)

(** The words of the corpus, as the counting loop meets them. *)
Definition corpus_words (norm : str -> str) (lower_ : bool) (text : str) : list str :=
  flat_map (fun l => filter_Boolean (split_ws (if lower_ then norm l else l)))
    (split_lines text).

(** The sum of the counts of the keys that pass the test [t]. *)
Definition weight (t : str -> bool) (cs : Map.t str nat) : nat :=
  fold_right (fun e s => if t (fst e) then (snd e + s)%nat else s) 0%nat cs.

Lemma weight_cons : forall t k v (m : Map.t str nat),
  weight t ((k, v) :: m) = if t k then (v + weight t m)%nat else weight t m.
Proof. reflexivity. Qed.

Lemma weight_set : forall t (m : Map.t str nat) k c,
  weight t (Map.set m k (get0 m k + c)%nat)
  = (weight t m + (if t k then c else 0))%nat.
Proof.
  intros t. induction m as [|[k' v'] m IH]; intros k c.
  - unfold get0. cbn [Map.get Map.set]. rewrite weight_cons.
    change (weight t []) with 0%nat. destruct (t k); lia.
  - unfold get0. cbn [Map.get Map.set]. destruct (keqb k' k) eqn:E.
    + apply keqb_eq in E. subst k'. rewrite !weight_cons. destruct (t k); lia.
    + change (match Map.get m k with Some n => n | None => 0%nat end) with (get0 m k).
      rewrite !weight_cons, IH. destruct (t k'); lia.
Qed.

Lemma weight_fold : forall t (g : str -> str) (l nc : Map.t str nat),
  weight t (fold_left
              (fun nc e => let nk := g (fst e) in
                           Map.set nc nk (get0 nc nk + snd e)%nat) l nc)
  = (weight t nc + weight (fun k => t (g k)) l)%nat.
Proof.
  intros t g. induction l as [|[k v] l IH]; intros nc.
  - simpl. lia.
  - cbn [fold_left]. rewrite IH. cbv zeta. cbn [fst snd].
    rewrite weight_set, weight_cons. destruct (t (g k)); lia.
Qed.

Lemma weight_ext : forall t t' (cs : Map.t str nat),
  (forall k, t k = t' k) -> weight t cs = weight t' cs.
Proof.
  intros t t' cs E. induction cs as [|[k v] cs IH]; [reflexivity|].
  rewrite !weight_cons, IH, E. reflexivity.
Qed.

Lemma no_space_app : forall x y : str, ~ In SP x -> ~ In SP y -> ~ In SP (x ++ y).
Proof.
  intros x y Nx Ny I. apply in_app_or in I. destruct I; auto.
Qed.

Lemma split_merged_key : forall a b k,
  split_sp (join_sp (merge_pair a b (split_sp k))) = merge_pair a b (split_sp k).
Proof.
  intros a b k. apply split_join_sp.
  - apply merge_pair_not_nil. apply split_sp_not_nil.
  - apply merge_pair_forall; [apply no_space_app | apply split_sp_no_space].
Qed.

Lemma weight_apply_merge : forall (u : str -> bool) a b cs,
  weight (fun k => u (concat (split_sp k))) (apply_merge a b cs)
  = weight (fun k => u (concat (split_sp k))) cs.
Proof.
  intros u a b cs. unfold apply_merge.
  etransitivity;
    [exact (weight_fold (fun k => u (concat (split_sp k)))
              (fun k => join_sp (merge_pair a b (split_sp k))) cs [])|].
  change (weight (fun k => u (concat (split_sp k))) []) with 0%nat.
  rewrite Nat.add_0_l. apply weight_ext. intros k.
  rewrite split_merged_key, merge_pair_concat. reflexivity.
Qed.

Lemma weight_train_loop : forall (u : str -> bool) minF ops cs ms,
  weight (fun k => u (concat (split_sp k))) (fst (train_loop ops minF cs ms))
  = weight (fun k => u (concat (split_sp k))) cs.
Proof.
  intros u minF. induction ops as [|n IH]; intros cs ms; [reflexivity|].
  cbn [train_loop]. unfold train_round.
  destruct (build_pairCounts minF cs) as [|e pc]; [reflexivity|].
  destruct (find_bestPair (e :: pc)) as [[k|] bc]; [|reflexivity].
  destruct (str_eqb k [] || (bc <? minF)%nat); [reflexivity|].
  destruct (split_sp k) as [|a [|b rest]]; [reflexivity | reflexivity |].
  rewrite IH. apply weight_apply_merge.
Qed.

Lemma split_ws_no_ws : forall s w c,
  In w (split_ws s) -> In c w -> is_ws c = false.
Proof.
  induction s as [|x s IH]; intros w c Iw Ic.
  - simpl in Iw. destruct Iw as [<-|[]]. contradiction.
  - cbn [split_ws] in Iw. destruct (is_ws x) eqn:Ex.
    + assert (Iw' : In w ([] :: split_ws s)).
      { destruct s as [|d s']; [exact Iw|].
        destruct (is_ws d); [right; exact Iw | exact Iw]. }
      destruct Iw' as [<-|Iw']; [contradiction | apply (IH w c Iw' Ic)].
    + destruct (split_ws s) as [|h t] eqn:E.
      * destruct Iw as [<-|[]]. destruct Ic as [<-|[]]. exact Ex.
      * destruct Iw as [<-|Iw].
        -- destruct Ic as [<-|Ic]; [exact Ex|].
           apply (IH h c); [left; reflexivity | exact Ic].
        -- apply (IH w c); [right; exact Iw | exact Ic].
Qed.

Section WordCounts.
Variable normalizeLower : str -> str.

Lemma corpus_word_plain : forall lower_ text w,
  In w (corpus_words normalizeLower lower_ text) ->
  w <> [] /\ forall c, In c w -> is_ws c = false.
Proof.
  intros lower_ text w I. unfold corpus_words in I.
  apply in_flat_map in I. destruct I as (l & _ & I).
  unfold filter_Boolean in I. apply filter_In in I. destruct I as [I N]. split.
  - intros ->. discriminate N.
  - intros c Ic. apply (split_ws_no_ws _ w c I Ic).
Qed.

Lemma split_word_key : forall w,
  (forall c, In c w -> is_ws c = false) ->
  split_sp (join_sp (_wordToChars w)) = _wordToChars w \/ w = [].
Proof.
  intros w NW. destruct w as [|x w0]; [right; reflexivity|]. left.
  apply split_join_sp.
  - unfold _wordToChars. pose proof (Array_from_nil (x :: w0)) as AN.
    destruct (Array_from (x :: w0)); [|discriminate].
    specialize (AN eq_refl). discriminate AN.
  - apply Forall_forall. intros p Ip F.
    assert (I : In SP (concat (_wordToChars (x :: w0)))).
    { apply in_concat. exists p. split; assumption. }
    rewrite concat_wordToChars in I by discriminate.
    destruct I as [I|I]; [discriminate I|].
    specialize (NW SP I). discriminate NW.
Qed.

Lemma weight_count_words : forall t lower_ text,
  weight t (count_words normalizeLower lower_ text)
  = length (filter (fun w => t (join_sp (_wordToChars w)))
              (corpus_words normalizeLower lower_ text)).
Proof.
  intros t lower_ text. unfold count_words, corpus_words.
  assert (B : forall ws (cs : Map.t str nat),
            weight t (fold_left
                        (fun cs w =>
                           let key := join_sp (_wordToChars w) in
                           Map.set cs key (get0 cs key + 1)%nat) ws cs)
            = (weight t cs
               + length (filter (fun w => t (join_sp (_wordToChars w))) ws))%nat).
  { induction ws as [|w ws IH]; intros cs; [simpl; lia|].
    cbn [fold_left filter]. rewrite IH. cbv zeta. rewrite weight_set.
    destruct (t (join_sp (_wordToChars w))); cbn [length]; lia. }
  assert (A : forall ls (cs : Map.t str nat),
            weight t (fold_left
                        (fun cs l =>
                           let line := if lower_ then normalizeLower l else l in
                           fold_left
                             (fun cs w =>
                                let key := join_sp (_wordToChars w) in
                                Map.set cs key (get0 cs key + 1)%nat)
                             (filter_Boolean (split_ws line)) cs)
                        ls cs)
            = (weight t cs
               + length (filter (fun w => t (join_sp (_wordToChars w)))
                           (flat_map
                              (fun l => filter_Boolean
                                          (split_ws (if lower_ then normalizeLower l else l)))
                              ls)))%nat).
  { induction ls as [|l ls IH]; intros cs; [simpl; lia|].
    cbn [fold_left flat_map]. rewrite IH. cbv zeta. rewrite B.
    rewrite filter_app, length_app. lia. }
  rewrite A. reflexivity.
Qed.

(** X19.  Training neither loses nor invents a word: whatever the rounds of
    merging do to the word keys, the counts [trainFromText] leaves sum to the
    number of words of the corpus, and for every word the counts of the keys
    that spell it (the marker, then the word, spaces put aside) sum to the
    number of times the corpus holds it. *)
Theorem training_keeps_word_counts : forall T text minFrequency mergeOps,
  let T' := trainFromText normalizeLower T text minFrequency mergeOps in
  weight (fun _ => true) (counts T')
  = length (corpus_words normalizeLower (lower T) text) /\
  forall w,
    weight (fun k => str_eqb (concat (split_sp k)) (MARK :: w)) (counts T')
    = length (filter (fun w' => str_eqb w' w)
                (corpus_words normalizeLower (lower T) text)).
Proof.
  intros T text minF ops T'. subst T'.
  destruct (trainFromText_fields normalizeLower T text minF ops) as (_ & _ & _ & Ec).
  rewrite Ec.
  assert (G : forall u : str -> bool,
            weight (fun k => u (concat (split_sp k)))
              (fst (train_loop ops minF (count_words normalizeLower (lower T) text) []))
            = length (filter (fun w => u (MARK :: w))
                        (corpus_words normalizeLower (lower T) text))).
  { intros u. rewrite weight_train_loop, weight_count_words. f_equal.
    apply filter_ext_in. intros w I.
    destruct (corpus_word_plain _ _ _ I) as [N NW].
    destruct (split_word_key w NW) as [E|E]; [|contradiction].
    rewrite E, concat_wordToChars by exact N. reflexivity. }
  split.
  - rewrite (G (fun _ => true)). f_equal. clear G.
    induction (corpus_words normalizeLower (lower T) text) as [|w l IH];
      [reflexivity | simpl; rewrite IH; reflexivity].
  - intros w. rewrite (G (fun s => str_eqb s (MARK :: w))). reflexivity.
Qed.

End WordCounts.

(** ** The ids of a trained vocabulary have no gap *)

(** Every id below [n] is held. *)
Definition covered (i2t : Map.t jsnum str) (n : Z) : Prop :=
  forall id, 0 <= id < n -> Map.has i2t (Num id) = true.

(** The next id is the number of tokens, and no id below it is free. *)
Definition dense (T : tokenizer) : Prop :=
  exists n, nextId T = Num n /\ Z.of_nat (length (tokenToId T)) = n /\
            covered (idToToken T) n.

Lemma length_set_fresh : forall (m : Map.t str jsval) k v,
  Map.get m k = None -> length (Map.set m k v) = S (length m).
Proof.
  intros m k v G.
  assert (E : length (Map.keys (Map.set m k v)) = S (length m)).
  { rewrite keys_set. unfold Map.has. rewrite G.
    rewrite length_app. unfold Map.keys. rewrite length_map. simpl. lia. }
  unfold Map.keys in E. rewrite length_map in E. exact E.
Qed.

Lemma covered_set : forall (i2t : Map.t jsnum str) n tok,
  covered i2t n -> covered (Map.set i2t (Num n) tok) (n + 1).
Proof.
  intros i2t n tok C id R. unfold Map.has. rewrite get_set.
  destruct (keqb (Num n) (Num id)) eqn:E; [reflexivity|].
  assert (N : id <> n) by (intros ->; rewrite keqb_refl in E; discriminate E).
  apply (C id). lia.
Qed.

Lemma init_fold_dense : forall l (t2i : Map.t str jsval) (i2t : Map.t jsnum str) n,
  NoDup l -> (forall tok, In tok l -> Map.get t2i tok = None) ->
  covered i2t n ->
  exists t2i' i2t',
    fold_left init_step l (t2i, i2t, n) = (t2i', i2t', n + Z.of_nat (length l)) /\
    length t2i' = (length t2i + length l)%nat /\
    covered i2t' (n + Z.of_nat (length l)).
Proof.
  induction l as [|st l IH]; intros t2i i2t n ND Fresh C.
  - exists t2i, i2t. simpl. rewrite Z.add_0_r, Nat.add_0_r. auto.
  - inversion ND as [|? ? NI ND']; subst.
    assert (F0 : Map.get t2i st = None) by (apply Fresh; left; reflexivity).
    destruct (IH (Map.set t2i st (JNum (Num n))) (Map.set i2t (Num n) st) (n + 1) ND')
      as (t2i' & i2t' & E & L & C').
    + intros tok I. rewrite get_set_other; [apply Fresh; right; exact I|].
      intros F. subst tok. contradiction.
    + apply covered_set. exact C.
    + exists t2i', i2t'. cbn [fold_left init_step]. rewrite E.
      replace (n + 1 + Z.of_nat (length l)) with (n + Z.of_nat (length (st :: l)))
        in * by (cbn [length]; lia).
      split; [reflexivity|]. split; [|exact C'].
      rewrite L, length_set_fresh by exact F0. cbn [length]. lia.
Qed.

Lemma initSpecials_dense : forall T,
  NoDup (specialTokens T) -> dense (_initSpecials T).
Proof.
  intros T ND. unfold _initSpecials.
  destruct (init_fold_dense (specialTokens T) [] [] 0 ND) as (t2i & i2t & E & L & C).
  - reflexivity.
  - intros id R. lia.
  - match type of E with
    | ?lhs = _ =>
        repeat match goal with
        | |- context [fold_left init_step ?l ?a] =>
            progress change (fold_left init_step l a) with lhs
        end
    end.
    rewrite E. exists (Z.of_nat (length (specialTokens T))). cbn [nextId tokenToId idToToken].
    split; [reflexivity|]. split; [rewrite L; reflexivity | exact C].
Qed.

Lemma assign_id_dense : forall T tok, dense T -> dense (assign_id T tok).
Proof.
  intros T tok (n & En & L & C). unfold assign_id.
  destruct (Map.has (tokenToId T) tok) eqn:H; [exists n; auto|].
  apply has_false_get in H. exists (n + 1). cbn [nextId tokenToId idToToken].
  rewrite En. split; [reflexivity|]. split.
  - rewrite length_set_fresh by exact H. lia.
  - apply covered_set. exact C.
Qed.

Lemma assign_fold_dense : forall l T, dense T -> dense (fold_left assign_id l T).
Proof.
  induction l as [|t l IH]; intros T D; [exact D|].
  cbn [fold_left]. apply IH. apply assign_id_dense. exact D.
Qed.

Lemma trainFromText_dense : forall norm T text minF ops,
  NoDup (specialTokens T) -> dense (trainFromText norm T text minF ops).
Proof.
  intros norm T text minF ops ND. unfold trainFromText.
  destruct (train_loop ops minF (count_words norm (lower T) text) []) as [cs ms].
  cbv zeta. apply assign_fold_dense. apply initSpecials_dense. exact ND.
Qed.

(** X20.  The ids of a trained vocabulary have no gap: for a tokenizer with
    pairwise distinct special tokens, after [trainFromText] the next id is
    the number of tokens of the vocabulary, and every id from 0 up to it is
    the id of a token. *)
Theorem trained_ids_are_dense : forall norm T text minFrequency mergeOps,
  NoDup (specialTokens T) ->
  let T' := trainFromText norm T text minFrequency mergeOps in
  nextId T' = Num (Z.of_nat (length (Map.keys (tokenToId T')))) /\
  forall id, 0 <= id < Z.of_nat (length (Map.keys (tokenToId T'))) ->
    exists tok, Map.get (idToToken T') (Num id) = Some tok /\
                Map.get (tokenToId T') tok = Some (JNum (Num id)).
Proof.
  intros norm T text minF ops ND T'. subst T'.
  destruct (trainFromText_dense norm T text minF ops ND) as (n & En & L & C).
  destruct (trainFromText_ok norm T text minF ops ND) as ((n' & En' & _ & Co) & _).
  unfold Map.keys. rewrite length_map, L. split; [exact En|].
  intros id R. specialize (C id R). unfold Map.has in C.
  destruct (Map.get (idToToken (trainFromText norm T text minF ops)) (Num id))
    as [tok|] eqn:G; [|discriminate C].
  exists tok. split; [reflexivity|].
  destruct Co as (_ & B & _). destruct (B _ _ G) as (id' & E & _ & G').
  injection E as <-. exact G'.
Qed.

Lemma trained_ids_are_dense_witness :
  NoDup (specialTokens fresh) /\
  nextId low_tok = Num (Z.of_nat (length (Map.keys (tokenToId low_tok)))).
Proof.
  assert (ND : NoDup (specialTokens fresh)).
  { vm_compute. repeat (constructor; [simpl; intuition discriminate|]). constructor. }
  split; [exact ND|].
  exact (proj1 (trained_ids_are_dense ascii_lower fresh low_corpus 2 5 ND)).
Defined.

(** ** The shape of the learned rules *)

(** A piece that is not empty and holds no whitespace. *)
Definition plain_piece (p : str) : Prop :=
  p <> [] /\ forall c, In c p -> is_ws c = false.

(** The word keys split into plain pieces. *)
Definition plain_keys (cs : Map.t str nat) : Prop :=
  Forall (fun k => Forall plain_piece (split_sp k)) (Map.keys cs).

Lemma plain_piece_app : forall x y,
  plain_piece x -> plain_piece y -> plain_piece (x ++ y).
Proof.
  intros x y [Nx Wx] [Ny Wy]. split.
  - destruct x; [congruence | discriminate].
  - intros c I. apply in_app_or in I. destruct I; auto.
Qed.

Lemma plain_piece_no_space : forall p, plain_piece p -> ~ In SP p.
Proof.
  intros p [_ W] I. specialize (W SP I). discriminate W.
Qed.

Lemma plain_keys_set : forall (m : Map.t str nat) k v,
  Forall plain_piece (split_sp k) -> plain_keys m -> plain_keys (Map.set m k v).
Proof.
  intros m k v Pk F. unfold plain_keys. rewrite keys_set.
  destruct (Map.has m k); [exact F|].
  apply Forall_app. split; [exact F | constructor; [exact Pk | constructor]].
Qed.

Lemma wordToChars_plain : forall w,
  (forall c, In c w -> is_ws c = false) -> Forall plain_piece (_wordToChars w).
Proof.
  intros w NW. pose proof (wordToChars_nonempty w) as NE.
  apply Forall_forall. intros p Ip. split.
  - rewrite Forall_forall in NE. apply NE. exact Ip.
  - intros c Ic. destruct w as [|x w0]; [destruct Ip|].
    assert (I : In c (concat (_wordToChars (x :: w0)))).
    { apply in_concat. exists p. split; assumption. }
    rewrite concat_wordToChars in I by discriminate.
    destruct I as [<-|I]; [reflexivity | apply NW; exact I].
Qed.

Lemma apply_merge_plain : forall a b cs, plain_keys cs -> plain_keys (apply_merge a b cs).
Proof.
  intros a b cs F. unfold apply_merge.
  assert (A : forall (l nc : Map.t str nat),
            plain_keys l -> plain_keys nc ->
            plain_keys
              (fold_left
                 (fun nc e =>
                    let nk := join_sp (merge_pair a b (split_sp (fst e))) in
                    Map.set nc nk (get0 nc nk + snd e)%nat) l nc)).
  { induction l as [|[k cnt] l IH]; intros nc Fl Fn; [exact Fn|].
    inversion Fl as [|? ? Fk Fl']; subst.
    cbn [fold_left]. apply IH; [exact Fl'|].
    apply plain_keys_set; [|exact Fn]. cbn [fst].
    rewrite split_merged_key.
    apply merge_pair_forall; [apply plain_piece_app | exact Fk]. }
  apply A; [exact F | constructor].
Qed.

(** The keys of the pair table are made of two pieces of the word keys. *)
Lemma add_pairs_plain : forall (P : str -> Prop) pieces cnt (pc : Map.t str nat),
  Forall P pieces ->
  Forall (fun kk => exists p q, kk = pair_key p q /\ P p /\ P q) (Map.keys pc) ->
  Forall (fun kk => exists p q, kk = pair_key p q /\ P p /\ P q)
    (Map.keys (add_pairs pieces cnt pc)).
Proof.
  intros P. induction pieces as [|p rest IH]; intros cnt pc F I; [exact I|].
  destruct rest as [|q rest']; [exact I|].
  rewrite add_pairs_cons2. inversion F as [|? ? Fp Fr]; subst.
  apply IH; [exact Fr|]. rewrite keys_set.
  destruct (Map.has pc (pair_key p q)); [exact I|].
  apply Forall_app. split; [exact I|]. constructor; [|constructor].
  inversion Fr as [|? ? Fq _]; subst. exists p, q. auto.
Qed.

Lemma build_pairCounts_plain : forall minF cs,
  plain_keys cs ->
  Forall (fun kk => exists p q, kk = pair_key p q /\ plain_piece p /\ plain_piece q)
    (Map.keys (build_pairCounts minF cs)).
Proof.
  intros minF cs. unfold build_pairCounts.
  assert (G : forall (l pc : Map.t str nat),
             plain_keys l ->
             Forall (fun kk => exists p q, kk = pair_key p q /\ plain_piece p /\ plain_piece q)
               (Map.keys pc) ->
             Forall (fun kk => exists p q, kk = pair_key p q /\ plain_piece p /\ plain_piece q)
               (Map.keys (fold_left
                  (fun pc e => if (snd e <? minF)%nat then pc
                               else add_pairs (split_sp (fst e)) (snd e) pc) l pc))).
  { induction l as [|[w cnt] l IH]; intros pc Fl I; [exact I|].
    inversion Fl as [|? ? Fw Fl']; subst.
    cbn [fold_left fst snd]. apply IH; [exact Fl'|].
    destruct (cnt <? minF)%nat; [exact I|].
    apply add_pairs_plain; assumption. }
  intros F. apply G; [exact F | constructor].
Qed.

(** What a round that merges has found. *)
Lemma train_round_merge : forall minF cs a b c cs',
  plain_keys cs -> train_round minF cs = Merge a b c cs' ->
  plain_piece a /\ plain_piece b /\ cs' = apply_merge a b cs /\
  (0 < pair_frequency minF cs (pair_key a b))%nat.
Proof.
  intros minF cs a b c cs' PK. unfold train_round.
  pose proof (build_pairCounts_keys minF cs) as [ND _].
  pose proof (build_pairCounts_plain minF cs PK) as PP.
  pose proof (build_pairCounts_get0 minF cs) as FR.
  pose proof (find_bestPair_spec (build_pairCounts minF cs)) as [M W].
  destruct (build_pairCounts minF cs) as [|e pc] eqn:E; [discriminate|].
  destruct (find_bestPair (e :: pc)) as [[k|] bc]; [|discriminate].
  cbn [fst snd] in M, W. destruct W as [I Pos].
  assert (KI : In k (Map.keys (e :: pc))).
  { change k with (fst (k, bc)). apply in_map. exact I. }
  rewrite Forall_forall in PP.
  destruct (PP k KI) as (p & q & -> & Pp & Pq).
  destruct (str_eqb (pair_key p q) [] || (bc <? minF)%nat); [discriminate|].
  rewrite pair_key_split by (apply plain_piece_no_space; assumption).
  intros X. injection X as <- <- <- <-.
  split; [exact Pp|]. split; [exact Pq|]. split; [reflexivity|].
  rewrite <- FR. rewrite (get_get0 _ _ _ (in_get_some (e :: pc) _ _ ND I)). exact Pos.
Qed.

Lemma train_loop_plain : forall minF ops cs ms,
  plain_keys cs ->
  Forall (fun r => plain_piece (fst r) /\ plain_piece (snd r)) ms ->
  plain_keys (fst (train_loop ops minF cs ms)) /\
  Forall (fun r => plain_piece (fst r) /\ plain_piece (snd r))
    (snd (train_loop ops minF cs ms)).
Proof.
  intros minF. induction ops as [|n IH]; intros cs ms PK PM; [split; assumption|].
  cbn [train_loop]. destruct (train_round minF cs) as [|a b c cs'] eqn:R;
    [split; assumption|].
  destruct (train_round_merge _ _ _ _ _ _ PK R) as (Pa & Pb & -> & _).
  apply IH; [apply apply_merge_plain; exact PK|].
  apply Forall_app. split; [exact PM|]. constructor; [split; assumption | constructor].
Qed.

Section RuleShape.
Variable normalizeLower : str -> str.

Lemma count_words_plain : forall lower_ text,
  plain_keys (count_words normalizeLower lower_ text).
Proof.
  intros lower_ text. unfold count_words.
  assert (B : forall ws (cs : Map.t str nat),
            (forall w, In w ws -> w <> [] /\ forall c, In c w -> is_ws c = false) ->
            plain_keys cs ->
            plain_keys
              (fold_left
                 (fun cs w =>
                    let key := join_sp (_wordToChars w) in
                    Map.set cs key (get0 cs key + 1)%nat) ws cs)).
  { induction ws as [|w ws IHw]; intros cs NW F; [exact F|].
    cbn [fold_left]. apply IHw; [intros w' I; apply NW; right; exact I|].
    apply plain_keys_set; [|exact F].
    destruct (NW w (or_introl eq_refl)) as [N NW'].
    destruct (split_word_key w NW') as [E|E]; [|contradiction].
    rewrite E. apply wordToChars_plain. exact NW'. }
  assert (A : forall ls (cs : Map.t str nat),
            plain_keys cs ->
            plain_keys
              (fold_left
                 (fun cs l =>
                    let line := if lower_ then normalizeLower l else l in
                    fold_left
                      (fun cs w =>
                         let key := join_sp (_wordToChars w) in
                         Map.set cs key (get0 cs key + 1)%nat)
                      (filter_Boolean (split_ws line)) cs)
                 ls cs)).
  { induction ls as [|l ls IH]; intros cs F; [exact F|].
    cbn [fold_left]. apply IH. cbv zeta. apply B; [|exact F].
    intros w I. unfold filter_Boolean in I. apply filter_In in I.
    destruct I as [I N]. split.
    - intros ->. discriminate N.
    - intros c Ic. apply (split_ws_no_ws _ w c I Ic). }
  apply A. constructor.
Qed.

End RuleShape.

(** X21.  What training learns is well formed: the two parts of every merge
    rule are non-empty and hold no whitespace, every word key left in the
    counts splits into such pieces, and every token of the vocabulary that is
    not a special token is non-empty and holds no whitespace. *)
Theorem trained_rules_are_plain : forall norm T text minFrequency mergeOps,
  let T' := trainFromText norm T text minFrequency mergeOps in
  Forall (fun r => plain_piece (fst r) /\ plain_piece (snd r)) (merges T') /\
  plain_keys (counts T') /\
  forall tok, Map.has (tokenToId T') tok = true ->
              In tok (specialTokens T) \/ plain_piece tok.
Proof.
  intros norm T text minF ops T'. subst T'.
  destruct (trainFromText_fields norm T text minF ops) as (_ & _ & Em & Ec).
  destruct (train_loop_plain minF ops (count_words norm (lower T) text) []
              (count_words_plain norm (lower T) text) (Forall_nil _)) as [PK PM].
  rewrite Em, Ec. split; [exact PM|]. split; [exact PK|].
  intros tok H. apply has_true_in in H. unfold trainFromText in H.
  destruct (train_loop ops minF (count_words norm (lower T) text) []) as [cs ms].
  cbv zeta in H. cbn [fst] in PK.
  apply assign_fold_keys in H. destruct H as [H|H].
  - left. unfold _initSpecials in H. cbn [specialTokens] in H.
    destruct (fold_left init_step (specialTokens T) ([], [], 0)) as [[t2i i2t] idx] eqn:E.
    cbn [tokenToId] in H.
    pose proof (init_fold_keys (specialTokens T) [] [] 0 tok) as X.
    match type of E with
    | ?lhs = _ =>
        match type of X with
        | context [fold_left init_step ?l ?a] =>
            change (fold_left init_step l a) with lhs in X
        end
    end.
    rewrite E in X. destruct (X H) as [F|I]; [destruct F | exact I].
  - apply collect_tokens_from in H. destruct H as [H|(k & Ik & It)]; [left; exact H|].
    right. unfold plain_keys in PK. rewrite Forall_forall in PK.
    specialize (PK k Ik). rewrite Forall_forall in PK. apply PK. exact It.
Qed.

(** ** A rule is not learned twice in a row *)

Definition no_repeat (ms : list (str * str)) : Prop :=
  forall i r, nth_error ms i = Some r -> nth_error ms (S i) <> Some r.

Lemma occurrences_zero : forall a b pieces,
  ~ In SP a -> ~ In SP b -> ~ adjacent a b pieces ->
  occurrences (pair_key a b) pieces = 0%nat.
Proof.
  intros a b pieces Na Nb. induction pieces as [|p rest IH]; intros NA; [reflexivity|].
  destruct rest as [|q rest']; [reflexivity|].
  rewrite occurrences_cons2. rewrite IH.
  - destruct (str_eqb (pair_key p q) (pair_key a b)) eqn:E; [|reflexivity].
    apply str_eqb_eq in E.
    destruct (pair_key_inj a b p q Na Nb E) as [-> ->].
    elim NA. exists [], rest'. reflexivity.
  - intros Ad. apply NA. apply adjacent_tail. exact Ad.
Qed.

Lemma pair_frequency_zero : forall minF kk (cs : Map.t str nat),
  Forall (fun w => occurrences kk (split_sp w) = 0%nat) (Map.keys cs) ->
  pair_frequency minF cs kk = 0%nat.
Proof.
  intros minF kk. induction cs as [|[w cnt] cs IH]; intros F; [reflexivity|].
  inversion F as [|? ? Fw F']; subst. cbn [pair_frequency]. cbn [fst] in Fw.
  rewrite Fw, IH by exact F'. destruct (cnt <? minF)%nat; lia.
Qed.

Lemma apply_merge_key_form : forall a b (cs : Map.t str nat),
  Forall (fun nk => exists k, nk = join_sp (merge_pair a b (split_sp k)))
    (Map.keys (apply_merge a b cs)).
Proof.
  intros a b cs. unfold apply_merge.
  assert (A : forall (l nc : Map.t str nat),
            Forall (fun nk => exists k, nk = join_sp (merge_pair a b (split_sp k)))
              (Map.keys nc) ->
            Forall (fun nk => exists k, nk = join_sp (merge_pair a b (split_sp k)))
              (Map.keys
                 (fold_left
                    (fun nc e =>
                       let nk := join_sp (merge_pair a b (split_sp (fst e))) in
                       Map.set nc nk (get0 nc nk + snd e)%nat) l nc))).
  { induction l as [|[k cnt] l IH]; intros nc Fn; [exact Fn|].
    cbn [fold_left]. apply IH. cbv zeta. rewrite keys_set.
    destruct (Map.has nc _); [exact Fn|].
    apply Forall_app. split; [exact Fn|]. constructor; [|constructor].
    exists k. reflexivity. }
  apply A. constructor.
Qed.

Lemma pair_frequency_merged : forall minF a b cs,
  plain_piece a -> plain_piece b ->
  pair_frequency minF (apply_merge a b cs) (pair_key a b) = 0%nat.
Proof.
  intros minF a b cs Pa Pb. apply pair_frequency_zero.
  eapply Forall_impl; [|apply apply_merge_key_form].
  intros nk (k & ->). rewrite split_merged_key.
  apply occurrences_zero; try (apply plain_piece_no_space; assumption).
  apply merge_pair_no_pair; [apply Pa | apply Pb].
Qed.

Lemma train_loop_no_repeat : forall minF ops cs ms,
  plain_keys cs ->
  exists new,
    snd (train_loop ops minF cs ms) = ms ++ new /\ no_repeat new /\
    (forall a b, hd_error new = Some (a, b) ->
                 (0 < pair_frequency minF cs (pair_key a b))%nat).
Proof.
  intros minF. induction ops as [|n IH]; intros cs ms PK.
  - exists []. cbn [train_loop snd]. rewrite app_nil_r.
    split; [reflexivity|]. split; [intros [|i] r E; discriminate E | discriminate].
  - cbn [train_loop]. destruct (train_round minF cs) as [|a b c cs'] eqn:R.
    + exists []. cbn [snd]. rewrite app_nil_r.
      split; [reflexivity|]. split; [intros [|i] r E; discriminate E | discriminate].
    + destruct (train_round_merge _ _ _ _ _ _ PK R) as (Pa & Pb & -> & Pos).
      destruct (IH (apply_merge a b cs) (ms ++ [(a, b)]) (apply_merge_plain a b cs PK))
        as (new & E & NR & Hd).
      exists ((a, b) :: new). rewrite E, <- app_assoc. split; [reflexivity|]. split.
      * intros [|i] r G; cbn [nth_error] in *.
        -- injection G as <-. intros F.
           assert (H0 : hd_error new = Some (a, b)) by (destruct new; [discriminate F | exact F]).
           specialize (Hd a b H0). rewrite pair_frequency_merged in Hd by assumption. lia.
        -- apply NR. exact G.
      * intros a' b' X. injection X as <- <-. exact Pos.
Qed.

(** X22.  Training never learns the same rule twice in a row: once a pair is
    merged it stands in no word any more, so the next round finds another
    pair or stops.  (A rule can come back later, after other merges.) *)
Theorem training_no_rule_twice_in_a_row : forall norm T text minFrequency mergeOps i r,
  nth_error (merges (trainFromText norm T text minFrequency mergeOps)) i = Some r ->
  nth_error (merges (trainFromText norm T text minFrequency mergeOps)) (S i) <> Some r.
Proof.
  intros norm T text minF ops.
  destruct (trainFromText_fields norm T text minF ops) as (_ & _ & Em & _).
  rewrite Em.
  destruct (train_loop_no_repeat minF ops (count_words norm (lower T) text) []
              (count_words_plain norm (lower T) text)) as (new & E & NR & _).
  rewrite E. exact NR.
Qed.

Lemma training_no_rule_twice_in_a_row_witness :
  nth_error (merges (trainFromText ascii_lower fresh low_corpus 2 5)) 0
  = Some (MARK :: js "l", js "o") /\
  nth_error (merges (trainFromText ascii_lower fresh low_corpus 2 5)) 1
  <> Some (MARK :: js "l", js "o").
Proof.
  assert (G : nth_error (merges (trainFromText ascii_lower fresh low_corpus 2 5)) 0
              = Some (MARK :: js "l", js "o")) by reflexivity.
  split; [exact G|].
  exact (training_no_rule_twice_in_a_row ascii_lower fresh low_corpus 2 5 0 _ G).
Defined.

(** * The command line: [parseArgs] of cli.js *)

Definition DASH : Z := 45.
Definition EQUALS : Z := 61.

(** [a.startsWith('--')] *)
Definition startsWith_dashes (a : str) : bool :=
  match a with
  | c :: d :: _ => (c =? DASH) && (d =? DASH)
  | _ => false
  end.

(** [a.slice(2)] *)
Definition slice2 (a : str) : str := skipn 2 a.

(** [s.split('=')] *)
Fixpoint split_eq (s : str) : list str :=
  match s with
  | [] => [[]]
  | c :: s' =>
      if c =? EQUALS then [] :: split_eq s'
      else match split_eq s' with
           | h :: t => (c :: h) :: t
           | [] => [[c]]
           end
  end.

(** The value of a flag: [true] or a string. *)
Inductive flag : Type :=
| FTrue
| FStr (v : str).

(** The object [parseArgs] returns; [None] is [null]; [flags] holds the own
    properties of the object, which the program reads by name. *)
Record parsed : Type := {
  cmd : option str;
  args : list str;
  flags : Map.t str flag
}.

(** [const [k,v] = a.slice(2).split('=')] with [v === undefined ? true : v];
    a missing first element would be the key ["undefined"]. *)
Definition flag_pair (a : str) : str * flag :=
  match split_eq (slice2 a) with
  | k :: v :: _ => (k, FStr v)
  | [k] => (k, FTrue)
  | [] => (js "undefined", FTrue)
  end.

(** [res.flags[k] = v] on a plain object: the name ["__proto__"] reaches the
    setter of [Object.prototype], which ignores a boolean or a string, so no
    property is made. *)
Definition set_flag (fl : Map.t str flag) (k : str) (v : flag) : Map.t str flag :=
  if str_eqb k (js "__proto__") then fl else Map.set fl k v.

(** One turn of the loop over [argv[1..]]. *)
Definition parse_step (res : parsed) (a : str) : parsed :=
  if startsWith_dashes a then
    {| cmd := cmd res;
       args := args res;
       flags := set_flag (flags res) (fst (flag_pair a)) (snd (flag_pair a)) |}
  else
    {| cmd := cmd res; args := args res ++ [a]; flags := flags res |}.

(** [parseArgs(argv)] *)
Definition parseArgs (argv : list str) : parsed :=
  match argv with
  | [] => {| cmd := None; args := []; flags := [] |}
  | c :: rest =>
      fold_left parse_step rest {| cmd := Some c; args := []; flags := [] |}
  end.

Lemma split_eq_plain : forall p, ~ In EQUALS p -> split_eq p = [p].
Proof.
  induction p as [|c p IH]; intros N; simpl; [reflexivity|].
  destruct (c =? EQUALS) eqn:E.
  - apply Z.eqb_eq in E. elim N. left. exact E.
  - rewrite IH; [reflexivity|]. intros F. apply N. right. exact F.
Qed.

Lemma split_eq_app : forall p s,
  ~ In EQUALS p -> split_eq (p ++ EQUALS :: s) = p :: split_eq s.
Proof.
  induction p as [|c p IH]; intros s N; simpl.
  - reflexivity.
  - destruct (c =? EQUALS) eqn:E.
    + apply Z.eqb_eq in E. elim N. left. exact E.
    + rewrite IH; [reflexivity|]. intros F. apply N. right. exact F.
Qed.

Lemma split_eq_not_nil : forall s, split_eq s <> [].
Proof.
  destruct s as [|c s]; simpl; [discriminate|].
  destruct (c =? EQUALS); [discriminate|].
  destruct (split_eq s); discriminate.
Qed.

Lemma parse_fold_positional : forall rest res,
  cmd (fold_left parse_step rest res) = cmd res /\
  args (fold_left parse_step rest res)
  = args res ++ filter (fun a => negb (startsWith_dashes a)) rest.
Proof.
  induction rest as [|a rest IH]; intros res.
  - simpl. rewrite app_nil_r. auto.
  - cbn [fold_left filter]. destruct (IH (parse_step res a)) as [E1 E2].
    rewrite E1, E2. unfold parse_step.
    destruct (startsWith_dashes a); cbn [cmd args negb]; [auto|].
    rewrite <- app_assoc. auto.
Qed.

(** X23.  [parseArgs]: the first argument is the command, whatever it looks
    like (also when it starts with two dashes); the positional arguments are
    the later arguments that do not start with two dashes, in their order;
    without arguments the command is [null] and there is nothing else. *)
Theorem parseArgs_positional : forall c rest,
  parseArgs [] = {| cmd := None; args := []; flags := [] |} /\
  cmd (parseArgs (c :: rest)) = Some c /\
  args (parseArgs (c :: rest)) = filter (fun a => negb (startsWith_dashes a)) rest /\
  (forall a, In a (args (parseArgs (c :: rest))) ->
             In a rest /\ startsWith_dashes a = false) /\
  forall k, Map.has (flags (parseArgs [c])) k = false.
Proof.
  intros c rest. split; [reflexivity|].
  unfold parseArgs.
  destruct (parse_fold_positional rest {| cmd := Some c; args := []; flags := [] |})
    as [E1 E2].
  split; [exact E1|]. split; [exact E2|]. split.
  - intros a I. rewrite E2 in I. cbn [args app] in I.
    apply filter_In in I. destruct I as [I N]. split; [exact I|].
    destruct (startsWith_dashes a); [discriminate N | reflexivity].
  - intros k. reflexivity.
Qed.

Lemma parse_fold_flags_none : forall rest res k,
  (forall a, In a rest -> startsWith_dashes a = true -> fst (flag_pair a) <> k) ->
  Map.get (flags (fold_left parse_step rest res)) k = Map.get (flags res) k.
Proof.
  induction rest as [|a rest IH]; intros res k N; [reflexivity|].
  cbn [fold_left]. rewrite IH by (intros a' I; apply N; right; exact I).
  unfold parse_step. destruct (startsWith_dashes a) eqn:S; [|reflexivity].
  cbn [flags]. unfold set_flag.
  destruct (str_eqb (fst (flag_pair a)) (js "__proto__")); [reflexivity|].
  apply get_set_other. apply N; [left; reflexivity | exact S].
Qed.

Lemma parse_fold_proto : forall rest res,
  Map.get (flags (fold_left parse_step rest res)) (js "__proto__")
  = Map.get (flags res) (js "__proto__").
Proof.
  induction rest as [|a rest IH]; intros res; [reflexivity|].
  cbn [fold_left]. rewrite IH. unfold parse_step.
  destruct (startsWith_dashes a); [|reflexivity].
  cbn [flags]. unfold set_flag.
  destruct (str_eqb (fst (flag_pair a)) (js "__proto__")) eqn:E; [reflexivity|].
  apply get_set_other. intros F. rewrite F in E.
  rewrite str_eqb_refl in E. discriminate E.
Qed.

Lemma flag_pair_shapes : forall name,
  ~ In EQUALS name ->
  flag_pair (DASH :: DASH :: name) = (name, FTrue) /\
  forall value,
    ~ In EQUALS value ->
    flag_pair (DASH :: DASH :: name ++ EQUALS :: value) = (name, FStr value) /\
    forall tail,
      flag_pair (DASH :: DASH :: name ++ EQUALS :: value ++ EQUALS :: tail)
      = (name, FStr value).
Proof.
  intros name Nn. unfold flag_pair, slice2. cbn [skipn]. split.
  - rewrite split_eq_plain by exact Nn. reflexivity.
  - intros value Nv. split.
    + rewrite split_eq_app by exact Nn. rewrite split_eq_plain by exact Nv. reflexivity.
    + intros tail. rewrite split_eq_app by exact Nn.
      rewrite split_eq_app by exact Nv.
      pose proof (split_eq_not_nil tail) as NN.
      destruct (split_eq tail); reflexivity.
Qed.

(** X24.  The flags of [parseArgs]: an argument [--name] sets the flag to
    [true], [--name=value] sets it to the text [value], and of
    [--name=value=more] only [value] is kept; when a flag is given several
    times the last one counts; a name no argument gives is not set; the
    command (the first argument) never sets a flag; [--__proto__] sets
    nothing. *)
Theorem parseArgs_flags : forall c pre post name,
  ~ In EQUALS name -> name <> js "__proto__" ->
  (forall a, In a post -> startsWith_dashes a = true -> fst (flag_pair a) <> name) ->
  Map.get (flags (parseArgs (c :: pre ++ (DASH :: DASH :: name) :: post))) name
  = Some FTrue /\
  (forall value more,
     ~ In EQUALS value ->
     Map.get (flags (parseArgs
                       (c :: pre ++ (DASH :: DASH :: name ++ EQUALS :: value) :: post)))
       name = Some (FStr value) /\
     Map.get (flags (parseArgs
                       (c :: pre ++ (DASH :: DASH :: name ++ EQUALS :: value
                                       ++ EQUALS :: more) :: post)))
       name = Some (FStr value)) /\
  (forall rest k,
     (forall a, In a rest -> startsWith_dashes a = true -> fst (flag_pair a) <> k) ->
     Map.get (flags (parseArgs (c :: rest))) k = None) /\
  (forall rest, Map.get (flags (parseArgs (c :: rest))) (js "__proto__") = None).
Proof.
  intros c pre post name Nn NP Later.
  destruct (flag_pair_shapes name Nn) as [S1 S2].
  assert (NPb : str_eqb name (js "__proto__") = false).
  { destruct (str_eqb name (js "__proto__")) eqn:E; [|reflexivity].
    apply str_eqb_eq in E. contradiction. }
  assert (Set1 : forall a v res,
            startsWith_dashes a = true -> flag_pair a = (name, v) ->
            Map.get (flags (fold_left parse_step (pre ++ a :: post) res)) name = Some v).
  { intros a v res Sa Fa. rewrite fold_left_app. cbn [fold_left].
    rewrite parse_fold_flags_none by exact Later.
    unfold parse_step at 1. rewrite Sa, Fa. cbn [flags fst snd].
    unfold set_flag. rewrite NPb. apply get_set_same. }
  split; [apply Set1; [reflexivity | exact S1]|]. split; [|split].
  - intros value more Nv. destruct (S2 value Nv) as [S3 S4]. split.
    + apply Set1; [reflexivity | exact S3].
    + apply Set1; [reflexivity | apply S4].
  - intros rest k N. unfold parseArgs.
    rewrite parse_fold_flags_none by exact N. reflexivity.
  - intros rest. unfold parseArgs. rewrite parse_fold_proto. reflexivity.
Qed.

Lemma parseArgs_flags_witness :
  ~ In EQUALS (js "ops") /\ js "ops" <> js "__proto__" /\
  Map.get (flags (parseArgs
                    (js "train" :: [js "--ops=3"; js "in.txt"]
                       ++ (DASH :: DASH :: js "ops" ++ EQUALS :: js "7" ++ EQUALS :: js "x")
                       :: [js "out.json"; js "--minfreq"])))
    (js "ops") = Some (FStr (js "7")).
Proof.
  assert (Nn : ~ In EQUALS (js "ops")) by (vm_compute; intuition discriminate).
  assert (NP : js "ops" <> js "__proto__") by discriminate.
  assert (Later : forall a, In a [js "out.json"; js "--minfreq"] ->
                    startsWith_dashes a = true -> fst (flag_pair a) <> js "ops").
  { intros a [<-|[<-|[]]] S; [discriminate S | discriminate]. }
  split; [exact Nn|]. split; [exact NP|].
  destruct (parseArgs_flags (js "train") [js "--ops=3"; js "in.txt"]
              [js "out.json"; js "--minfreq"] (js "ops") Nn NP Later)
    as (_ & V & _).
  assert (Nv : ~ In EQUALS (js "7")) by (vm_compute; intuition discriminate).
  exact (proj2 (V (js "7") (js "x") Nv)).
Defined.

(** * The words of a text, in training and in [tokenize] *)

(** Every whitespace character taken as a separator of its own; the fields
    that are not empty are the words. *)
Fixpoint ws_fields (s : str) : list str :=
  match s with
  | [] => [[]]
  | c :: s' =>
      if is_ws c then [] :: ws_fields s'
      else match ws_fields s' with
           | h :: t => (c :: h) :: t
           | [] => [[c]]
           end
  end.

Lemma split_ws_cons : forall c s',
  split_ws (c :: s')
  = if is_ws c then
      match s' with
      | d :: _ => if is_ws d then split_ws s' else [] :: split_ws s'
      | [] => [] :: split_ws s'
      end
    else match split_ws s' with
         | h :: t => (c :: h) :: t
         | [] => [[c]]
         end.
Proof. reflexivity. Qed.

Lemma split_ws_keep_cons : forall c s',
  split_ws_keep (c :: s')
  = if is_ws c then
      match s' with
      | d :: _ =>
          if is_ws d then
            match split_ws_keep s' with
            | w :: run :: rest => w :: (c :: run) :: rest
            | r => r
            end
          else [] :: [c] :: split_ws_keep s'
      | [] => [] :: [c] :: split_ws_keep s'
      end
    else match split_ws_keep s' with
         | h :: t => (c :: h) :: t
         | [] => [[c]]
         end.
Proof. reflexivity. Qed.

Lemma ws_fields_cons : forall c s',
  ws_fields (c :: s')
  = if is_ws c then [] :: ws_fields s'
    else match ws_fields s' with
         | h :: t => (c :: h) :: t
         | [] => [[c]]
         end.
Proof. reflexivity. Qed.

Lemma filter_Boolean_head : forall h (t t' : list str),
  filter_Boolean t = filter_Boolean t' ->
  filter_Boolean (h :: t) = filter_Boolean (h :: t').
Proof.
  intros h t t' E. unfold filter_Boolean in *. cbn [filter]. rewrite E. reflexivity.
Qed.

Lemma split_ws_fields : forall s,
  exists h t t',
    split_ws s = h :: t /\ ws_fields s = h :: t' /\
    filter_Boolean t = filter_Boolean t'.
Proof.
  induction s as [|c s (h & t & t' & E1 & E2 & E3)].
  - exists [], [], []. auto.
  - rewrite split_ws_cons, ws_fields_cons. destruct (is_ws c) eqn:Wc.
    + destruct s as [|d s''].
      * exists [], [[]], [[]]. auto.
      * destruct (is_ws d) eqn:Wd.
        -- rewrite ws_fields_cons, Wd in E2. injection E2 as <- <-.
           exists [], t, (ws_fields (d :: s'')). split; [exact E1|].
           split; [reflexivity|]. rewrite ws_fields_cons, Wd. exact E3.
        -- exists [], (split_ws (d :: s'')), (ws_fields (d :: s'')).
           split; [reflexivity|]. split; [reflexivity|].
           rewrite E1, E2. apply filter_Boolean_head. exact E3.
    + rewrite E1, E2. exists (c :: h), t, t'. auto.
Qed.

Lemma filter_Boolean_split_ws : forall s,
  filter_Boolean (split_ws s) = filter_Boolean (ws_fields s).
Proof.
  intros s. destruct (split_ws_fields s) as (h & t & t' & -> & -> & E).
  apply filter_Boolean_head. exact E.
Qed.

(** The test by which [tokenize] keeps a field as a word. *)
Definition is_word (w : str) : bool :=
  negb (is_ws_run w) && negb (length w =? 0)%nat.

Lemma is_word_no_ws : forall w, no_ws w = true -> is_word w = negb (str_eqb w []).
Proof.
  intros [|c w] N; [reflexivity|]. unfold is_word.
  rewrite (no_ws_not_run (c :: w)) by (discriminate || exact N). reflexivity.
Qed.

Lemma is_word_run : forall w, is_ws_run w = true -> is_word w = false.
Proof. intros w R. unfold is_word. rewrite R. reflexivity. Qed.

Lemma split_ws_keep_fields : forall s,
  exists h t t',
    split_ws_keep s = h :: t /\ ws_fields s = h :: t' /\ no_ws h = true /\
    filter is_word t = filter_Boolean t'.
Proof.
  induction s as [|c s (h & t & t' & E1 & E2 & Nh & E3)].
  - exists [], [], []. auto.
  - rewrite split_ws_keep_cons, ws_fields_cons. destruct (is_ws c) eqn:Wc.
    + assert (Rc : is_ws_run [c] = true) by (simpl; rewrite Wc; reflexivity).
      assert (Plain : filter is_word ([c] :: h :: t) = filter_Boolean (h :: t')).
      { cbn [filter]. rewrite (is_word_run _ Rc), (is_word_no_ws _ Nh).
        unfold filter_Boolean in *. cbn [filter]. rewrite E3. reflexivity. }
      destruct s as [|d s''].
      * rewrite E1, E2. exists [], ([c] :: h :: t), (h :: t').
        split; [reflexivity|]. split; [reflexivity|]. split; [reflexivity | exact Plain].
      * destruct (is_ws d) eqn:Wd.
        -- destruct (split_ws_keep_inv (d :: s'')) as (_ & _ & _ & W).
           destruct (W d s'' eq_refl Wd) as (run & rest & Er & Rr).
           rewrite Er in E1. injection E1 as <- <-. rewrite Er.
           rewrite ws_fields_cons, Wd in E2. injection E2 as <-.
           exists [], ((c :: run) :: rest), ([] :: ws_fields s'').
           split; [reflexivity|]. split; [rewrite ws_fields_cons, Wd; reflexivity|].
           split; [reflexivity|].
           assert (Rcr : is_ws_run (c :: run) = true).
           { destruct run as [|x run']; [discriminate Rr|].
             simpl in *. rewrite Wc. exact Rr. }
           cbn [filter] in *. rewrite (is_word_run _ Rcr).
           rewrite (is_word_run _ Rr) in E3. rewrite E3. reflexivity.
        -- rewrite E1, E2. exists [], ([c] :: h :: t), (h :: t').
           split; [reflexivity|]. split; [reflexivity|].
           split; [reflexivity | exact Plain].
    + rewrite E1, E2. exists (c :: h), t, t'.
      split; [reflexivity|]. split; [reflexivity|]. split; [|exact E3].
      simpl. rewrite Wc. exact Nh.
Qed.

Lemma words_of_fields : forall s, words_of s = filter_Boolean (ws_fields s).
Proof.
  intros s. unfold words_of.
  destruct (split_ws_keep_fields s) as (h & t & t' & -> & -> & Nh & E).
  change (filter (fun w => negb (is_ws_run w) && negb (length w =? 0)%nat) (h :: t))
    with (filter is_word (h :: t)).
  cbn [filter]. rewrite (is_word_no_ws _ Nh).
  unfold filter_Boolean in *. cbn [filter]. rewrite E. reflexivity.
Qed.

Lemma ws_fields_not_nil : forall s, ws_fields s <> [].
Proof.
  destruct s as [|c s]; simpl; [discriminate|].
  destruct (is_ws c); [discriminate|].
  destruct (ws_fields s); discriminate.
Qed.

Lemma ws_fields_app : forall pre c s,
  is_ws c = true ->
  filter_Boolean (ws_fields (pre ++ c :: s))
  = filter_Boolean (ws_fields pre) ++ filter_Boolean (ws_fields s).
Proof.
  intros pre c s Wc.
  assert (A : forall pre, exists h t,
            ws_fields pre = h :: t /\
            ws_fields (pre ++ c :: s) = h :: t ++ ws_fields s).
  { induction pre0 as [|x pre0 (h & t & E1 & E2)].
    - exists [], []. simpl. rewrite Wc. auto.
    - cbn [app]. rewrite !ws_fields_cons. destruct (is_ws x).
      + exists [], (h :: t). rewrite E1, E2. auto.
      + rewrite E1, E2. exists (x :: h), t. auto. }
  destruct (A pre) as (h & t & -> & ->).
  unfold filter_Boolean. rewrite app_comm_cons, filter_app. reflexivity.
Qed.

Lemma split_lines_fields : forall s pre,
  exists h t,
    split_lines s = h :: t /\
    filter_Boolean (ws_fields (pre ++ h))
      ++ flat_map (fun l => filter_Boolean (ws_fields l)) t
    = filter_Boolean (ws_fields (pre ++ s)).
Proof.
  assert (WL : is_ws LF = true) by reflexivity.
  assert (WC : is_ws CR = true) by reflexivity.
  assert (A : forall n s, (length s <= n)%nat -> forall pre,
            exists h t,
              split_lines s = h :: t /\
              filter_Boolean (ws_fields (pre ++ h))
                ++ flat_map (fun l => filter_Boolean (ws_fields l)) t
              = filter_Boolean (ws_fields (pre ++ s))).
  { induction n as [|n IH]; intros s L pre.
    - destruct s; [|simpl in L; lia]. exists [], []. simpl. rewrite app_nil_r. auto.
    - destruct s as [|c s']; [exists [], []; simpl; rewrite app_nil_r; auto|].
      assert (Plain : forall h t,
                split_lines s' = h :: t ->
                filter_Boolean (ws_fields ((pre ++ [c]) ++ h))
                  ++ flat_map (fun l => filter_Boolean (ws_fields l)) t
                = filter_Boolean (ws_fields ((pre ++ [c]) ++ s')) ->
                exists h0 t0,
                  (c :: h) :: t = h0 :: t0 /\
                  filter_Boolean (ws_fields (pre ++ h0))
                    ++ flat_map (fun l => filter_Boolean (ws_fields l)) t0
                  = filter_Boolean (ws_fields (pre ++ c :: s'))).
      { intros h t _ E. exists (c :: h), t. split; [reflexivity|].
        rewrite <- !app_assoc in E. exact E. }
      cbn [split_lines]. destruct (c =? LF) eqn:El.
      + apply Z.eqb_eq in El. subst c.
        destruct (IH s' ltac:(simpl in L; lia) []) as (h & t & E1 & E2).
        exists [], (split_lines s'). split; [reflexivity|].
        rewrite E1. cbn [flat_map]. cbn [app] in E2. rewrite E2.
        rewrite app_nil_r. symmetry. apply ws_fields_app. exact WL.
      + destruct s' as [|d s''].
        * exists [c], []. split; [reflexivity|]. simpl. rewrite app_nil_r. reflexivity.
        * destruct ((c =? CR) && (d =? LF)) eqn:Ec.
          -- apply andb_true_iff in Ec. destruct Ec as [Ec Ed].
             apply Z.eqb_eq in Ec. apply Z.eqb_eq in Ed. subst c d.
             destruct (IH s'' ltac:(simpl in L; lia) []) as (h & t & E1 & E2).
             exists [], (split_lines s''). split; [reflexivity|].
             rewrite E1. cbn [flat_map]. cbn [app] in E2. rewrite E2.
             rewrite app_nil_r.
             rewrite (ws_fields_app pre CR (LF :: s'') WC).
             reflexivity.
          -- assert (L' : (length (d :: s'') <= n)%nat) by (simpl in *; lia).
             destruct (IH (d :: s'') L' (pre ++ [c])) as (h & t & E1 & E2).
             rewrite E1. apply (Plain h t E1 E2). }
  intros s pre. apply (A (length s)). lia.
Qed.

Lemma corpus_words_fields : forall norm s,
  corpus_words norm false s = filter_Boolean (ws_fields s).
Proof.
  intros norm s. unfold corpus_words.
  destruct (split_lines_fields s []) as (h & t & E1 & E2).
  rewrite E1. cbn [flat_map app] in *. rewrite filter_Boolean_split_ws.
  rewrite <- E2. f_equal. apply flat_map_eq_in.
  intros l _. apply filter_Boolean_split_ws.
Qed.

Section SameWords.
Variable normalizeLower : str -> str.

Lemma word_piece_ids : forall T w,
  no_ws w = true ->
  flat_map (piece_ids T false) (_applyBPEToWord (merges T) w)
  = map (fun p => nullish (Map.get (tokenToId T) p) (Map.get (tokenToId T) UNK))
      (_applyBPEToWord (merges T) w).
Proof.
  intros T w NW.
  assert (A : forall l, (forall p, In p l -> is_ws_run p = false) ->
            flat_map (piece_ids T false) l
            = map (fun p => nullish (Map.get (tokenToId T) p) (Map.get (tokenToId T) UNK)) l).
  { induction l as [|p l IH]; intros N; [reflexivity|].
    cbn [flat_map map]. rewrite IH by (intros q I; apply N; right; exact I).
    unfold piece_ids, encode_piece. rewrite (N p (or_introl eq_refl)). reflexivity. }
  apply A. intros p I. apply (applyBPE_not_ws_run _ _ _ NW I).
Qed.

Lemma tokenize_words : forall T text,
  filter (fun p => negb (is_ws_run p)) (tokenize normalizeLower T text)
  = flat_map (_applyBPEToWord (merges T)) (words_of (source normalizeLower T text)).
Proof.
  intros T text. rewrite tokenize_fields. unfold words_of.
  destruct (split_ws_keep_inv (source normalizeLower T text)) as (_ & F & _).
  induction F as [|w l Sh F IH]; [reflexivity|].
  cbn [flat_map filter]. rewrite filter_app, IH. unfold field_pieces.
  destruct Sh as [R|N].
  - rewrite R. cbn [filter negb andb]. rewrite R. reflexivity.
  - destruct w as [|c w]; [reflexivity|].
    rewrite (no_ws_not_run (c :: w)) by (discriminate || exact N).
    cbn [length Nat.eqb negb andb flat_map]. f_equal.
    apply forallb_filter_id. apply forallb_forall. intros p I.
    rewrite (applyBPE_not_ws_run _ _ _ N I). reflexivity.
Qed.

(** X25.  [tokenize] and training cut a text into the same words: the
    fields that [tokenize] hands to [_applyBPEToWord] are the words that
    [trainFromText] counts in the same text (once normalised), whatever the
    whitespace and the line ends between them; and the pieces of [tokenize]
    that are not whitespace are the pieces of these words, in order. *)
Theorem tokenize_and_training_same_words : forall T text,
  words_of (source normalizeLower T text)
  = corpus_words normalizeLower false (source normalizeLower T text) /\
  filter (fun p => negb (is_ws_run p)) (tokenize normalizeLower T text)
  = flat_map (_applyBPEToWord (merges T))
      (corpus_words normalizeLower false (source normalizeLower T text)).
Proof.
  intros T text.
  assert (E : words_of (source normalizeLower T text)
              = corpus_words normalizeLower false (source normalizeLower T text))
    by (rewrite words_of_fields, corpus_words_fields; reflexivity).
  split; [exact E|]. rewrite <- E. apply tokenize_words.
Qed.

Lemma encode_words : forall T text,
  encode normalizeLower T text false false
  = flat_map
      (fun w => map (fun p => nullish (Map.get (tokenToId T) p)
                                      (Map.get (tokenToId T) UNK))
                  (_applyBPEToWord (merges T) w))
      (words_of (source normalizeLower T text)).
Proof.
  intros T text. rewrite encode_no_markers, tokenize_fields. unfold words_of.
  destruct (split_ws_keep_inv (source normalizeLower T text)) as (_ & F & _).
  induction F as [|w l Sh F IH]; [reflexivity|].
  cbn [flat_map filter]. rewrite flat_map_app, IH. unfold field_pieces.
  destruct Sh as [R|N].
  - rewrite R. cbn [flat_map negb andb]. unfold piece_ids, encode_piece.
    rewrite R. reflexivity.
  - destruct w as [|c w]; [reflexivity|].
    rewrite (no_ws_not_run (c :: w)) by (discriminate || exact N).
    cbn [length Nat.eqb negb andb flat_map]. f_equal.
    apply word_piece_ids. exact N.
Qed.

(** X26.  Without [keepSpaces] the ids depend on the words only: [encode]
    gives, between the boundary markers if they are asked for, the ids of the
    pieces of the words of the text, and two texts with the same words (they
    differ by their whitespace only) get the same ids. *)
Theorem encode_ignores_whitespace : forall T text addBosEos,
  encode normalizeLower T text addBosEos false
  = (if addBosEos then [Map.get (tokenToId T) BOS] else [])
    ++ flat_map
         (fun w => map (fun p => nullish (Map.get (tokenToId T) p)
                                         (Map.get (tokenToId T) UNK))
                     (_applyBPEToWord (merges T) w))
         (words_of (source normalizeLower T text))
    ++ (if addBosEos then [Map.get (tokenToId T) EOS] else []) /\
  forall text',
    words_of (source normalizeLower T text') = words_of (source normalizeLower T text) ->
    encode normalizeLower T text' addBosEos false
    = encode normalizeLower T text addBosEos false.
Proof.
  intros T text b.
  assert (G : forall t,
            encode normalizeLower T t b false
            = (if b then [Map.get (tokenToId T) BOS] else [])
              ++ flat_map
                   (fun w => map (fun p => nullish (Map.get (tokenToId T) p)
                                                   (Map.get (tokenToId T) UNK))
                               (_applyBPEToWord (merges T) w))
                   (words_of (source normalizeLower T t))
              ++ (if b then [Map.get (tokenToId T) EOS] else [])).
  { intros t. destruct b.
    - rewrite encode_wrap, encode_words. reflexivity.
    - rewrite encode_words, app_nil_r. reflexivity. }
  split; [apply G|].
  intros text' E. rewrite (G text'), (G text), E. reflexivity.
Qed.

End SameWords.

Lemma encode_ignores_whitespace_witness :
  words_of (source ascii_lower low_tok (js "low lower"))
  = words_of (source ascii_lower low_tok spaced_text) /\
  encode ascii_lower low_tok (js "low lower") true false
  = encode ascii_lower low_tok spaced_text true false.
Proof.
  assert (E : words_of (source ascii_lower low_tok (js "low lower"))
              = words_of (source ascii_lower low_tok spaced_text)) by reflexivity.
  split; [exact E|].
  exact (proj2 (encode_ignores_whitespace ascii_lower low_tok spaced_text true)
           (js "low lower") E).
Defined.

(** * Pieces are runs of initial pieces *)





(** * Training on a text without words *)

Lemma fold_left_flat_map : forall {A B C : Type} (f : A -> B -> A) (g : C -> list B) l a,
  fold_left f (flat_map g l) a = fold_left (fun a x => fold_left f (g x) a) l a.
Proof.
  intros A B C f g. induction l as [|x l IH]; intros a; [reflexivity|].
  cbn [flat_map fold_left]. rewrite fold_left_app. apply IH.
Qed.

Lemma init_fold_has : forall l (acc : Map.t str jsval * Map.t jsnum str * Z) st,
  In st l \/ Map.has (fst (fst acc)) st = true ->
  Map.has (fst (fst (fold_left init_step l acc))) st = true.
Proof.
  induction l as [|x l IH]; intros [[t2i i2t] n] st D.
  - destruct D as [[]|D]. exact D.
  - cbn [fold_left init_step]. apply IH. cbn [fst].
    destruct (key_dec x st) as [->|N].
    + right. unfold Map.has. rewrite get_set_same. reflexivity.
    + destruct D as [[E|I]|D]; [contradiction | left; exact I|].
      right. unfold Map.has in *. rewrite get_set_other by exact N. exact D.
Qed.

Lemma initSpecials_has : forall T st,
  In st (specialTokens T) -> Map.has (tokenToId (_initSpecials T)) st = true.
Proof.
  intros T st I.
  pose proof (init_fold_has (specialTokens T) ([], [], 0) st (or_introl I)) as H.
  unfold _initSpecials.
  destruct (fold_left init_step (specialTokens T) ([], [], 0)) as [[t2i i2t] idx].
  exact H.
Qed.

Lemma assign_fold_known : forall l T,
  (forall tok, In tok l -> Map.has (tokenToId T) tok = true) ->
  fold_left assign_id l T = T.
Proof.
  induction l as [|t l IH]; intros T K; [reflexivity|].
  cbn [fold_left]. unfold assign_id at 2. rewrite (K t (or_introl eq_refl)).
  apply IH. intros tok I. apply K. right. exact I.
Qed.

Section NoWords.
Variable normalizeLower : str -> str.

Lemma count_words_fold : forall lower_ text,
  count_words normalizeLower lower_ text
  = fold_left
      (fun cs w =>
         let key := join_sp (_wordToChars w) in
         Map.set cs key (get0 cs key + 1)%nat)
      (corpus_words normalizeLower lower_ text) [].
Proof.
  intros lower_ text. unfold count_words, corpus_words.
  rewrite fold_left_flat_map. reflexivity.
Qed.

(** X28.  Training on a text that holds no word (it is empty or all
    whitespace) learns nothing: no merge rule, no word count, and the
    vocabulary is that of [_initSpecials], the special tokens alone. *)
Theorem training_without_words : forall T text minFrequency mergeOps,
  corpus_words normalizeLower (lower T) text = [] ->
  let T' := trainFromText normalizeLower T text minFrequency mergeOps in
  merges T' = [] /\ counts T' = [] /\
  tokenToId T' = tokenToId (_initSpecials T) /\
  idToToken T' = idToToken (_initSpecials T) /\
  nextId T' = nextId (_initSpecials T).
Proof.
  intros T text minF ops E T'. subst T'.
  assert (C : count_words normalizeLower (lower T) text = [])
    by (rewrite count_words_fold, E; reflexivity).
  assert (L : train_loop ops minF (count_words normalizeLower (lower T) text) []
              = ([], [])) by (rewrite C; destruct ops; reflexivity).
  destruct (trainFromText_fields normalizeLower T text minF ops) as (_ & _ & Em & Ec).
  rewrite Em, Ec, L. split; [reflexivity|]. split; [reflexivity|].
  unfold trainFromText. rewrite L. cbv zeta.
  rewrite assign_fold_known.
  - unfold _initSpecials. cbn [specialTokens].
    destruct (fold_left init_step (specialTokens T) ([], [], 0)) as [[t2i i2t] idx].
    cbn [tokenToId idToToken nextId]. auto.
  - intros tok I. apply initSpecials_has. cbn [specialTokens].
    apply collect_tokens_from in I. destruct I as [I|(k & [] & _)]. exact I.
Qed.

End NoWords.

Lemma training_without_words_witness :
  corpus_words ascii_lower (lower fresh) [SP; LF; SP] = [] /\
  merges (trainFromText ascii_lower fresh [SP; LF; SP] 2 5) = [] /\
  tokenToId (trainFromText ascii_lower fresh [SP; LF; SP] 2 5)
  = tokenToId (_initSpecials fresh).
Proof.
  assert (E : corpus_words ascii_lower (lower fresh) [SP; LF; SP] = []) by reflexivity.
  split; [exact E|].
  destruct (training_without_words ascii_lower fresh [SP; LF; SP] 2 5 E)
    as (M & _ & V & _).
  split; [exact M | exact V].
Defined.

(** * Unknown pieces: claim C8 *)

Section UnknownPieces.
Variable normalizeLower : str -> str.


End UnknownPieces.






(** * The order of enumeration: claim C5 *)

(** The elements of [l], each once, in the order in which they are first
    met. *)
Fixpoint first_occurrences (l : list str) : list str :=
  match l with
  | [] => []
  | x :: l' => x :: filter (fun y => negb (str_eqb x y)) (first_occurrences l')
  end.

(** [y] is not among [ks]. *)
Definition is_new (ks : list str) (y : str) : bool :=
  negb (existsb (fun k => str_eqb k y) ks).

(** [ks], then what [l] brings that [ks] does not hold, in the order in which
    it is first met. *)
Definition extend (ks l : list str) : list str :=
  ks ++ filter (is_new ks) (first_occurrences l).

Lemma filter_filter_and : forall {A : Type} (f g : A -> bool) l,
  filter f (filter g l) = filter (fun y => g y && f y) l.
Proof.
  intros A f g. induction l as [|x l IH]; [reflexivity|].
  cbn [filter]. destruct (g x); cbn [filter andb]; rewrite IH; reflexivity.
Qed.

Lemma is_new_snoc : forall ks x y,
  is_new (ks ++ [x]) y = is_new ks y && negb (str_eqb x y).
Proof.
  intros ks x y. unfold is_new. rewrite existsb_app. cbn [existsb].
  rewrite orb_false_r, negb_orb. reflexivity.
Qed.

Lemma is_new_true : forall ks y, is_new ks y = true <-> ~ In y ks.
Proof.
  intros ks y. unfold is_new. rewrite negb_true_iff. split.
  - intros E I. assert (X : existsb (fun k => str_eqb k y) ks = true).
    { apply existsb_exists. exists y. split; [exact I | apply str_eqb_refl]. }
    congruence.
  - intros N. destruct (existsb (fun k => str_eqb k y) ks) eqn:E; [|reflexivity].
    apply existsb_exists in E. destruct E as (k & I & E).
    apply str_eqb_eq in E. subst k. contradiction.
Qed.

Lemma is_new_false : forall ks y, is_new ks y = false <-> In y ks.
Proof.
  intros ks y. split.
  - intros E. destruct (in_dec (list_eq_dec Z.eq_dec) y ks) as [I|N]; [exact I|].
    apply is_new_true in N. congruence.
  - intros I. destruct (is_new ks y) eqn:E; [|reflexivity].
    apply is_new_true in E. contradiction.
Qed.

Lemma is_new_same_members : forall ks ks' y,
  (forall x, In x ks <-> In x ks') -> is_new ks y = is_new ks' y.
Proof.
  intros ks ks' y S. destruct (is_new ks' y) eqn:E.
  - apply is_new_true. apply is_new_true in E. intros I. apply E. apply S. exact I.
  - apply is_new_false. apply is_new_false in E. apply S. exact E.
Qed.

Lemma extend_nil : forall ks, extend ks [] = ks.
Proof. intros ks. unfold extend. simpl. apply app_nil_r. Qed.

Lemma extend_cons : forall ks x l,
  extend ks (x :: l) = extend (if is_new ks x then ks ++ [x] else ks) l.
Proof.
  intros ks x l. unfold extend. cbn [first_occurrences filter].
  destruct (is_new ks x) eqn:N.
  - rewrite <- app_assoc. cbn [app]. do 2 f_equal.
    rewrite filter_filter_and. apply filter_ext. intros y.
    rewrite is_new_snoc. apply andb_comm.
  - f_equal. rewrite filter_filter_and. apply filter_ext. intros y.
    destruct (str_eqb x y) eqn:E; [|reflexivity].
    apply str_eqb_eq in E. subst y. rewrite N. reflexivity.
Qed.

Lemma extend_app : forall l1 ks l2,
  extend ks (l1 ++ l2) = extend (extend ks l1) l2.
Proof.
  induction l1 as [|x l1 IH]; intros ks l2.
  - rewrite extend_nil. reflexivity.
  - cbn [app]. rewrite !extend_cons. apply IH.
Qed.

Lemma extend_from_nil : forall l, extend [] l = first_occurrences l.
Proof.
  intros l. unfold extend. cbn [app].
  induction (first_occurrences l) as [|x r IH]; [reflexivity|].
  cbn [filter]. change (is_new [] x) with true. cbv iota. rewrite IH. reflexivity.
Qed.

Lemma first_occurrences_app : forall l1 l2,
  first_occurrences (l1 ++ l2) = extend (first_occurrences l1) l2.
Proof.
  intros l1 l2. rewrite <- !extend_from_nil. apply extend_app.
Qed.

Lemma in_first_occurrences : forall l x, In x (first_occurrences l) <-> In x l.
Proof.
  induction l as [|y l IH]; intros x; [reflexivity|].
  cbn [first_occurrences]. split.
  - intros [->|I]; [left; reflexivity|].
    apply filter_In in I. right. apply IH. apply I.
  - intros [->|I]; [left; reflexivity|].
    destruct (str_eqb y x) eqn:E.
    + apply str_eqb_eq in E. left. exact E.
    + right. apply filter_In. split; [apply IH; exact I | rewrite E; reflexivity].
Qed.

Lemma NoDup_first_occurrences : forall l, NoDup (first_occurrences l).
Proof.
  induction l as [|x l IH]; [constructor|].
  cbn [first_occurrences]. constructor.
  - intros I. apply filter_In in I. destruct I as [_ E].
    rewrite str_eqb_refl in E. discriminate E.
  - apply NoDup_filter. exact IH.
Qed.

(** The keys of a [Map] are in the order in which they were first set. *)

Lemma has_keys : forall {V : Type} (m : Map.t str V) k,
  Map.has m k = negb (is_new (Map.keys m) k).
Proof.
  intros V m k. unfold Map.has, is_new. rewrite negb_involutive.
  induction m as [|[k' v'] m IH]; [reflexivity|].
  cbn [Map.get Map.keys map fst existsb].
  change (keqb k' k) with (str_eqb k' k).
  destruct (str_eqb k' k); [reflexivity | exact IH].
Qed.

Lemma keys_set_new : forall {V : Type} (m : Map.t str V) k v,
  Map.keys (Map.set m k v)
  = if is_new (Map.keys m) k then Map.keys m ++ [k] else Map.keys m.
Proof.
  intros V m k v. rewrite keys_set, has_keys.
  destruct (is_new (Map.keys m) k); reflexivity.
Qed.

Lemma keys_fold_set : forall {E V : Type} (key : E -> str)
    (val : Map.t str V -> E -> V) l (m : Map.t str V),
  Map.keys (fold_left (fun m e => Map.set m (key e) (val m e)) l m)
  = extend (Map.keys m) (map key l).
Proof.
  intros E V key val. induction l as [|e l IH]; intros m.
  - cbn [fold_left map]. rewrite extend_nil. reflexivity.
  - cbn [fold_left map]. rewrite IH, extend_cons, keys_set_new. reflexivity.
Qed.

Lemma JSet_add_new : forall (s : list str) k,
  JSet.add s k = if is_new s k then s ++ [k] else s.
Proof.
  intros s k. unfold JSet.add, JSet.has, is_new.
  change (existsb (fun x => keqb x k) s) with (existsb (fun x => str_eqb x k) s).
  destruct (existsb (fun x => str_eqb x k) s); reflexivity.
Qed.

Lemma JSet_fold_add : forall l (s : list str),
  fold_left JSet.add l s = extend s l.
Proof.
  induction l as [|k l IH]; intros s.
  - rewrite extend_nil. reflexivity.
  - cbn [fold_left]. rewrite IH, extend_cons, JSet_add_new. reflexivity.
Qed.

(** The key a word has in the word counts. *)
Definition word_key (w : str) : str := join_sp (_wordToChars w).

(** The key a word key becomes by the rule [(a, b)]. *)
Definition rewrite_key (a b k : str) : str := join_sp (merge_pair a b (split_sp k)).

Lemma apply_merge_order : forall a b (cs : Map.t str nat),
  Map.keys (apply_merge a b cs)
  = first_occurrences (map (rewrite_key a b) (Map.keys cs)).
Proof.
  intros a b cs. unfold apply_merge.
  etransitivity;
    [exact (keys_fold_set (fun e : str * nat => rewrite_key a b (fst e))
              (fun nc e => (get0 nc (rewrite_key a b (fst e)) + snd e)%nat) cs [])|].
  cbn [Map.keys map]. rewrite extend_from_nil. unfold Map.keys.
  rewrite map_map. reflexivity.
Qed.

(** The pair keys of a word, left to right. *)
Fixpoint adjacent_keys (pieces : list str) : list str :=
  match pieces with
  | [] => []
  | p :: rest =>
      match rest with
      | [] => []
      | q :: _ => pair_key p q :: adjacent_keys rest
      end
  end.

(** The pair keys in reading order: word after word in the order of the word
    counts, the words that count only, each from left to right. *)
Definition pair_occurrences (minFrequency : nat) (cs : Map.t str nat) : list str :=
  flat_map
    (fun e : str * nat =>
       if (snd e <? minFrequency)%nat then [] else adjacent_keys (split_sp (fst e)))
    cs.

Lemma adjacent_keys_cons2 : forall p q rest,
  adjacent_keys (p :: q :: rest) = pair_key p q :: adjacent_keys (q :: rest).
Proof. reflexivity. Qed.

Lemma add_pairs_order : forall pieces cnt (pc : Map.t str nat),
  Map.keys (add_pairs pieces cnt pc) = extend (Map.keys pc) (adjacent_keys pieces).
Proof.
  induction pieces as [|p rest IH]; intros cnt pc.
  - cbn [add_pairs adjacent_keys]. rewrite extend_nil. reflexivity.
  - destruct rest as [|q rest'].
    + cbn [add_pairs adjacent_keys]. rewrite extend_nil. reflexivity.
    + rewrite add_pairs_cons2, adjacent_keys_cons2, IH, extend_cons, keys_set_new.
      reflexivity.
Qed.

Lemma build_pairCounts_order : forall minF cs,
  Map.keys (build_pairCounts minF cs) = first_occurrences (pair_occurrences minF cs).
Proof.
  intros minF cs. unfold build_pairCounts.
  assert (A : forall (l pc : Map.t str nat),
            Map.keys
              (fold_left
                 (fun pc e => if (snd e <? minF)%nat then pc
                              else add_pairs (split_sp (fst e)) (snd e) pc) l pc)
            = extend (Map.keys pc) (pair_occurrences minF l)).
  { induction l as [|[w cnt] l IH]; intros pc.
    - cbn [fold_left]. unfold pair_occurrences. cbn [flat_map].
      rewrite extend_nil. reflexivity.
    - cbn [fold_left]. rewrite IH. unfold pair_occurrences. cbn [flat_map fst snd].
      rewrite extend_app.
      destruct (cnt <? minF)%nat; [rewrite extend_nil; reflexivity|].
      rewrite add_pairs_order. reflexivity. }
  rewrite A. apply extend_from_nil.
Qed.

Lemma collect_tokens_order : forall specials (cs : Map.t str nat),
  collect_tokens specials cs
  = first_occurrences (specials ++ flat_map split_sp (Map.keys cs)).
Proof.
  intros specials cs. unfold collect_tokens, JSet.of_list.
  rewrite JSet_fold_add, first_occurrences_app, extend_from_nil.
  generalize (first_occurrences specials).
  induction (Map.keys cs) as [|k ks IH]; intros s.
  - cbn [fold_left flat_map]. rewrite extend_nil. reflexivity.
  - cbn [fold_left flat_map]. rewrite IH, JSet_fold_add, extend_app. reflexivity.
Qed.

Lemma count_words_order : forall norm lower_ text,
  Map.keys (count_words norm lower_ text)
  = first_occurrences (map word_key (corpus_words norm lower_ text)).
Proof.
  intros norm lower_ text. rewrite count_words_fold.
  etransitivity;
    [exact (keys_fold_set word_key
              (fun (cs : Map.t str nat) w => (get0 cs (word_key w) + 1)%nat)
              (corpus_words norm lower_ text) [])|].
  apply extend_from_nil.
Qed.

(** ** Ties go to the pair met first *)

(** [best] is the first of the entries [seen] that holds the highest count,
    or nothing when no count is positive. *)
Definition first_best (seen : Map.t str nat) (best : option str * nat) : Prop :=
  match fst best with
  | None => snd best = 0%nat /\ forall k c, In (k, c) seen -> c = 0%nat
  | Some k =>
      exists pre post,
        seen = pre ++ (k, snd best) :: post /\
        (forall k' c', In (k', c') pre -> (c' < snd best)%nat) /\
        (forall k' c', In (k', c') post -> (c' <= snd best)%nat) /\
        (0 < snd best)%nat
  end.

Lemma find_bestPair_first_from : forall l seen best,
  first_best seen best ->
  first_best (seen ++ l)
    (fold_left
       (fun (best : option str * nat) e =>
          if (snd best <? snd e)%nat then (Some (fst e), snd e) else best)
       l best).
Proof.
  induction l as [|[k c] l IH]; intros seen best B; cbn [fold_left].
  - rewrite app_nil_r. exact B.
  - replace (seen ++ (k, c) :: l) with ((seen ++ [(k, c)]) ++ l)
      by (rewrite <- app_assoc; reflexivity).
    apply IH. cbn [fst snd]. unfold first_best in *.
    destruct (snd best <? c)%nat eqn:E.
    + apply Nat.ltb_lt in E. cbn [fst snd].
      exists seen, []. split; [reflexivity|]. split; [|split; [intros ? ? []|lia]].
      intros k' c' I. destruct (fst best) as [kb|].
      * destruct B as (pre & post & -> & P1 & P2 & _).
        apply in_app_or in I. destruct I as [I|[I|I]].
        -- specialize (P1 _ _ I). lia.
        -- injection I as <- <-. exact E.
        -- specialize (P2 _ _ I). lia.
      * destruct B as [_ Z0]. rewrite (Z0 _ _ I). lia.
    + apply Nat.ltb_ge in E. destruct (fst best) as [kb|].
      * destruct B as (pre & post & -> & P1 & P2 & P3).
        exists pre, (post ++ [(k, c)]). rewrite <- app_assoc. cbn [app].
        split; [reflexivity|]. split; [exact P1|]. split; [|exact P3].
        intros k' c' I. apply in_app_or in I. destruct I as [I|[I|[]]].
        -- apply (P2 _ _ I).
        -- injection I as <- <-. exact E.
      * destruct B as [Z0 Z1]. split; [exact Z0|].
        intros k' c' I. apply in_app_or in I. destruct I as [I|[I|[]]].
        -- apply (Z1 _ _ I).
        -- injection I as <- <-. lia.
Qed.

Lemma find_bestPair_first : forall pc, first_best pc (find_bestPair pc).
Proof.
  intros pc. unfold find_bestPair.
  apply (find_bestPair_first_from pc [] (None, 0%nat)).
  split; [reflexivity | intros k c []].
Qed.

Lemma filter_eq_app_cons : forall {A : Type} (f : A -> bool) l p k q,
  filter f l = p ++ k :: q ->
  exists p2 q2, l = p2 ++ k :: q2 /\ filter f p2 = p /\ filter f q2 = q.
Proof.
  intros A f. induction l as [|x l IH]; intros p k q E.
  - destruct p; discriminate E.
  - cbn [filter] in E. destruct (f x) eqn:Fx.
    + destruct p as [|y p].
      * injection E as <- E. exists [], l. cbn [filter]. auto.
      * injection E as <- E. destruct (IH _ _ _ E) as (p2 & q2 & -> & E1 & E2).
        exists (x :: p2), q2. cbn [filter]. rewrite Fx, E1. auto.
    + destruct (IH _ _ _ E) as (p2 & q2 & -> & E1 & E2).
      exists (x :: p2), q2. cbn [filter]. rewrite Fx. auto.
Qed.

(** What stands before the first occurrence of [k] in [l] stands before [k]
    in [first_occurrences l]. *)
Lemma first_occurrences_split : forall l p k q,
  first_occurrences l = p ++ k :: q ->
  exists pre post, l = pre ++ k :: post /\ forall x, In x pre -> In x p.
Proof.
  induction l as [|x l IH]; intros p k q E.
  - destruct p; discriminate E.
  - cbn [first_occurrences] in E. destruct p as [|y p].
    + injection E as <- _. exists [], l. split; [reflexivity | intros ? []].
    + injection E as <- E.
      destruct (filter_eq_app_cons _ _ _ _ _ E) as (p2 & q2 & E' & F1 & F2).
      destruct (IH _ _ _ E') as (pre & post & -> & Sub).
      exists (x :: pre), post. split; [reflexivity|].
      intros z [<-|I]; [left; reflexivity|].
      destruct (str_eqb x z) eqn:Ez.
      * apply str_eqb_eq in Ez. left. exact Ez.
      * right. rewrite <- F1. apply filter_In. split; [apply Sub; exact I|].
        rewrite Ez. reflexivity.
Qed.

(** The loop has nothing to merge: every pair has frequency zero, or every
    pair has a frequency below [minFrequency]. *)
Definition quiet (minFrequency : nat) (cs : Map.t str nat) : Prop :=
  forall k, pair_frequency minFrequency cs k = 0%nat \/
            (pair_frequency minFrequency cs k < minFrequency)%nat.

(** [(a, b)] is the pair to merge: it is the first pair, in reading order,
    among those of highest frequency, and its frequency is positive and at
    least [minFrequency]. *)
Definition first_best_pair (minFrequency : nat) (cs : Map.t str nat) (a b : str)
  : Prop :=
  ~ In SP a /\ ~ In SP b /\
  (exists pre post,
     pair_occurrences minFrequency cs = pre ++ pair_key a b :: post /\
     forall k, In k pre ->
       (pair_frequency minFrequency cs k
        < pair_frequency minFrequency cs (pair_key a b))%nat) /\
  (forall k, (pair_frequency minFrequency cs k
              <= pair_frequency minFrequency cs (pair_key a b))%nat) /\
  (minFrequency <= pair_frequency minFrequency cs (pair_key a b))%nat /\
  (0 < pair_frequency minFrequency cs (pair_key a b))%nat.

(** The run in which ties go to the pair met first. *)
Inductive ordered_run (minFrequency : nat)
  : nat -> Map.t str nat -> list (str * str) -> Map.t str nat -> Prop :=
| ordered_budget : forall cs,
    ordered_run minFrequency 0 cs [] cs
| ordered_break : forall n cs,
    quiet minFrequency cs ->
    ordered_run minFrequency (S n) cs [] cs
| ordered_merge : forall n cs a b ms out,
    first_best_pair minFrequency cs a b ->
    ordered_run minFrequency n (apply_merge a b cs) ms out ->
    ordered_run minFrequency (S n) cs ((a, b) :: ms) out.

Lemma train_round_ordered : forall minF cs,
  match train_round minF cs with
  | Break => quiet minF cs
  | Merge a b c cs' => first_best_pair minF cs a b /\ cs' = apply_merge a b cs
  end.
Proof.
  intros minF cs. unfold train_round.
  pose proof (build_pairCounts_keys minF cs) as [ND PK].
  pose proof (build_pairCounts_get0 minF cs) as FR.
  pose proof (build_pairCounts_order minF cs) as OR.
  pose proof (find_bestPair_first (build_pairCounts minF cs)) as FB.
  destruct (build_pairCounts minF cs) as [|e pc] eqn:E.
  { intros k. left. rewrite <- FR. reflexivity. }
  unfold first_best in FB.
  destruct (find_bestPair (e :: pc)) as [[k|] bc]; cbn [fst snd] in FB.
  - destruct FB as (pre & post & Epc & P1 & P2 & P3).
    assert (I : In (k, bc) (e :: pc)).
    { rewrite Epc. apply in_or_app. right. left. reflexivity. }
    assert (KI : In k (Map.keys (e :: pc))).
    { change k with (fst (k, bc)). apply in_map. exact I. }
    assert (Max : forall k' c', In (k', c') (e :: pc) -> (c' <= bc)%nat).
    { intros k' c' I'. rewrite Epc in I'. apply in_app_or in I'.
      destruct I' as [I'|[I'|I']].
      - specialize (P1 _ _ I'). lia.
      - injection I' as _ <-. lia.
      - apply (P2 _ _ I'). }
    rewrite Forall_forall in PK.
    destruct (PK k KI) as (p & q & -> & Np & Nq).
    replace (str_eqb (pair_key p q) []) with false
      by (unfold pair_key; destruct p; reflexivity).
    cbn [orb].
    assert (Fk : pair_frequency minF cs (pair_key p q) = bc).
    { rewrite <- FR. apply get_get0. apply in_get_some; assumption. }
    destruct (bc <? minF)%nat eqn:C.
    + apply Nat.ltb_lt in C. intros k. right. rewrite <- FR.
      pose proof (get0_bounded (e :: pc) k bc Max). lia.
    + apply Nat.ltb_ge in C. rewrite pair_key_split by assumption.
      split; [|reflexivity].
      split; [exact Np|]. split; [exact Nq|]. rewrite Fk.
      split; [|split; [|split; [exact C | exact P3]]].
      * assert (Ek : Map.keys (e :: pc)
                     = map fst pre ++ pair_key p q :: map fst post).
        { rewrite Epc. unfold Map.keys. rewrite map_app. reflexivity. }
        rewrite Ek in OR. symmetry in OR.
        destruct (first_occurrences_split _ _ _ _ OR) as (pre' & post' & Eo & Sub).
        exists pre', post'. split; [exact Eo|].
        intros k Ik. specialize (Sub k Ik). apply in_map_iff in Sub.
        destruct Sub as ([k' c'] & Ek' & Ic). cbn [fst] in Ek'. subst k'.
        assert (Ipc : In (k, c') (e :: pc)).
        { rewrite Epc. apply in_or_app. left. exact Ic. }
        rewrite <- FR. rewrite (get_get0 _ _ _ (in_get_some (e :: pc) _ _ ND Ipc)).
        apply (P1 _ _ Ic).
      * intros k. rewrite <- FR. apply get0_bounded. exact Max.
  - destruct FB as [_ Z0]. intros k. left. rewrite <- FR.
    assert (B : (get0 (e :: pc) k <= 0)%nat).
    { apply get0_bounded. intros k' c' I. rewrite (Z0 _ _ I). lia. }
    lia.
Qed.

Lemma train_loop_ordered : forall minF ops cs ms,
  exists new,
    snd (train_loop ops minF cs ms) = ms ++ new /\
    ordered_run minF ops cs new (fst (train_loop ops minF cs ms)).
Proof.
  intros minF. induction ops as [|n IH]; intros cs ms; cbn [train_loop].
  - exists []. rewrite app_nil_r. split; [reflexivity | apply ordered_budget].
  - pose proof (train_round_ordered minF cs) as R.
    destruct (train_round minF cs) as [|a b c cs'].
    + exists []. rewrite app_nil_r. split; [reflexivity | apply ordered_break; exact R].
    + destruct R as (F & ->).
      destruct (IH (apply_merge a b cs) (ms ++ [(a, b)])) as (new & E & R).
      exists ((a, b) :: new). rewrite E, <- app_assoc.
      split; [reflexivity | apply ordered_merge; assumption].
Qed.

Lemma split_at_two : forall {A : Type} (pre pre' : list A) k k' post post',
  pre ++ k :: post = pre' ++ k' :: post' ->
  (pre = pre' /\ k = k') \/ In k pre' \/ In k' pre.
Proof.
  intros A. induction pre as [|x pre IH]; intros pre' k k' post post' E.
  - destruct pre' as [|y pre']; cbn [app] in E.
    + injection E as -> _. left. auto.
    + injection E as -> _. right. left. left. reflexivity.
  - destruct pre' as [|y pre']; cbn [app] in E.
    + injection E as -> _. right. right. left. reflexivity.
    + injection E as -> E. destruct (IH _ _ _ _ _ E) as [[-> ->]|[I|I]].
      * left. auto.
      * right. left. right. exact I.
      * right. right. right. exact I.
Qed.

(** There is one pair to merge at most. *)
Lemma first_best_pair_unique : forall minF cs a b a' b',
  first_best_pair minF cs a b -> first_best_pair minF cs a' b' ->
  a = a' /\ b = b'.
Proof.
  intros minF cs a b a' b'
    (Na & Nb & (pre & post & E & P) & M & _) (Na' & Nb' & (pre' & post' & E' & P') & M' & _).
  rewrite E in E'.
  destruct (split_at_two _ _ _ _ _ _ E') as [[_ K]|[I|I]].
  - destruct (pair_key_inj a' b' a b Na' Nb' K) as [-> ->]. auto.
  - specialize (P' _ I). specialize (M (pair_key a' b')). lia.
  - specialize (P _ I). specialize (M' (pair_key a b)). lia.
Qed.

Lemma ordered_run_unique : forall minF n cs ms out,
  ordered_run minF n cs ms out ->
  forall ms' out', ordered_run minF n cs ms' out' -> ms = ms' /\ out = out'.
Proof.
  intros minF n cs ms out R.
  induction R as [cs | n cs Q | n cs a b ms out F R IH]; intros ms' out' R';
    inversion R' as [cs1 | n1 cs1 Q' | n1 cs1 a' b' ms1 out1 F' R1]; subst.
  - auto.
  - auto.
  - exfalso. destruct F' as (_ & _ & _ & _ & C & P).
    destruct (Q (pair_key a' b')); lia.
  - exfalso. destruct F as (_ & _ & _ & _ & C & P).
    destruct (Q' (pair_key a b)); lia.
  - destruct (first_best_pair_unique _ _ _ _ _ _ F F') as [<- <-].
    destruct (IH _ _ R1) as [-> ->]. auto.
Qed.

(** ** The ids follow the order in which the tokens are first met *)

Lemma assign_fold_keeps : forall l T n,
  nextId T = Num n ->
  (exists n', nextId (fold_left assign_id l T) = Num n' /\ n <= n') /\
  (forall tok v, Map.get (tokenToId T) tok = Some v ->
                 Map.get (tokenToId (fold_left assign_id l T)) tok = Some v) /\
  (forall k, k < n ->
     Map.get (idToToken (fold_left assign_id l T)) (Num k)
     = Map.get (idToToken T) (Num k)).
Proof.
  induction l as [|t l IH]; intros T n En.
  - cbn [fold_left]. split; [exists n; split; [exact En | lia]|]. auto.
  - cbn [fold_left]. unfold assign_id at 2 4 6.
    destruct (Map.has (tokenToId T) t) eqn:H; [apply IH; exact En|].
    apply has_false_get in H.
    match goal with
    | |- context [fold_left assign_id l ?T1] =>
        destruct (IH T1 (n + 1)) as ((n' & En' & Ln) & Kt & Ki);
          [cbn [nextId]; rewrite En; reflexivity|]
    end.
    cbn [tokenToId idToToken] in Kt, Ki.
    split; [exists n'; split; [exact En' | lia]|]. split.
    + intros tok v G. apply Kt. rewrite get_set_other; [exact G|].
      intros F. subst tok. congruence.
    + intros k Lk. rewrite Ki by lia. apply get_set_other.
      rewrite En. intros F. injection F as F. lia.
Qed.

Lemma assign_fold_fresh : forall l T n,
  nextId T = Num n -> NoDup l ->
  (forall t, In t l -> Map.has (tokenToId T) t = false) ->
  forall j tok, nth_error l j = Some tok ->
    Map.get (tokenToId (fold_left assign_id l T)) tok
    = Some (JNum (Num (n + Z.of_nat j))) /\
    Map.get (idToToken (fold_left assign_id l T)) (Num (n + Z.of_nat j)) = Some tok.
Proof.
  induction l as [|t l IH]; intros T n En ND Fresh j tok G.
  - destruct j; discriminate G.
  - inversion ND as [|? ? NI ND']; subst.
    cbn [fold_left]. unfold assign_id at 2 4.
    rewrite (Fresh t (or_introl eq_refl)), !En.
    match goal with
    | |- context [fold_left assign_id l ?T1] => set (T' := T1)
    end.
    assert (En' : nextId T' = Num (n + 1)) by reflexivity.
    destruct j as [|j]; cbn [nth_error] in G.
    + injection G as ->.
      destruct (assign_fold_keeps l T' (n + 1) En') as (_ & Kt & Ki).
      rewrite Z.add_0_r. split.
      * apply Kt. subst T'. cbn [tokenToId]. apply get_set_same.
      * rewrite Ki by lia. subst T'. cbn [idToToken]. apply get_set_same.
    + replace (n + Z.of_nat (S j)) with (n + 1 + Z.of_nat j) by lia.
      apply (IH T' (n + 1) En' ND'); [|exact G].
      intros x Ix. subst T'. cbn [tokenToId]. unfold Map.has.
      rewrite get_set_other by (intros F; subst x; contradiction).
      rewrite (has_false_get _ _ (Fresh x (or_intror Ix))). reflexivity.
Qed.

Lemma initSpecials_only : forall T tok,
  Map.has (tokenToId (_initSpecials T)) tok = true -> In tok (specialTokens T).
Proof.
  intros T tok H. apply has_true_in in H. unfold _initSpecials in H.
  destruct (fold_left init_step (specialTokens T) ([], [], 0)) as [[t2i i2t] idx] eqn:E.
  cbn [tokenToId] in H.
  pose proof (init_fold_keys (specialTokens T) [] [] 0 tok) as X.
  match type of E with
  | ?lhs = _ =>
      match type of X with
      | context [fold_left init_step ?l ?a] =>
          change (fold_left init_step l a) with lhs in X
      end
  end.
  rewrite E in X. destruct (X H) as [F|I]; [destruct F | exact I].
Qed.

Lemma weight_get0 : forall (cs : Map.t str nat) k,
  NoDup (Map.keys cs) -> weight (fun k' => str_eqb k' k) cs = get0 cs k.
Proof.
  induction cs as [|[k1 v1] cs IH]; intros k ND; [reflexivity|].
  inversion ND as [|? ? NI ND']; subst.
  rewrite weight_cons. unfold get0. cbn [Map.get].
  change (keqb k1 k) with (str_eqb k1 k).
  change (match Map.get cs k with Some n => n | None => 0%nat end) with (get0 cs k).
  rewrite (IH k ND'). destruct (str_eqb k1 k) eqn:E; [|reflexivity].
  apply str_eqb_eq in E. subst k1.
  unfold get0. rewrite (proj2 (get_none_not_in cs k) NI). lia.
Qed.

Section Deterministic.
Variable normalizeLower : str -> str.

Lemma trained_ids_in_order : forall T text minF ops j tok,
  nth_error
    (filter (is_new (specialTokens T))
       (first_occurrences
          (flat_map split_sp
             (Map.keys (counts (trainFromText normalizeLower T text minF ops))))))
    j = Some tok ->
  Map.get (tokenToId (trainFromText normalizeLower T text minF ops)) tok
  = Some (JNum (Num (Z.of_nat (length (specialTokens T)) + Z.of_nat j))) /\
  Map.get (idToToken (trainFromText normalizeLower T text minF ops))
    (Num (Z.of_nat (length (specialTokens T)) + Z.of_nat j)) = Some tok.
Proof.
  intros T text minF ops j tok.
  destruct (trainFromText_fields normalizeLower T text minF ops) as (_ & _ & _ & Ec).
  rewrite Ec. unfold trainFromText.
  destruct (train_loop ops minF (count_words normalizeLower (lower T) text) [])
    as [cs ms].
  cbn [fst]. cbv zeta. intros G.
  rewrite collect_tokens_order, first_occurrences_app. unfold extend.
  rewrite fold_left_app.
  match goal with
  | |- context [_initSpecials ?T0'] => set (T0 := T0')
  end.
  assert (Known : fold_left assign_id (first_occurrences (specialTokens T))
                    (_initSpecials T0) = _initSpecials T0).
  { apply assign_fold_known. intros t I.
    apply (proj1 (in_first_occurrences _ _)) in I.
    exact (initSpecials_has T0 t I). }
  rewrite Known.
  assert (Same : filter (is_new (first_occurrences (specialTokens T)))
                   (first_occurrences (flat_map split_sp (Map.keys cs)))
                 = filter (is_new (specialTokens T))
                     (first_occurrences (flat_map split_sp (Map.keys cs)))).
  { apply filter_ext. intros y. apply is_new_same_members.
    intros x. apply in_first_occurrences. }
  rewrite Same.
  apply assign_fold_fresh.
  - exact (initSpecials_next T0).
  - apply NoDup_filter. apply NoDup_first_occurrences.
  - intros t I. apply filter_In in I. destruct I as [_ N].
    apply is_new_true in N.
    destruct (Map.has (tokenToId (_initSpecials T0)) t) eqn:H; [|reflexivity].
    elim N. exact (initSpecials_only T0 t H).
  - exact G.
Qed.

(** C5.  [trainFromText] is deterministic, and this is why.  Every table the
    training loop goes through lists its keys in the order in which they
    were first put in, which the text alone fixes: the word counts list the
    words in the order of their first occurrence in the corpus, with the
    number of their occurrences, and after a merge in the order in which the
    rewritten keys are first met.  When several pairs have the highest
    frequency, the pair merged is the one met first when the words are read
    in that order, each from left to right; of the runs that obey this rule
    there is only one, which is the run of the code.  The tokens that are
    not special get the ids that follow the special tokens, one after the
    other, in the order in which they are first met in the final word keys.
    Hence two tokenizers that agree on the case-folding flag and on the
    special tokens end, on the same corpus and configuration, with the same
    merge table in the same order and the same token-to-id and id-to-token
    tables, whatever they held before. *)
Theorem training_is_deterministic : forall T1 T2 text minFrequency mergeOps,
  lower T1 = lower T2 ->
  specialTokens T1 = specialTokens T2 ->
  let R1 := trainFromText normalizeLower T1 text minFrequency mergeOps in
  let R2 := trainFromText normalizeLower T2 text minFrequency mergeOps in
  let words := corpus_words normalizeLower (lower T1) text in
  let cs0 := count_words normalizeLower (lower T1) text in
  (merges R1 = merges R2 /\ tokenToId R1 = tokenToId R2 /\
   idToToken R1 = idToToken R2 /\ R1 = R2) /\
  (Map.keys cs0 = first_occurrences (map word_key words) /\
   (forall k, get0 cs0 k
              = length (filter (fun w => str_eqb (word_key w) k) words)) /\
   (forall a b (cs : Map.t str nat),
      Map.keys (apply_merge a b cs)
      = first_occurrences (map (rewrite_key a b) (Map.keys cs)))) /\
  (ordered_run minFrequency mergeOps cs0 (merges R1) (counts R1) /\
   forall ms out,
     ordered_run minFrequency mergeOps cs0 ms out ->
     ms = merges R1 /\ out = counts R1) /\
  (forall j tok,
     nth_error
       (filter (is_new (specialTokens T1))
          (first_occurrences (flat_map split_sp (Map.keys (counts R1)))))
       j = Some tok ->
     Map.get (tokenToId R1) tok
     = Some (JNum (Num (Z.of_nat (length (specialTokens T1)) + Z.of_nat j))) /\
     Map.get (idToToken R1)
       (Num (Z.of_nat (length (specialTokens T1)) + Z.of_nat j)) = Some tok).
Proof.
  intros T1 T2 text minF ops El Es R1 R2 words cs0.
  assert (E : R1 = R2).
  { subst R1 R2. unfold trainFromText. rewrite El, Es.
    destruct (train_loop ops minF (count_words normalizeLower (lower T2) text) [])
      as [cs ms].
    unfold _initSpecials. simpl.
    destruct (fold_left init_step (specialTokens T2) ([], [], 0)) as [[t2i i2t] idx].
    reflexivity. }
  split; [rewrite E; auto|].
  pose proof (count_words_order normalizeLower (lower T1) text) as Ko.
  split; [split; [exact Ko|split; [|apply apply_merge_order]]|].
  { intros k. subst cs0 words. rewrite <- weight_get0.
    - apply weight_count_words.
    - rewrite Ko. apply NoDup_first_occurrences. }
  destruct (trainFromText_fields normalizeLower T1 text minF ops) as (_ & _ & Em & Ec).
  destruct (train_loop_ordered minF ops cs0 []) as (new & En & Run).
  cbn [app] in En. subst R1 cs0. rewrite Em, Ec, En.
  split; [split; [exact Run|]|].
  - intros ms out Run'.
    destruct (ordered_run_unique _ _ _ _ _ Run' _ _ Run) as [-> ->]. auto.
  - rewrite <- Ec. apply trained_ids_in_order.
Qed.

End Deterministic.

Lemma training_is_deterministic_witness :
  lower fresh = lower used_tokenizer /\
  specialTokens fresh = specialTokens used_tokenizer /\
  merges (trainFromText ascii_lower fresh low_corpus 2 5)
  = merges (trainFromText ascii_lower used_tokenizer low_corpus 2 5) /\
  tokenToId (trainFromText ascii_lower fresh low_corpus 2 5)
  = tokenToId (trainFromText ascii_lower used_tokenizer low_corpus 2 5) /\
  ordered_run 2 5 (count_words ascii_lower (lower fresh) low_corpus)
    (merges (trainFromText ascii_lower fresh low_corpus 2 5))
    (counts (trainFromText ascii_lower fresh low_corpus 2 5)).
Proof.
  assert (El : lower fresh = lower used_tokenizer) by reflexivity.
  assert (Es : specialTokens fresh = specialTokens used_tokenizer) by reflexivity.
  split; [exact El|]. split; [exact Es|].
  pose proof (training_is_deterministic ascii_lower fresh used_tokenizer
                low_corpus 2 5 El Es) as ((Em & Et & _) & _ & (Run & _) & _).
  split; [exact Em|]. split; [exact Et | exact Run].
Defined.
